(** * Stream write path and task scheduler of BanyanDB

    A shallow embedding of
    - [banyand/stream/write.go]: the admission check [CheckHealth], the
      write batcher ([handle], [prepareElementsInGroup],
      [prepareElementsInTable], [processElements], [encodeTagValue],
      [appendField]) and the committer [Rev];
    - the scheduler of [pkg/timestamp]: [Register], [Trigger],
      [Interval], [Close] and the goroutine [run] of a task.

    Go maps are [gmap]s, sets ([map[K]struct{}]) are [gset]s, slices are
    lists, [int], [int64] and [uint64] values are [Z] (the write path
    compares and stores them and computes nothing with them; the counters
    of a task wrap around).  Pointers into the
    accumulator are positions in it, and an update through a pointer is
    stored back at that position.

    What the write path calls outside of its file (storage layer, schema
    repository, hashing, marshalling, the timestamp check) is gathered in
    the record [Env].  Every call that reaches the storage layer is
    recorded in a trace, with its answer, and the answers may depend on
    the trace so far: the storage layer has a state of its own.

    The modules [Scheduler], [Stream], [StreamMore], [SchedulerMore] and
    [TaskRun] hold the definitions, [Examples] and [MoreExamples] concrete
    collaborators and inputs, and the modules whose name ends in [Facts]
    the lemmas and theorems. *)

From Stdlib Require Import ZArith Lia Ascii String.
From stdpp Require Import base option list gmap strings fin_maps.

Local Open Scope Z_scope.

(* ===================================================================== *)
(** * The scheduler *)
(* ===================================================================== *)

Module Scheduler.

(** [ErrSchedulerClosed], [ErrTaskDuplicated] (wrapped with the task's name
    by [errors.WithMessage]) and the error of [parser.Parse]. *)
Inductive RegisterError (ParseError : Type) : Type :=
| ErrSchedulerClosed
| ErrTaskDuplicated (name : string)
| ErrParse (e : ParseError).
Arguments ErrSchedulerClosed {ParseError}.
Arguments ErrTaskDuplicated {ParseError} name.
Arguments ErrParse {ParseError} e.

(** The clock a task runs on: the scheduler's own clock, or a mock clock of
    its own that was last set to the given time. *)
Inductive TaskClock : Type :=
| SharedClock
| OwnMockClock (now : Z).

Section WithCron.
(** The cron library: [cron.ParseOption], [cron.Schedule], and
    [cron.NewParser(options).Parse(expr)]. *)
Variables (ParseOption Schedule ParseError Action : Type).
Variable Parse : ParseOption → string → Schedule + ParseError.

Record task : Type := mkTask {
  name : string;
  clock : TaskClock;
  schedule : Schedule;
  action : Action
}.

Record Scheduler : Type := mkScheduler {
  tasks : gmap string task;
  isMock : bool;
  closed : bool
}.

Definition NewScheduler (clockIsMock : bool) : Scheduler :=
  {| tasks := ∅; isMock := clockIsMock; closed := false |}.

Definition newTask (nm : string) (c : TaskClock) (sch : Schedule)
    (act : Action) : task :=
  {| name := nm; clock := c; schedule := sch; action := act |}.

(** [Register]; [now] is the reading of [s.clock.Now()].  The goroutine
    started at the end is the step [taskExit] below. *)
Definition Register (s : Scheduler) (now : Z) (nm : string)
    (options : ParseOption) (expr : string) (act : Action)
    : Scheduler * option (RegisterError ParseError) :=
  if closed s then (s, Some ErrSchedulerClosed)
  else match tasks s !! nm with
  | Some _ => (s, Some (ErrTaskDuplicated nm))
  | None =>
    match Parse options expr with
    | inr err => (s, Some (ErrParse err))
    | inl sch =>
      let c := if isMock s then OwnMockClock now else SharedClock in
      let t := newTask nm c sch act in
      ({| tasks := <[nm := t]> (tasks s);
          isMock := isMock s; closed := closed s |}, None)
    end
  end.

(** The tail of the goroutine of a task: after [t.run()] and [t.close()]
    it takes the lock and deletes the entry. *)
Definition taskExit (s : Scheduler) (nm : string) : Scheduler :=
  {| tasks := delete nm (tasks s); isMock := isMock s; closed := closed s |}.

(** [Trigger]: sets the task's mock clock to the scheduler's time. *)
Definition Trigger (s : Scheduler) (now : Z) (nm : string)
    : Scheduler * bool :=
  if negb (isMock s) then (s, false)
  else match tasks s !! nm with
  | None => (s, false)
  | Some t =>
    ({| tasks := <[nm := {| name := name t; clock := OwnMockClock now;
                            schedule := schedule t; action := action t |}]>
                   (tasks s);
        isMock := isMock s; closed := closed s |}, true)
  end.

Definition Closed (s : Scheduler) : bool := closed s.

(** The loop of [Close]: every entry of the map is visited, its task is
    closed and the entry is deleted.  The second component lists the
    tasks closed, in the order of the visit. *)
Definition closeLoop (m : gmap string task) (visit : list (string * task))
    : gmap string task * list string :=
  foldl (λ acc kt, (delete kt.1 acc.1, acc.2 ++ [kt.1])) (m, []) visit.

Definition Close (s : Scheduler) : Scheduler * list string :=
  let r := closeLoop (tasks s) (map_to_list (tasks s)) in
  ({| tasks := r.1; isMock := isMock s; closed := true |}, r.2).

(** One atomic step of the scheduler's shared state: every method runs
    under the lock. *)
Inductive step : Scheduler → Scheduler → Prop :=
| step_Register s now nm o e a : step s (Register s now nm o e a).1
| step_Trigger s now nm : step s (Trigger s now nm).1
| step_taskExit s nm : step s (taskExit s nm)
| step_Close s : step s (Close s).1.

Definition reachable_from (s0 : Scheduler) : Scheduler → Prop := rtc step s0.

Definition reachable (s : Scheduler) : Prop :=
  ∃ m, reachable_from (NewScheduler m) s.

(** A closed scheduler holds no task. *)
Definition closed_inv (s : Scheduler) : Prop :=
  closed s = true → tasks s = ∅.

End WithCron.

Arguments Register {_ _ _ _} Parse s now nm options expr act.
Arguments Trigger {_ _} s now nm.
Arguments taskExit {_ _} s nm.
Arguments Close {_ _} s.
Arguments Closed {_ _} s.
Arguments closeLoop {_ _} m visit.
Arguments NewScheduler {_ _} clockIsMock.
Arguments tasks {_ _} s.
Arguments isMock {_ _} s.
Arguments closed {_ _} s.
Arguments closed_inv {_ _} s.
Arguments name {_ _} t.
Arguments clock {_ _} t.
Arguments step {_ _ _ _} Parse _ _.
Arguments step_Register {_ _ _ _} Parse s now nm o e a.
Arguments step_Trigger {_ _ _ _} Parse s now nm.
Arguments step_taskExit {_ _ _ _} Parse s nm.
Arguments step_Close {_ _ _ _} Parse s.
Arguments reachable_from {_ _ _ _} Parse s0 _.
Arguments reachable {_ _ _ _} Parse s.

End Scheduler.

(* ===================================================================== *)
(** * The stream write path: data *)
(* ===================================================================== *)

Module Stream.

Definition bytes : Type := list Byte.byte.

(** ** Protobuf messages *)

(** [modelv1.TagValue] and its oneof.  A wrapper of the oneof may hold a nil
    message ([None]); [TagValue_unset] is a value whose oneof is not set. *)
Inductive TagValue : Type :=
| TagValue_unset
| TagValue_Null
| TagValue_Str (s : option string)
| TagValue_StrArray (a : option (list string))
| TagValue_Int (i : option Z)
| TagValue_IntArray (a : option (list Z))
| TagValue_BinaryData (b : option bytes).

Definition GetStr (v : TagValue) : option string :=
  match v with TagValue_Str s => s | _ => None end.
Definition GetStrArray (v : TagValue) : option (list string) :=
  match v with TagValue_StrArray a => a | _ => None end.
Definition GetInt (v : TagValue) : option Z :=
  match v with TagValue_Int i => i | _ => None end.
Definition GetIntArray (v : TagValue) : option (list Z) :=
  match v with TagValue_IntArray a => a | _ => None end.
Definition GetBinaryData (v : TagValue) : option bytes :=
  match v with TagValue_BinaryData b => b | _ => None end.

(** [pbv1.NullTagValue] is a shared value whose oneof is [Null]; the code
    recognises it by its address, so a slot resolved to it is [None] and a
    value supplied by the request is [Some v]. *)
Definition NullTagValue : TagValue := TagValue_Null.

Record TagFamilyForWrite : Type := { Tags : list TagValue }.

Record Metadata : Type := { Group : string; Name : string }.

(** [Timestamp] is the element's time as [AsTime().Local().UnixNano()]
    reads it. *)
Record ElementValue : Type := {
  ElementId : string;
  Timestamp : Z;
  TagFamilies : list TagFamilyForWrite
}.

Record WriteRequest : Type := {
  RequestMetadata : Metadata;
  Element : ElementValue
}.

(** A request whose [Request], [Metadata] and [Element] are set.  In Go
    these are pointers: a message in which one of them is nil (what an
    empty payload unmarshals into, for one) makes [handle] dereference
    nil, and is not a value of this type.  Every statement about
    [handle] and [Rev] below is about requests that have these parts. *)
Record InternalWriteRequest : Type := {
  ShardId : Z;
  EntityValues : list TagValue;
  Request : WriteRequest
}.

(** ** Schema *)

Inductive TagType : Type :=
| TAG_TYPE_UNSPECIFIED
| TAG_TYPE_STRING
| TAG_TYPE_INT
| TAG_TYPE_STRING_ARRAY
| TAG_TYPE_INT_ARRAY
| TAG_TYPE_DATA_BINARY.

Record TagSpec : Type := {
  TagName : string;
  Type_ : TagType;
  IndexedOnly : bool
}.

Record TagFamilySpec : Type := {
  FamilyName : string;
  TagSpecs : list TagSpec
}.

Record StreamSchema : Type := { SchemaTagFamilies : list TagFamilySpec }.

Inductive IndexRuleType : Type :=
| TYPE_UNSPECIFIED
| TYPE_INVERTED
| TYPE_SKIPPING.

Record IndexRule : Type := {
  RuleId : Z;
  RuleType : IndexRuleType;
  Analyzer : string;
  NoSort : bool
}.

Record IndexRuleLocator : Type := {
  EntitySet : gset string;
  TagFamilyTRule : list (gmap string IndexRule)
}.

Record indexSchema : Type := { indexRuleLocators : IndexRuleLocator }.

(** What [schemaRepo.loadStream] returns: the schema and the snapshot that
    [stm.indexSchema.Load()] reads. *)
Record stream : Type := {
  schema : StreamSchema;
  streamIndexSchema : indexSchema
}.

(** ** Stored values *)

Inductive ValueType : Type :=
| ValueTypeUnknown
| ValueTypeStr
| ValueTypeInt64
| ValueTypeFloat64
| ValueTypeBinaryData
| ValueTypeStrArr
| ValueTypeInt64Arr.

(** [tagValue]; a nil slice is [None]. *)
Record tagValue : Type := {
  tag : string;
  valueType : ValueType;
  value : option bytes;
  valueArr : option (list bytes);
  indexed : bool
}.

(** [tagValues]: the stored values of one tag family. *)
Record tagValues : Type := {
  familyTag : string;
  values : list tagValue
}.

Record FieldKey : Type := {
  IndexRuleID : Z;
  KeyAnalyzer : string;
  KeySeriesID : Z
}.

Inductive FieldTerm : Type :=
| IntTerm (v : Z)
| StringTerm (s : string)
| BytesTerm (b : bytes).

(** [index.Field] as [NewIntField], [NewStringField] and [NewBytesField]
    build it, with its [NoSort] flag. *)
Record Field : Type := {
  Key : FieldKey;
  Term : FieldTerm;
  FieldNoSort : bool
}.

(** [index.Document]. *)
Record Document : Type := {
  DocID : Z;
  DocEntityValues : bytes;
  Fields : list Field;
  DocTimestamp : Z
}.

(** ** Storage handles *)

Record TimeRange : Type := {
  Start : Z;
  End_ : Z;
  IncludeStart : bool;
  IncludeEnd : bool
}.

(** A [storage.Segment] handle: its identity and what [GetTimeRange]
    returns. *)
Record Segment : Type := {
  segID : Z;
  GetTimeRange : TimeRange
}.

(** Handles of a group's TSDB and of a [tsTable]. *)
Record TSDB : Type := { tsdbID : Z }.
Record tsTableRef : Type := { tableID : Z }.

(** ** The accumulator *)

Record elements : Type := {
  timestamps : list Z;
  elementIDs : list Z;
  seriesIDs : list Z;
  tagFamilies : list (list tagValues)
}.

(** [generateElements()] followed by [reset()]. *)
Definition emptyElements : elements :=
  {| timestamps := []; elementIDs := []; seriesIDs := []; tagFamilies := [] |}.

Record elementsInTable : Type := {
  timeRange : TimeRange;
  tsTable : tsTableRef;
  tableElements : elements;
  tableDocs : list Document
}.

Record elementsInGroup : Type := {
  tsdb : TSDB;
  tables : list elementsInTable;
  segments : list Segment;
  docs : list Document;
  docIDsAdded : gset Z;
  latestTS : Z
}.

(** ** Errors and statuses *)

Inductive Status : Type :=
| STATUS_UNSPECIFIED
| STATUS_SUCCEED
| STATUS_DISK_FULL.

(** [common.Error]. *)
Record Error : Type := { status : Status; msg : string }.

Definition NewErrorWithStatus (st : Status) (m : string) : Error :=
  {| status := st; msg := m |}.

(** The errors [handle] returns. *)
Inductive WriteError : Type :=
| ErrInvalidTimestamp
| ErrCannotLoadTSDB (gn : string)
| ErrCannotCreateSegment
| ErrCannotCreateTSTable
| ErrCannotFindStream (md : Metadata)
| ErrNoTagFamily
| ErrMoreTagFamilies
| ErrCannotMarshalSeries
| ErrMetadataCrashed (rules families : nat).

(** ** The trace *)

Inductive Level : Type := WarnLevel | ErrorLevel.

(** What is recorded of a run, each entry with its answer: the log lines,
    the probe of the disk, and the calls into the schema repository and
    the storage layer that load, create, write, release or tick.  What
    the write path only reads from its collaborators leaves no entry:
    [timestamp.Check], [TimeRange.Contains], [Segment.GetTimeRange],
    [convert.HashStr], [series.Marshal] and [proto.Unmarshal] are
    functions or fields of the model.  So the trace is not the list of
    all calls that leave the file. *)
Inductive Op : Type :=
| OpLog (lvl : Level) (m : string)
| OpGetPathUsedPercent (path : string) (percent : Z)
| OpLoadTSDB (gn : string) (res : option TSDB)
| OpCreateSegmentIfNotExist (db : TSDB) (ts : Z) (res : option Segment)
| OpCreateTSTableIfNotExist (seg : Segment) (shard : Z) (res : option tsTableRef)
| OpLoadStream (md : Metadata) (found : bool)
| OpMustAddElements (tb : tsTableRef) (es : elements)
| OpReleaseElements (es : elements)
| OpIndexWrite (tb : tsTableRef) (ds : list Document) (ok : bool)
| OpIndexDBInsert (seg : Segment) (ds : list Document) (ok : bool)
| OpDecRef (seg : Segment)
| OpTick (db : TSDB) (ts : Z).

Definition Trace : Type := list Op.

(** Decidable equality of handles, for counting in traces. *)
Global Instance TimeRange_eq_dec : EqDecision TimeRange.
Proof. solve_decision. Defined.
Global Instance Segment_eq_dec : EqDecision Segment.
Proof. solve_decision. Defined.
Global Instance TSDB_eq_dec : EqDecision TSDB.
Proof. solve_decision. Defined.
Global Instance tsTableRef_eq_dec : EqDecision tsTableRef.
Proof. solve_decision. Defined.

(** ** The collaborators of the write path

    Everything [write.go] calls outside of its own file.  The storage layer
    and the schema repository are stateful: their answers are functions of
    the calls made so far. *)
Record Env : Type := {
  (** [timestamp.Check]: [true] when it returns no error. *)
  Check : Z → bool;
  (** [TimeRange.Contains]. *)
  Contains : TimeRange → Z → bool;
  (** [convert.HashStr], [convert.Int64ToBytes], [convert.StringToBytes]. *)
  HashStr : string → Z;
  Int64ToBytes : Z → bytes;
  StringToBytes : string → bytes;
  (** [series.Marshal]: the buffer and the ID, or an error. *)
  Marshal : string → list TagValue → option (bytes * Z);
  (** [proto.Unmarshal] into an [InternalWriteRequest], for the payloads
      that give a request with its parts set. *)
  Unmarshal : bytes → option InternalWriteRequest;
  (** [observability.GetPathUsedPercent]. *)
  GetPathUsedPercent : Trace → string → Z;
  loadTSDB : Trace → string → option TSDB;
  loadStream : Trace → Metadata → option stream;
  CreateSegmentIfNotExist : Trace → TSDB → Z → option Segment;
  CreateTSTableIfNotExist : Trace → Segment → Z → option tsTableRef;
  (** [tsTable.Index().Write] and [segment.IndexDB().Insert]: [true] when
      they return no error. *)
  IndexWrite : Trace → tsTableRef → list Document → bool;
  IndexDBInsert : Trace → Segment → list Document → bool;
  (** The order in which [range] visits the entries of the accumulator. *)
  rangeGroups : gmap string elementsInGroup → list (string * elementsInGroup)
}.

(** Go's [range] over a map visits every entry once, in an order it does
    not specify. *)
Definition range_once (E : Env) : Prop :=
  ∀ m, rangeGroups E m ≡ₚ map_to_list m.

(* ===================================================================== *)
(** * The stream write path: operations *)
(* ===================================================================== *)

(** ** State, errors and panics

    A computation of the write path reads and extends the trace, writes to
    the [strings.Builder] that [Rev] owns, and ends with a value, with an
    error, or in a panic ([logger.Panicf], an index out of range). *)
Record State : Type := { trace : Trace; builder : string }.

Inductive outcome (A : Type) : Type :=
| Ok (a : A)
| Failed (e : WriteError)
| Panicked (m : string).
Arguments Ok {A} a.
Arguments Failed {A} e.
Arguments Panicked {A} m.

Global Instance outcome_ret : MRet outcome := λ A a, Ok a.
Global Instance outcome_bind : MBind outcome := λ A B f m,
  match m with
  | Ok a => f a
  | Failed e => Failed e
  | Panicked s => Panicked s
  end.

Definition M (A : Type) : Type := State → outcome A * State.

Global Instance M_ret : MRet M := λ A a st, (Ok a, st).
Global Instance M_bind : MBind M := λ A B f m st,
  match m st with
  | (Ok a, st') => f a st'
  | (Failed e, st') => (Failed e, st')
  | (Panicked s, st') => (Panicked s, st')
  end.

Definition lift {A : Type} (o : outcome A) : M A := λ st, (o, st).
Definition fail {A : Type} (e : WriteError) : M A := λ st, (Failed e, st).

Definition record (op : Op) (st : State) : State :=
  {| trace := trace st ++ [op]; builder := builder st |}.

Definition emit (op : Op) : M unit := λ st, (Ok (), record op st).

(** [strings.Builder]: [Reset], [WriteString], [WriteByte], [String]. *)
Definition builderReset : M unit :=
  λ st, (Ok (), {| trace := trace st; builder := EmptyString |}).
Definition builderWriteString (s : string) : M unit :=
  λ st, (Ok (), {| trace := trace st; builder := builder st +:+ s |}).
Definition builderWriteByte (c : ascii) : M unit :=
  λ st, (Ok (), {| trace := trace st; builder := builder st +:+ String c EmptyString |}).
Definition builderString : M string := λ st, (Ok (builder st), st).

(** [for _, x := range l { f(x) }]. *)
Fixpoint forEach {A : Type} (f : A → M unit) (l : list A) : M unit :=
  match l with
  | [] => mret ()
  | x :: rest => f x ;; forEach f rest
  end.

Record writeCallback : Type := {
  schemaRepoPath : string;
  maxDiskUsagePercent : Z
}.

Definition setUpWriteCallback (path : string) (maxDiskUsagePercent : Z)
    : writeCallback :=
  let maxDiskUsagePercent :=
    if 100 <? maxDiskUsagePercent then 100 else maxDiskUsagePercent in
  {| schemaRepoPath := path; maxDiskUsagePercent := maxDiskUsagePercent |}.

Definition readonlyMsg : string :=
  "stream is readonly because " +:+ String (ascii_of_nat 34) "stream-max-disk-usage-percent"
  +:+ String (ascii_of_nat 34) " is 0".

(** ** Tag values *)

Definition generateTagValue : tagValue :=
  {| tag := EmptyString; valueType := ValueTypeUnknown; value := None;
     valueArr := None; indexed := false |}.

Definition unsupportedTagType : string := "unsupported tag value type".

Section WithEnv.
Variable E : Env.

Definition encodeTagValue (name : string) (tagType : TagType)
    (tagVal : TagValue) : outcome tagValue :=
  let tv := generateTagValue in
  let tv (vt : ValueType) (v : option bytes) (arr : option (list bytes)) :=
    {| tag := name; valueType := vt; value := v; valueArr := arr;
       indexed := indexed tv |} in
  match tagType with
  | TAG_TYPE_INT =>
    Ok (tv ValueTypeInt64 (Int64ToBytes E <$> GetInt tagVal) None)
  | TAG_TYPE_STRING =>
    Ok (tv ValueTypeStr (StringToBytes E <$> GetStr tagVal) None)
  | TAG_TYPE_DATA_BINARY =>
    Ok (tv ValueTypeBinaryData (GetBinaryData tagVal) None)
  | TAG_TYPE_INT_ARRAY =>
    match GetIntArray tagVal with
    | None => Ok (tv ValueTypeInt64Arr None None)
    | Some a => Ok (tv ValueTypeInt64Arr None (Some (Int64ToBytes E <$> a)))
    end
  | TAG_TYPE_STRING_ARRAY =>
    match GetStrArray tagVal with
    | None => Ok (tv ValueTypeStrArr None None)
    | Some a => Ok (tv ValueTypeStrArr None (Some (list_byte_of_string <$> a)))
    end
  | TAG_TYPE_UNSPECIFIED => Panicked unsupportedTagType
  end.

Definition newField (fieldKey : FieldKey) (t : FieldTerm) (noSort : bool)
    : Field :=
  {| Key := fieldKey; Term := t; FieldNoSort := noSort |}.

Definition appendField (dest : list Field) (fieldKey : FieldKey)
    (tagType : TagType) (tagVal : TagValue) (noSort : bool)
    : outcome (list Field) :=
  match tagType with
  | TAG_TYPE_INT =>
    match GetInt tagVal with
    | None => Ok dest
    | Some v => Ok (dest ++ [newField fieldKey (IntTerm v) noSort])
    end
  | TAG_TYPE_STRING =>
    match GetStr tagVal with
    | None => Ok dest
    | Some v => Ok (dest ++ [newField fieldKey (StringTerm v) noSort])
    end
  | TAG_TYPE_DATA_BINARY =>
    match GetBinaryData tagVal with
    | None => Ok dest
    | Some v => Ok (dest ++ [newField fieldKey (BytesTerm v) noSort])
    end
  | TAG_TYPE_INT_ARRAY =>
    match GetIntArray tagVal with
    | None => Ok dest
    | Some a => Ok (dest ++ ((λ v, newField fieldKey (IntTerm v) noSort) <$> a))
    end
  | TAG_TYPE_STRING_ARRAY =>
    match GetStrArray tagVal with
    | None => Ok dest
    | Some a => Ok (dest ++ ((λ v, newField fieldKey (StringTerm v) noSort) <$> a))
    end
  | TAG_TYPE_UNSPECIFIED => Panicked unsupportedTagType
  end.

(** ** Admission *)

Definition callGetPathUsedPercent (path : string) : M Z := λ st,
  let p := GetPathUsedPercent E (trace st) path in
  (Ok p, record (OpGetPathUsedPercent path p) st).

Definition CheckHealth (w : writeCallback) : M (option Error) :=
  if maxDiskUsagePercent w <? 1 then
    mret (Some (NewErrorWithStatus STATUS_DISK_FULL readonlyMsg))
  else
    diskPercent ← callGetPathUsedPercent (schemaRepoPath w);
    if diskPercent <? maxDiskUsagePercent w then mret None
    else
      emit (OpLog WarnLevel "disk usage is too high, stop writing") ;;
      mret (Some (NewErrorWithStatus STATUS_DISK_FULL
                    "disk usage is too high, stop writing")).

(** ** Calls into the storage layer *)

Definition callLoadTSDB (gn : string) : M TSDB := λ st,
  let r := loadTSDB E (trace st) gn in
  (match r with Some db => Ok db | None => Failed (ErrCannotLoadTSDB gn) end,
   record (OpLoadTSDB gn r) st).

Definition callLoadStream (md : Metadata) : M stream := λ st,
  let r := loadStream E (trace st) md in
  (match r with Some stm => Ok stm | None => Failed (ErrCannotFindStream md) end,
   record (OpLoadStream md (bool_decide (is_Some r))) st).

Definition callCreateSegmentIfNotExist (db : TSDB) (ts : Z) : M Segment := λ st,
  let r := CreateSegmentIfNotExist E (trace st) db ts in
  (match r with Some seg => Ok seg | None => Failed ErrCannotCreateSegment end,
   record (OpCreateSegmentIfNotExist db ts r) st).

Definition callCreateTSTableIfNotExist (seg : Segment) (shardID : Z)
    : M tsTableRef := λ st,
  let r := CreateTSTableIfNotExist E (trace st) seg shardID in
  (match r with Some tb => Ok tb | None => Failed ErrCannotCreateTSTable end,
   record (OpCreateTSTableIfNotExist seg shardID r) st).

Definition callIndexWrite (tb : tsTableRef) (ds : list Document) : M bool := λ st,
  let ok := IndexWrite E (trace st) tb ds in
  (Ok ok, record (OpIndexWrite tb ds ok) st).

Definition callIndexDBInsert (seg : Segment) (ds : list Document) : M bool := λ st,
  let ok := IndexDBInsert E (trace st) seg ds in
  (Ok ok, record (OpIndexDBInsert seg ds ok) st).

(** ** The write batcher *)

Definition newElementsInGroup (db : TSDB) : elementsInGroup :=
  {| tsdb := db; tables := []; segments := []; docs := [];
     docIDsAdded := ∅; latestTS := 0 |}.

Definition setLatestTS (eg : elementsInGroup) (ts : Z) : elementsInGroup :=
  {| tsdb := tsdb eg; tables := tables eg; segments := segments eg;
     docs := docs eg; docIDsAdded := docIDsAdded eg; latestTS := ts |}.

Definition appendSegment (eg : elementsInGroup) (seg : Segment)
    : elementsInGroup :=
  {| tsdb := tsdb eg; tables := tables eg; segments := segments eg ++ [seg];
     docs := docs eg; docIDsAdded := docIDsAdded eg; latestTS := latestTS eg |}.

Definition setTables (eg : elementsInGroup) (ts : list elementsInTable)
    : elementsInGroup :=
  {| tsdb := tsdb eg; tables := ts; segments := segments eg;
     docs := docs eg; docIDsAdded := docIDsAdded eg; latestTS := latestTS eg |}.

Definition addSeriesDoc (eg : elementsInGroup) (d : Document)
    : elementsInGroup :=
  {| tsdb := tsdb eg; tables := tables eg; segments := segments eg;
     docs := docs eg ++ [d]; docIDsAdded := {[DocID d]} ∪ docIDsAdded eg;
     latestTS := latestTS eg |}.

(** The accumulator entry is a pointer: the entry returned is the one the
    map holds, so the map returned here carries the updated [latestTS]. *)
Definition prepareElementsInGroup (dst : gmap string elementsInGroup)
    (writeEvent : InternalWriteRequest) (ts : Z)
    : M (gmap string elementsInGroup * elementsInGroup) :=
  let gn := Group (RequestMetadata (Request writeEvent)) in
  db ← callLoadTSDB gn;
  let eg := match dst !! gn with
            | Some eg => eg
            | None => newElementsInGroup db
            end in
  let eg := if latestTS eg <? ts then setLatestTS eg ts else eg in
  mret (<[gn := eg]> dst, eg).

(** Returns the group with the table appended when a new one was made,
    and the position in [tables] of the table to write to. *)
Definition prepareElementsInTable (eg : elementsInGroup)
    (writeEvent : InternalWriteRequest) (ts : Z)
    : M (elementsInGroup * nat) :=
  match list_find (λ et, Contains E (timeRange et) ts = true) (tables eg) with
  | Some (i, _) => mret (eg, i)
  | None =>
    '(eg, segment) ←
      match list_find (λ seg, Contains E (GetTimeRange seg) ts = true)
                      (segments eg) with
      | Some (_, seg) => mret (eg, seg)
      | None =>
        segment ← callCreateSegmentIfNotExist (tsdb eg) ts;
        mret (appendSegment eg segment, segment)
      end;
    let shardID := ShardId writeEvent in
    tstb ← callCreateTSTableIfNotExist segment shardID;
    let et := {| timeRange := GetTimeRange segment; tsTable := tstb;
                 tableElements := emptyElements; tableDocs := [] |} in
    mret (setTables eg (tables eg ++ [et]), length (tables eg))
  end.

(** The value of slot [j] of the family supplied at this position:
    [None] stands for [pbv1.NullTagValue]. *)
Definition tagValueAt (tagFamily : option TagFamilyForWrite) (j : nat)
    : option TagValue :=
  match tagFamily with
  | None => None
  | Some tf => Tags tf !! j
  end.

(** The loop over the tag specs of one family, from position [j] on. *)
Fixpoint tagsLoop (tfr : gmap string IndexRule) (entitySet : gset string)
    (seriesID : Z) (tagFamily : option TagFamilyForWrite) (j : nat)
    (specs : list TagSpec) (fields : list Field) (vals : list tagValue)
    : outcome (list Field * list tagValue) :=
  match specs with
  | [] => Ok (fields, vals)
  | t :: rest =>
    let tagValue := tagValueAt tagFamily j in
    '(fields, indexed) ←
      match tfr !! TagName t, tagValue with
      | Some r, Some v =>
        match RuleType r with
        | TYPE_INVERTED =>
          fields ← appendField fields
            {| IndexRuleID := RuleId r; KeyAnalyzer := Analyzer r;
               KeySeriesID := seriesID |} (Type_ t) v (NoSort r);
          Ok (fields, false)
        | TYPE_SKIPPING => Ok (fields, true)
        | TYPE_UNSPECIFIED => Ok (fields, false)
        end
      | _, _ => Ok (fields, false)
      end;
    if IndexedOnly t || bool_decide (TagName t ∈ entitySet) then
      tagsLoop tfr entitySet seriesID tagFamily (S j) rest fields vals
    else
      tv ← encodeTagValue (TagName t) (Type_ t) (default NullTagValue tagValue);
      let tv := {| tag := tag tv; valueType := valueType tv; value := value tv;
                   valueArr := valueArr tv; indexed := indexed |} in
      tagsLoop tfr entitySet seriesID tagFamily (S j) rest fields (vals ++ [tv])
  end.

(** The loop over the tag families of the schema, from position [i] on. *)
Fixpoint familiesLoop (is_ : indexSchema) (seriesID : Z)
    (reqFamilies : list TagFamilyForWrite) (i : nat)
    (specs : list TagFamilySpec) (fields : list Field)
    (tagFamilies : list tagValues)
    : outcome (list Field * list tagValues) :=
  match specs with
  | [] => Ok (fields, tagFamilies)
  | tagFamilySpec :: rest =>
    let tagFamily := reqFamilies !! i in
    match TagFamilyTRule (indexRuleLocators is_) !! i with
    | None => Panicked "index out of range"
    | Some tfr =>
      '(fields, vals) ←
        tagsLoop tfr (EntitySet (indexRuleLocators is_)) seriesID tagFamily 0%nat
          (TagSpecs tagFamilySpec) fields [];
      let tf := {| familyTag := FamilyName tagFamilySpec; values := vals |} in
      let tagFamilies :=
        if (0 <? length vals)%nat then tagFamilies ++ [tf] else tagFamilies in
      familiesLoop is_ seriesID reqFamilies (S i) rest fields tagFamilies
    end
  end.

(** [et] is the table [prepareElementsInTable] chose inside [eg]; the
    updated table and group are returned.  The Go code appends to the
    columns of [et] as it goes; on an error the caller drops the whole
    accumulator, and the columns appended before the error with it. *)
Definition processElements (et : elementsInTable) (eg : elementsInGroup)
    (writeEvent : InternalWriteRequest) (ts : Z)
    : M (elementsInTable * elementsInGroup) :=
  let req := Request writeEvent in
  let timestamps' := timestamps (tableElements et) ++ [ts] in
  builderReset ;;
  builderWriteString (Name (RequestMetadata req)) ;;
  builderWriteByte "|"%char ;;
  builderWriteString (ElementId (Element req)) ;;
  docIDString ← builderString;
  let eID := HashStr E docIDString in
  let elementIDs' := elementIDs (tableElements et) ++ [eID] in
  stm ← callLoadStream (RequestMetadata req);
  let fLen := length (TagFamilies (Element req)) in
  if (fLen <? 1)%nat then fail ErrNoTagFamily
  else if (length (SchemaTagFamilies (schema stm)) <? fLen)%nat
  then fail ErrMoreTagFamilies
  else
  match Marshal E (Name (RequestMetadata req)) (EntityValues writeEvent) with
  | None => fail ErrCannotMarshalSeries
  | Some (seriesBuffer, seriesID) =>
    let seriesIDs' := seriesIDs (tableElements et) ++ [seriesID] in
    let is_ := streamIndexSchema stm in
    let nRules := length (TagFamilyTRule (indexRuleLocators is_)) in
    let nFamilies := length (SchemaTagFamilies (schema stm)) in
    if negb (nRules =? nFamilies)%nat
    then fail (ErrMetadataCrashed nRules nFamilies)
    else
      '(fields, tagFamilies') ←
        lift (familiesLoop is_ seriesID (TagFamilies (Element req)) 0%nat
                (SchemaTagFamilies (schema stm)) [] []);
      let et' :=
        {| timeRange := timeRange et; tsTable := tsTable et;
           tableElements :=
             {| timestamps := timestamps'; elementIDs := elementIDs';
                seriesIDs := seriesIDs';
                tagFamilies := tagFamilies (tableElements et) ++ [tagFamilies'] |};
           tableDocs := tableDocs et ++
             [{| DocID := eID; DocEntityValues := []; Fields := fields;
                 DocTimestamp := ts |}] |} in
      let docID := seriesID in
      let eg' :=
        if bool_decide (docID ∈ docIDsAdded eg) then eg
        else addSeriesDoc eg {| DocID := docID; DocEntityValues := seriesBuffer;
                                Fields := []; DocTimestamp := 0 |} in
      mret (et', eg')
  end.

(** [handle].  The table written to is the one at position [i] of the
    group's [tables], and the group is the entry of [dst]: the updates of
    [processElements] are stored back where the pointers lead.  Position
    [i] always holds a table (lemma [prepareElementsInTable_Ok]). *)
Definition handle (dst : gmap string elementsInGroup)
    (writeEvent : InternalWriteRequest)
    : M (gmap string elementsInGroup) :=
  let ts := Timestamp (Element (Request writeEvent)) in
  if negb (Check E ts) then fail ErrInvalidTimestamp
  else
    '(dst, eg) ← prepareElementsInGroup dst writeEvent ts;
    '(eg, i) ← prepareElementsInTable eg writeEvent ts;
    match tables eg !! i with
    | None => λ st, (Panicked "nil table", st)
    | Some et =>
      '(et, eg) ← processElements et eg writeEvent ts;
      let eg := setTables eg (<[i := et]> (tables eg)) in
      mret (<[Group (RequestMetadata (Request writeEvent)) := eg]> dst)
    end.

(** ** The write committer *)

(** One entry of the list [Rev] receives: a parsed event, a serialized
    one, or a value of another type. *)
Inductive event : Type :=
| EventRequest (e : InternalWriteRequest)
| EventBytes (b : bytes)
| EventOther.

(** [message.Data()]: a list of events or a value of another type. *)
Inductive messageData : Type :=
| DataEvents (events : list event)
| DataOther.

Definition cannotHandle : Op := OpLog ErrorLevel "cannot handle write event".

(** The call of [handle] in the loop of [Rev]: an error is logged and the
    accumulator is replaced by a new, empty map. *)
Definition handleOrReset (groups : gmap string elementsInGroup)
    (writeEvent : InternalWriteRequest)
    : M (gmap string elementsInGroup) := λ st,
  match handle groups writeEvent st with
  | (Ok groups', st') => (Ok groups', st')
  | (Failed _, st') => (Ok ∅, record cannotHandle st')
  | (Panicked m, st') => (Panicked m, st')
  end.

(** The body of the loop over the events. *)
Definition revStep (groups : gmap string elementsInGroup) (ev : event)
    : M (gmap string elementsInGroup) :=
  match ev with
  | EventRequest e => handleOrReset groups e
  | EventBytes b =>
    match Unmarshal E b with
    | None => emit (OpLog ErrorLevel "fail to unmarshal event") ;; mret groups
    | Some e => handleOrReset groups e
    end
  | EventOther => emit (OpLog WarnLevel "invalid event data type") ;; mret groups
  end.

Fixpoint revLoop (groups : gmap string elementsInGroup) (events : list event)
    : M (gmap string elementsInGroup) :=
  match events with
  | [] => mret groups
  | ev :: rest => groups ← revStep groups ev; revLoop groups rest
  end.

Definition flushTable (es : elementsInTable) : M unit :=
  emit (OpMustAddElements (tsTable es) (tableElements es)) ;;
  emit (OpReleaseElements (tableElements es)) ;;
  if (0 <? length (tableDocs es))%nat then
    callIndexWrite (tsTable es) (tableDocs es) ≫= λ ok : bool,
    if ok then mret () else emit (OpLog ErrorLevel "cannot write element index")
  else mret ().

Definition flushSegment (ds : list Document) (segment : Segment) : M unit :=
  callIndexDBInsert segment ds ≫= λ ok : bool,
  (if ok then mret () else emit (OpLog ErrorLevel "cannot write index")) ;;
  emit (OpDecRef segment).

Definition flushGroup (g : elementsInGroup) : M unit :=
  forEach flushTable (tables g) ;;
  (if (0 <? length (docs g))%nat
   then forEach (flushSegment (docs g)) (segments g)
   else mret ()) ;;
  emit (OpTick (tsdb g) (latestTS g)).

(** The second half of [Rev]: the loop over the accumulator. *)
Definition commit (groups : gmap string elementsInGroup)
    : M (option (gmap string elementsInGroup)) :=
  forEach (λ kg, flushGroup kg.2) (rangeGroups E groups) ;;
  mret (Some groups).

(** [Rev].  Go's result [resp] is always the zero message; the value
    returned here is the accumulator as it stands when [Rev] returns,
    [None] when [Rev] returned before making one. *)
Definition Rev (message : messageData)
    : M (option (gmap string elementsInGroup)) :=
  match message with
  | DataOther => emit (OpLog WarnLevel "invalid event data type") ;; mret None
  | DataEvents events =>
    if (length events <? 1)%nat then
      emit (OpLog WarnLevel "empty event") ;; mret None
    else
      builderReset ;;
      groups ← revLoop ∅ events;
      commit groups
  end.

(** The event [handle] is called with, if any. *)
Definition requestOf (ev : event) : option InternalWriteRequest :=
  match ev with
  | EventRequest e => Some e
  | EventBytes b => Unmarshal E b
  | EventOther => None
  end.

(** The operations a run of [Rev] adds to the trace. *)
Definition RevOps (message : messageData) (st : State) : Trace :=
  drop (length (trace st)) (trace (Rev message st).2).

End WithEnv.

(** ** Reading a trace *)

Definition extend (st : State) (ops : Trace) : State :=
  {| trace := trace st ++ ops; builder := builder st |}.

(** A computation that adds to the trace only operations that satisfy
    [P], and keeps what was there. *)
Definition adds (P : Op → Prop) {A : Type} (m : M A) : Prop :=
  ∀ st, ∃ ops, trace (m st).2 = trace st ++ ops ∧ Forall P ops.

(** The operations of the batcher: logs, and the calls that load or create
    a TSDB, a segment, a table or a stream. *)
Definition isBatchOp (op : Op) : Prop :=
  match op with
  | OpLog _ _ | OpLoadTSDB _ _ | OpCreateSegmentIfNotExist _ _ _
  | OpCreateTSTableIfNotExist _ _ _ | OpLoadStream _ _ => True
  | _ => False
  end.

(** The segments acquired ([CreateSegmentIfNotExist] returned them) and the
    segments released ([DecRef]), in order. *)
Definition acquiredOf (tr : Trace) : list Segment :=
  omap (λ op, match op with
              | OpCreateSegmentIfNotExist _ _ (Some seg) => Some seg
              | _ => None
              end) tr.

Definition decRefsOf (tr : Trace) : list Segment :=
  omap (λ op, match op with OpDecRef seg => Some seg | _ => None end) tr.

Definition insertsOf (tr : Trace) : list (Segment * list Document) :=
  omap (λ op, match op with
              | OpIndexDBInsert seg ds _ => Some (seg, ds)
              | _ => None
              end) tr.

Definition rowsOf (tr : Trace) : list (tsTableRef * elements) :=
  omap (λ op, match op with
              | OpMustAddElements tb es => Some (tb, es)
              | _ => None
              end) tr.

Definition ticksOf (tr : Trace) : list (TSDB * Z) :=
  omap (λ op, match op with OpTick db ts => Some (db, ts) | _ => None end) tr.

(** The calls of the batcher into the storage layer and the schema
    repository: no log line among them. *)
Definition isCallOp (op : Op) : Prop :=
  match op with
  | OpLoadTSDB _ _ | OpCreateSegmentIfNotExist _ _ _
  | OpCreateTSTableIfNotExist _ _ _ | OpLoadStream _ _ => True
  | _ => False
  end.

(** The segments the accumulator holds, entry by entry. *)
Definition heldSegments (groups : gmap string elementsInGroup) : list Segment :=
  concat ((λ kg, segments kg.2) <$> map_to_list groups).

(** What a piece of the flush adds: these rows, these inserts, these
    releases, and neither a [Tick] nor an acquisition. *)
Definition flushes (ops : Trace) (rows : list (tsTableRef * elements))
    (ins : list (Segment * list Document)) (decs : list Segment) : Prop :=
  rowsOf ops = rows ∧ insertsOf ops = ins ∧ decRefsOf ops = decs
  ∧ ticksOf ops = [] ∧ acquiredOf ops = [].

(** How often a series document with this ID is among the documents
    handed to [IndexDB().Insert]. *)
Definition docCount (docID : Z) (ds : list Document) : nat :=
  length (filter (λ d, DocID d = docID) ds).

Definition insertCount (docID : Z) (tr : Trace) : nat :=
  sum_list ((λ sd, docCount docID sd.2) <$> insertsOf tr).

Definition countOf `{EqDecision A} (x : A) (l : list A) : nat :=
  length (filter (λ y, y = x) l).

(** ** Reading an event *)

Definition groupOf (ev : InternalWriteRequest) : string :=
  Group (RequestMetadata (Request ev)).

(** The stream name, the character [|] and the element ID the client
    supplied. *)
Definition docIDString (ev : InternalWriteRequest) : string :=
  Name (RequestMetadata (Request ev)) +:+ "|"
  +:+ ElementId (Element (Request ev)).

(** ** Reading the accumulator *)

(** The timestamps of the events accumulated into a group: one per row of
    its tables. *)
Definition groupTimestamps (g : elementsInGroup) : list Z :=
  concat ((λ et, timestamps (tableElements et)) <$> tables g).

(** The maximum of a list of timestamps, [None] for the empty list. *)
Definition maxTimestamp (l : list Z) : option Z :=
  foldr (λ x acc, Some (from_option (Z.max x) x acc)) None l.

(** What the flush of one group adds to the trace: the rows of each table,
    the series documents into each segment held and its [DecRef], then one
    [Tick] at the very end. *)
Definition flushBlock (g : elementsInGroup) (block : Trace) : Prop :=
  ∃ body,
    block = body ++ [OpTick (tsdb g) (latestTS g)]
    ∧ ticksOf body = []
    ∧ acquiredOf block = []
    ∧ rowsOf body = (λ et, (tsTable et, tableElements et)) <$> tables g
    ∧ insertsOf body
      = (if docs g is [] then [] else (λ seg, (seg, docs g)) <$> segments g)
    ∧ decRefsOf body = (if docs g is [] then [] else segments g).

(** ** Admission *)

Definition isDiskFull (r : outcome (option Error)) : Prop :=
  ∃ e, r = Ok (Some e) ∧ status e = STATUS_DISK_FULL.

(** ** Stored tag values, declaratively *)

Definition valueTypeOf (t : TagType) : ValueType :=
  match t with
  | TAG_TYPE_UNSPECIFIED => ValueTypeUnknown
  | TAG_TYPE_STRING => ValueTypeStr
  | TAG_TYPE_INT => ValueTypeInt64
  | TAG_TYPE_STRING_ARRAY => ValueTypeStrArr
  | TAG_TYPE_INT_ARRAY => ValueTypeInt64Arr
  | TAG_TYPE_DATA_BINARY => ValueTypeBinaryData
  end.

Definition isStored (entitySet : gset string) (t : TagSpec) : bool :=
  negb (IndexedOnly t || bool_decide (TagName t ∈ entitySet)).

(** The tag specs of a family that are stored, each with its position in
    the family, counted from [j]. *)
Fixpoint storedSlots (entitySet : gset string) (j : nat) (specs : list TagSpec)
    : list (nat * TagSpec) :=
  match specs with
  | [] => []
  | t :: rest =>
    if isStored entitySet t then (j, t) :: storedSlots entitySet (S j) rest
    else storedSlots entitySet (S j) rest
  end.

Definition nullValue (t : TagSpec) : tagValue :=
  {| tag := TagName t; valueType := valueTypeOf (Type_ t); value := None;
     valueArr := None; indexed := false |}.

Definition withIndexed (tv : tagValue) (b : bool) : tagValue :=
  {| tag := tag tv; valueType := valueType tv; value := value tv;
     valueArr := valueArr tv; indexed := b |}.

(** Whether the value stored for slot [j] is marked as indexed: the tag has
    a skipping rule and the request supplies a value. *)
Definition indexedFlag (tfr : gmap string IndexRule)
    (tagFamily : option TagFamilyForWrite) (j : nat) (t : TagSpec) : bool :=
  match tfr !! TagName t, tagValueAt tagFamily j with
  | Some r, Some _ =>
    match RuleType r with TYPE_SKIPPING => true | _ => false end
  | _, _ => false
  end.

(** [tv] is the stored value of the slot [(j, t)]: the encoding of what the
    request supplies there, or of [NullTagValue]. *)
Definition slotValue (E : Env) (tfr : gmap string IndexRule)
    (tagFamily : option TagFamilyForWrite) (jt : nat * TagSpec)
    (tv : tagValue) : Prop :=
  ∃ tv0,
    encodeTagValue E (TagName jt.2) (Type_ jt.2)
      (default NullTagValue (tagValueAt tagFamily jt.1)) = Ok tv0
    ∧ tv = withIndexed tv0 (indexedFlag tfr tagFamily jt.1 jt.2).

(** [valss] holds, for each family of the schema, the values stored for
    an element whose request supplies the families [supplied]: one value
    per tag spec of the family that is neither an entity tag nor indexed
    only, in the order of the schema. *)
Definition familiesStored (E : Env) (stm : stream)
    (supplied : list TagFamilyForWrite) (valss : list (list tagValue)) : Prop :=
  let families := SchemaTagFamilies (schema stm) in
  let locator := indexRuleLocators (streamIndexSchema stm) in
  length valss = length families
  ∧ ∀ i spec vals,
      families !! i = Some spec → valss !! i = Some vals →
      (∃ tfr, Forall2 (slotValue E tfr (supplied !! i))
                (storedSlots (EntitySet locator) 0 (TagSpecs spec)) vals)
      ∧ length vals
        = (length (TagSpecs spec)
           - length (filter (λ t, isStored (EntitySet locator) t = false)
                       (TagSpecs spec)))%nat
      ∧ (∀ j t,
           TagSpecs spec !! j = Some t →
           IndexedOnly t = false → TagName t ∉ EntitySet locator →
           ∃ k tv,
             storedSlots (EntitySet locator) 0 (TagSpecs spec) !! k = Some (j, t)
             ∧ vals !! k = Some tv
             ∧ tag tv = TagName t ∧ valueType tv = valueTypeOf (Type_ t)
             ∧ (tagValueAt (supplied !! i) j = None → tv = nullValue t)).

(** The families that are materialised: those with a stored value. *)
Fixpoint materialise (specs : list TagFamilySpec) (valss : list (list tagValue))
    : list tagValues :=
  match specs, valss with
  | spec :: specs, vals :: valss =>
    if (0 <? length vals)%nat
    then {| familyTag := FamilyName spec; values := vals |} :: materialise specs valss
    else materialise specs valss
  | _, _ => []
  end.

(** ** Invariant of an accumulator entry *)

Record groupInv (g : elementsInGroup) : Prop := {
  inv_docs_NoDup : NoDup (DocID <$> docs g);
  inv_docIDsAdded : ∀ d, d ∈ docIDsAdded g ↔ d ∈ DocID <$> docs g;
  inv_docs_nonempty : docs g ≠ [];
  inv_rows_nonempty : groupTimestamps g ≠ [];
  inv_latestTS : latestTS g = foldr Z.max 0 (groupTimestamps g)
}.

End Stream.

(* ===================================================================== *)
(** * Concrete collaborators and inputs *)
(* ===================================================================== *)

Module Examples.
Import Stream.

(** A scheduler on a mock clock whose parser accepts every expression, with
    one task registered. *)
Definition parseAny (o : unit) (expr : string) : string + unit := inl expr.

Definition sched1 : Scheduler.Scheduler string unit :=
  (Scheduler.Register parseAny (Scheduler.NewScheduler true) 5 "gc" ()
     "@every 1s" ()).1.

Definition day : Z := 86400000000000.

(** Segments of one day, closed at the start and open at the end. *)
Definition dayRange (ts : Z) : TimeRange :=
  {| Start := ts / day * day; End_ := (ts / day + 1) * day;
     IncludeStart := true; IncludeEnd := false |}.

Definition contains (r : TimeRange) (ts : Z) : bool :=
  if ts =? Start r then IncludeStart r
  else if ts =? End_ r then IncludeEnd r
  else (Start r <=? ts) && (ts <=? End_ r).

(** A stream [svc] with one family of three tags: [id] is the entity,
    [trace] is only indexed, [x] is stored. *)
Definition svcSchema : stream :=
  {| schema := {| SchemaTagFamilies :=
       [{| FamilyName := "default";
           TagSpecs := [{| TagName := "id"; Type_ := TAG_TYPE_STRING; IndexedOnly := false |};
                        {| TagName := "trace"; Type_ := TAG_TYPE_STRING; IndexedOnly := true |};
                        {| TagName := "x"; Type_ := TAG_TYPE_STRING; IndexedOnly := false |};
                        {| TagName := "n"; Type_ := TAG_TYPE_INT; IndexedOnly := false |}] |}] |};
     streamIndexSchema := {| indexRuleLocators :=
       {| EntitySet := {["id"]};
          TagFamilyTRule :=
            [{["trace" := {| RuleId := 1; RuleType := TYPE_INVERTED;
                             Analyzer := EmptyString; NoSort := false |}]}] |} |} |}.

Definition sumBytes (s : string) : Z :=
  foldr (λ b acc, Z.of_N (Byte.to_N b) + 31 * acc) 7 (list_byte_of_string s).

(** Collaborators that never fail: the timestamp check accepts the times
    of millisecond precision, a TSDB has one segment per day, and every
    byte payload is garbage. *)
Definition env : Env :=
  {| Check := λ ts, ts mod 1000000 =? 0;
     Contains := contains;
     HashStr := λ s, sumBytes s mod 2 ^ 64;
     Int64ToBytes := λ _, [];
     StringToBytes := list_byte_of_string;
     Marshal := λ subject entity,
       Some (list_byte_of_string subject,
             (sumBytes subject + Z.of_nat (length entity)) mod 2 ^ 64);
     Unmarshal := λ _, None;
     GetPathUsedPercent := λ _ _, 50;
     loadTSDB := λ _ gn, Some {| tsdbID := sumBytes gn |};
     loadStream := λ _ md,
       if bool_decide (Name md = "svc") then Some svcSchema else None;
     CreateSegmentIfNotExist := λ _ _ ts,
       Some {| segID := ts / day; GetTimeRange := dayRange ts |};
     CreateTSTableIfNotExist := λ _ seg shard,
       Some {| tableID := segID seg * 1000 + shard |};
     IndexWrite := λ _ _ _, true;
     IndexDBInsert := λ _ _ _, true;
     rangeGroups := map_to_list |}.

Definition st0 : State := {| trace := []; builder := EmptyString |}.

(** An event for group [g], stream [name], element [eid] at time [ts] on
    shard 3. *)
Definition mkEvent (g name eid : string) (ts : Z)
    (families : list TagFamilyForWrite) : InternalWriteRequest :=
  {| ShardId := 3; EntityValues := [TagValue_Str (Some "i1")];
     Request := {| RequestMetadata := {| Group := g; Name := name |};
                   Element := {| ElementId := eid; Timestamp := ts;
                                 TagFamilies := families |} |} |}.

Definition fam1 : list TagFamilyForWrite :=
  [{| Tags := [TagValue_Str (Some "i1"); TagValue_Str (Some "t1");
               TagValue_Str (Some "v")] |}].

Definition t0 : Z := 1700000000000000000.

(** A well-formed event, an event without tag families (rejected by
    [processElements]), and an event one day later. *)
Definition ev1 : InternalWriteRequest := mkEvent "g" "svc" "e1" t0 fam1.
Definition evBad : InternalWriteRequest := mkEvent "g" "svc" "e2" t0 [].
Definition ev2 : InternalWriteRequest := mkEvent "g" "svc" "e3" (t0 + day) fam1.

Definition seg0 : Segment := {| segID := t0 / day; GetTimeRange := dayRange t0 |}.

(** An empty table of the first day, and a group that holds nothing. *)
Definition table0 : elementsInTable :=
  {| timeRange := dayRange t0; tsTable := {| tableID := 1 |};
     tableElements := emptyElements; tableDocs := [] |}.

Definition group0 : elementsInGroup := newElementsInGroup {| tsdbID := 1 |}.

(** An event one millisecond before the epoch. *)
Definition evOld : InternalWriteRequest := mkEvent "g" "svc" "e0" (-1000000) fam1.

(** The value a run ends with, or [d]. *)
Definition valueOr {A : Type} (d : A) (r : outcome A * State) : A :=
  match r.1 with Ok a => a | _ => d end.

End Examples.

(* ===================================================================== *)
(** * The stream write path: more readings of the accumulator and trace *)
(* ===================================================================== *)

Module StreamMore.
Import Stream.

(** The documents handed to [tsTable.Index().Write], in order. *)
Definition indexWritesOf (tr : Trace) : list (tsTableRef * list Document) :=
  omap (λ op, match op with
              | OpIndexWrite tb ds _ => Some (tb, ds)
              | _ => None
              end) tr.

(** The batches handed to the table and the batches given back to the
    pool: the calls of [mustAddElements] and [releaseElements], in
    order. *)
Definition poolOpsOf (tr : Trace) : Trace :=
  omap (λ op, match op with
              | OpMustAddElements _ _ | OpReleaseElements _ => Some op
              | _ => None
              end) tr.

(** The table [prepareElementsInTable] makes for a segment. *)
Definition newTable (seg : Segment) (tb : tsTableRef) : elementsInTable :=
  {| timeRange := GetTimeRange seg; tsTable := tb;
     tableElements := emptyElements; tableDocs := [] |}.

(** The four columns of a batch have one length. *)
Definition aligned (es : elements) : Prop :=
  length (elementIDs es) = length (timestamps es)
  ∧ length (seriesIDs es) = length (timestamps es)
  ∧ length (tagFamilies es) = length (timestamps es).

(** The index documents of a table go with its rows: same element IDs and
    same timestamps, in the same order. *)
Definition mirrors (ds : list Document) (es : elements) : Prop :=
  DocID <$> ds = elementIDs es ∧ DocTimestamp <$> ds = timestamps es.

Record tableInv (et : elementsInTable) : Prop := {
  inv_aligned : aligned (tableElements et);
  inv_mirrors : mirrors (tableDocs et) (tableElements et);
  inv_has_row : timestamps (tableElements et) ≠ []
}.

(** What the entries of the accumulator hold, entry by entry. *)
Definition collect {A : Type} (f : elementsInGroup → list A)
    (groups : gmap string elementsInGroup) : list A :=
  concat ((λ kg, f kg.2) <$> map_to_list groups).

(** The timestamps of all rows of the accumulator. *)
Definition allTimestamps (groups : gmap string elementsInGroup) : list Z :=
  collect groupTimestamps groups.

(** The timestamps of the events of a list that reach [handle]. *)
Definition handledTimestamps (E : Env) (events : list event) : list Z :=
  (λ e, Timestamp (Element (Request e))) <$> omap (requestOf E) events.

(** The contract of [CreateSegmentIfNotExist]: the segment returned for a
    time contains that time. *)
Definition segmentContract (E : Env) : Prop :=
  ∀ tr db ts seg,
    CreateSegmentIfNotExist E tr db ts = Some seg →
    Contains E (GetTimeRange seg) ts = true.

(** Routing inside a group: no segment is held twice, every table has the
    time range of a segment held, and the rows of a table lie in its
    range. *)
Record routed (E : Env) (g : elementsInGroup) : Prop := {
  routed_segments : NoDup (segments g);
  routed_tables :
    Forall (λ et,
              (∃ seg, seg ∈ segments g ∧ timeRange et = GetTimeRange seg)
              ∧ Forall (λ ts, Contains E (timeRange et) ts = true)
                       (timestamps (tableElements et)))
           (tables g)
}.

(** Tables and segments of a group go in pairs: the table at a position
    has the time range of the segment at that position. *)
Definition paired (g : elementsInGroup) : Prop :=
  timeRange <$> tables g = GetTimeRange <$> segments g.

(** An index field made for the series [sid] from an inverted rule of the
    locator. *)
Definition fieldOfRule (loc : IndexRuleLocator) (sid : Z) (f : Field) : Prop :=
  KeySeriesID (Key f) = sid
  ∧ ∃ tfr tagName r,
      tfr ∈ TagFamilyTRule loc ∧ tfr !! tagName = Some r
      ∧ RuleType r = TYPE_INVERTED
      ∧ IndexRuleID (Key f) = RuleId r ∧ KeyAnalyzer (Key f) = Analyzer r
      ∧ FieldNoSort f = NoSort r.

(** The number of elements of the array a tag value carries for a tag
    type, [None] when it carries none. *)
Definition arrayLength (ty : TagType) (v : TagValue) : option nat :=
  match ty with
  | TAG_TYPE_INT_ARRAY => length <$> GetIntArray v
  | TAG_TYPE_STRING_ARRAY => length <$> GetStrArray v
  | _ => None
  end.

(** Whether a tag value carries a scalar of the tag type. *)
Definition hasScalar (ty : TagType) (v : TagValue) : bool :=
  match ty with
  | TAG_TYPE_INT => bool_decide (is_Some (GetInt v))
  | TAG_TYPE_STRING => bool_decide (is_Some (GetStr v))
  | TAG_TYPE_DATA_BINARY => bool_decide (is_Some (GetBinaryData v))
  | _ => false
  end.

End StreamMore.


(* ===================================================================== *)
(** * The scheduler: reading the registry *)
(* ===================================================================== *)

Module SchedulerMore.
Import Scheduler.

(** [time.Duration] is a signed 64-bit count of nanoseconds. *)
Definition maxDuration : Z := 2 ^ 63 - 1.
Definition minDuration : Z := - 2 ^ 63.

(** [Time.Sub]: the difference, or the largest (smallest) duration when
    the difference does not fit. *)
Definition Sub (t u : Z) : Z := Z.max minDuration (Z.min maxDuration (t - u)).

Section WithCron.
Variables (ParseOption Schedule ParseError Action : Type).
Variable Parse : ParseOption → string → Schedule + ParseError.
(** [cron.Schedule.Next]. *)
Variable Next : Schedule → Z → Z.

(** [t.clock.Now()]: a task on the scheduler's clock reads [shared], a
    task on a mock clock of its own reads the time it was last set to. *)
Definition clockNow (shared : Z) (t : task Schedule Action) : Z :=
  match clock t with
  | SharedClock => shared
  | OwnMockClock now => now
  end.

(** [Interval]: [None] stands for the result [exist = false]. *)
Definition Interval (s : Scheduler Schedule Action) (shared : Z) (nm : string)
    : option (Z * Z) :=
  match tasks s !! nm with
  | None => None
  | Some t =>
    let t1 := Next (schedule _ _ t) (clockNow shared t) in
    let t2 := Next (schedule _ _ t) t1 in
    Some (Sub t2 t1, t1)
  end.

(** Every task is stored under its own name, and runs on a mock clock of
    its own exactly when the scheduler was made with a mock clock: the
    type assertion [t.clock.(MockClock)] of [Trigger] holds. *)
Definition tasks_inv (s : Scheduler Schedule Action) : Prop :=
  ∀ nm t,
    tasks s !! nm = Some t →
    name t = nm
    ∧ (isMock s = true → ∃ now, clock t = OwnMockClock now)
    ∧ (isMock s = false → clock t = SharedClock).

End WithCron.

Arguments clockNow {_ _} shared t.
Arguments Interval {_ _} Next s shared nm.
Arguments tasks_inv {_ _} s.

End SchedulerMore.


(* ===================================================================== *)
(** * The goroutine of a task *)
(* ===================================================================== *)

Module TaskRun.
Import SchedulerMore.

(** [SchedulerMetrics]: six [atomic.Uint64] and one [atomic.Int64]. *)
Record SchedulerMetrics : Type := mkMetrics {
  TotalJobsStarted : Z;
  TotalJobsFinished : Z;
  TotalTasksStarted : Z;
  TotalTasksFinished : Z;
  TotalTasksPanic : Z;
  TotalTasksTimeout : Z;
  TotalTaskLatencyInNanoseconds : Z
}.

(** [&SchedulerMetrics{}], the metrics of a task made by [newTask]. *)
Definition zeroMetrics : SchedulerMetrics := mkMetrics 0 0 0 0 0 0 0.

(** [atomic.Uint64.Add] and [atomic.Int64.Add]: the sum wraps around. *)
Definition addUint64 (x delta : Z) : Z := (x + delta) mod 2 ^ 64.
Definition addInt64 (x delta : Z) : Z :=
  (x + delta + 2 ^ 63) mod 2 ^ 64 - 2 ^ 63.


Definition jobStarted (m : SchedulerMetrics) : SchedulerMetrics :=
  mkMetrics (addUint64 (TotalJobsStarted m) 1) (TotalJobsFinished m)
    (TotalTasksStarted m) (TotalTasksFinished m) (TotalTasksPanic m)
    (TotalTasksTimeout m) (TotalTaskLatencyInNanoseconds m).

Definition jobFinished (m : SchedulerMetrics) : SchedulerMetrics :=
  mkMetrics (TotalJobsStarted m) (addUint64 (TotalJobsFinished m) 1)
    (TotalTasksStarted m) (TotalTasksFinished m) (TotalTasksPanic m)
    (TotalTasksTimeout m) (TotalTaskLatencyInNanoseconds m).

Definition taskStarted (m : SchedulerMetrics) : SchedulerMetrics :=
  mkMetrics (TotalJobsStarted m) (TotalJobsFinished m)
    (addUint64 (TotalTasksStarted m) 1) (TotalTasksFinished m)
    (TotalTasksPanic m) (TotalTasksTimeout m)
    (TotalTaskLatencyInNanoseconds m).

Definition taskFinished (m : SchedulerMetrics) (elapsed : Z)
    : SchedulerMetrics :=
  mkMetrics (TotalJobsStarted m) (TotalJobsFinished m)
    (TotalTasksStarted m) (addUint64 (TotalTasksFinished m) 1)
    (TotalTasksPanic m) (TotalTasksTimeout m)
    (addInt64 (TotalTaskLatencyInNanoseconds m) elapsed).

Definition taskPanic (m : SchedulerMetrics) : SchedulerMetrics :=
  mkMetrics (TotalJobsStarted m) (TotalJobsFinished m)
    (TotalTasksStarted m) (TotalTasksFinished m)
    (addUint64 (TotalTasksPanic m) 1) (TotalTasksTimeout m)
    (TotalTaskLatencyInNanoseconds m).

Definition taskTimeout (m : SchedulerMetrics) : SchedulerMetrics :=
  mkMetrics (TotalJobsStarted m) (TotalJobsFinished m)
    (TotalTasksStarted m) (TotalTasksFinished m)
    (TotalTasksPanic m) (addUint64 (TotalTasksTimeout m) 1)
    (TotalTaskLatencyInNanoseconds m).

(** [5 * time.Minute], in nanoseconds. *)
Definition fiveMinutes : Z := 5 * 60 * 1000000000.

(** The calls of [t.clock.Timer], by their place in [run]: the timer of a
    turn of the loop, with its duration, and the timer of five minutes
    that bounds the action. *)
Inductive timerCall : Type :=
| WaitTimer (d : Z)
| TimeoutTimer.

Global Instance timerCall_eq_dec : EqDecision timerCall.
Proof. solve_decision. Defined.

Definition timerDuration (c : timerCall) : Z :=
  match c with
  | WaitTimer d => d
  | TimeoutTimer => fiveMinutes
  end.

(** What happens once the timer has fired.  The action runs in a
    goroutine of its own while the function literal waits for its result
    or for the five minutes to pass:
    - the result arrives;
    - the five minutes pass first;
    - the action panics: no [recover] is deferred in its goroutine (that
      of the function literal is in another one), so the process dies;
      the same holds when an action left running by an earlier timeout
      panics while the function literal waits;
    - a panic unwinds the function literal itself and is recovered by
      its deferred function, before ([armed = false]) or after the timer
      of five minutes was asked for. *)
Inductive fired : Type :=
| ActionReturned (result : bool)
| ActionTimedOut
| ActionPanicked
| PanicRecovered (armed : bool).

(** What wakes the [select] of the loop: the timer, with the time it
    delivers, what follows and the time [time.Since(start)] measures;
    the closer; or the panic of an action left running by an earlier
    timeout, with which the process dies. *)
Inductive wake : Type :=
| TimerFired (now : Z) (f : fired) (elapsed : Z)
| CloseNotified
| AbandonedActionPanicked.

(** [run] has returned, waits in a [select], or the process has died
    under it (no deferred function of [run] is run then). *)
Inductive status : Type := Returned | Blocked | Died.

(** The function literal called when the timer fires.  Its result is
    negated by the caller; [None] when the process died before it
    returned.  The deferred function runs last: it counts the task as
    finished, adds the latency, and after a panic it recovered sets the
    result to [true].  The third component lists the timers asked
    for. *)
Definition fire (m : SchedulerMetrics) (f : fired) (elapsed : Z)
    : option bool * SchedulerMetrics * list timerCall :=
  let m := taskStarted m in
  match f with
  | ActionReturned result =>
    (Some result, taskFinished m elapsed, [TimeoutTimer])
  | ActionTimedOut =>
    (Some true, taskFinished (taskTimeout m) elapsed, [TimeoutTimer])
  | ActionPanicked => (None, m, [TimeoutTimer])
  | PanicRecovered armed =>
    (Some true, taskPanic (taskFinished m elapsed),
     if armed then [TimeoutTimer] else [])
  end.

Section WithSchedule.
Variable Schedule : Type.
Variable Next : Schedule → Z → Z.
Variable sch : Schedule.

(** The loop of [run] from the time [now], fed with what wakes it; the
    calls of [t.clock.Timer] are collected in order.  [t.schedule.Next]
    and [t.clock.Timer] are taken to return. *)
Fixpoint loop (now : Z) (ws : list wake) (m : SchedulerMetrics)
    (timers : list timerCall) : status * SchedulerMetrics * list timerCall :=
  let next := Next sch now in
  let d := Sub next now in
  let timers := timers ++ [WaitTimer d] in
  match ws with
  | [] => (Blocked, m, timers)
  | TimerFired now f elapsed :: ws =>
    let '(ret, m, asked) := fire m f elapsed in
    let timers := timers ++ asked in
    match ret with
    | None => (Died, m, timers)
    | Some ret =>
      if negb ret then (Returned, m, timers)
      else loop now ws m timers
    end
  | CloseNotified :: _ => (Returned, m, timers)
  | AbandonedActionPanicked :: _ => (Died, m, timers)
  end.

(** [run]; [added] is the answer of [t.closer.AddRunning()] and [now]
    the reading of [t.clock.Now()].  The deferred
    [TotalJobsFinished.Add(1)] runs when [run] returns. *)
Definition run (added : bool) (now : Z) (ws : list wake)
    (m : SchedulerMetrics) : status * SchedulerMetrics * list timerCall :=
  if negb added then (Returned, m, [])
  else
    let m := jobStarted m in
    let '(st, m, timers) := loop now ws m [] in
    match st with
    | Returned => (Returned, jobFinished m, timers)
    | _ => (st, m, timers)
    end.

End WithSchedule.

Arguments loop {_} Next sch now ws m timers.
Arguments run {_} Next sch added now ws m.

(** How a wake ends the task, if it does: [run] returns after the closer
    and after an action that answers [false]; the process dies with the
    panic of an action. *)
Definition outcomeOf (w : wake) : option status :=
  match w with
  | CloseNotified => Some Returned
  | TimerFired _ (ActionReturned false) _ => Some Returned
  | TimerFired _ ActionPanicked _ => Some Died
  | AbandonedActionPanicked => Some Died
  | TimerFired _ _ _ => None
  end.

Definition ends (w : wake) : bool :=
  match outcomeOf w with Some _ => true | None => false end.

(** The wakes [run] gets to see: those up to the first that ends it. *)
Fixpoint seen (ws : list wake) : list wake :=
  match ws with
  | [] => []
  | w :: ws => if ends w then [w] else w :: seen ws
  end.






(** A firing in which the timer of five minutes was asked for. *)
Definition armsTimeout (w : wake) : bool :=
  match w with
  | TimerFired _ (PanicRecovered false) _ => false
  | TimerFired _ _ _ => true
  | _ => false
  end.

(** The number of wakes of a kind among those [run] gets to see. *)
Definition count (p : wake → bool) (ws : list wake) : Z :=
  Z.of_nat (length (filter (λ w, p w = true) (seen ws))).

(** The times the timers deliver to a loop that goes on. *)
Definition delivered (ws : list wake) : list Z :=
  omap (λ w, match w with
             | TimerFired now _ _ => if ends w then None else Some now
             | _ => None
             end) (seen ws).

(** What one turn of the loop from the time [n] asks of the clock: its
    timer, and the timer of five minutes when the timer fired. *)
Definition turnOf {Schedule : Type} (Next : Schedule → Z → Z) (sch : Schedule)
    (n : Z) (calls : list timerCall) : Prop :=
  calls = [WaitTimer (Sub (Next sch n) n)]
  ∨ calls = [WaitTimer (Sub (Next sch n) n); TimeoutTimer].

End TaskRun.

(* ===================================================================== *)
(** * More example inputs *)
(* ===================================================================== *)

Module MoreExamples.
Import Stream Examples.

(** Two events of one series on two days, and what [Rev] accumulates from
    them. *)
Definition events12 : list event := [EventRequest ev1; EventRequest ev2].

Definition groups12 : gmap string elementsInGroup :=
  valueOr ∅ (revLoop env ∅ events12 st0).

(** The accumulator after the first event, and the first event again on
    another shard, as another element. *)
Definition dst1 : gmap string elementsInGroup :=
  valueOr ∅ (handle env ∅ ev1 st0).

Definition ev1OnShard9 : InternalWriteRequest :=
  {| ShardId := 9; EntityValues := EntityValues ev1;
     Request := {| RequestMetadata := RequestMetadata (Request ev1);
                   Element := {| ElementId := "e9"; Timestamp := t0;
                                 TagFamilies := fam1 |} |} |}.

(** An event whose time is not a whole number of milliseconds. *)
Definition evOdd : InternalWriteRequest := mkEvent "g" "svc" "e4" (t0 + 1) fam1.

(** A schedule that fires every second, whatever the expression. *)
Definition everySecond (sch : string) (t : Z) : Z := t + 1000000000.

(** Three firings of the timer, then the closer, then a firing that comes
    too late. *)
Definition wakes5 : list TaskRun.wake :=
  [TaskRun.TimerFired 10 (TaskRun.ActionReturned true) 3;
   TaskRun.TimerFired 20 TaskRun.ActionTimedOut 4;
   TaskRun.TimerFired 30 (TaskRun.PanicRecovered true) 5;
   TaskRun.CloseNotified;
   TaskRun.TimerFired 40 (TaskRun.ActionReturned true) 6].

(** Two firings; the action of the second panics. *)
Definition wakesPanic : list TaskRun.wake :=
  [TaskRun.TimerFired 10 (TaskRun.ActionReturned true) 3;
   TaskRun.TimerFired 20 TaskRun.ActionPanicked 0;
   TaskRun.CloseNotified].

End MoreExamples.

(* ===================================================================== *)
(** * Facts about the scheduler *)
(* ===================================================================== *)

Module SchedulerFacts.
Import Scheduler.

Section Facts.
Context {ParseOption Schedule ParseError Action : Type}.
Variable Parse : ParseOption → string → Schedule + ParseError.

Abbreviation Sched := (Scheduler Schedule Action).
Abbreviation task := (task Schedule Action).

Implicit Types (s : Sched) (m : gmap string task).

Lemma closeLoop_lookup (visit : list (string * task)) m k :
  (closeLoop m visit).1 !! k
  = if decide (k ∈ visit.*1) then None else m !! k.
Proof.
  unfold closeLoop.
  assert (∀ l, (foldl (λ acc kt, (delete kt.1 acc.1, acc.2 ++ [kt.1]))
                  (m, l) visit).1 !! k
               = if decide (k ∈ visit.*1) then None else m !! k) as H;
    [|by apply H].
  revert m. induction visit as [|[k' t] visit IH]; intros m l.
  - done.
  - rewrite fmap_cons. cbn [foldl fst snd]. rewrite IH.
    destruct (decide (k ∈ visit.*1)) as [Hin|Hin];
      destruct (decide (k ∈ k' :: visit.*1)) as [Hin'|Hin']; try done.
    + exfalso. apply Hin'. by right.
    + apply elem_of_cons in Hin' as [->|?]; [|done].
      apply lookup_delete_eq.
    + apply lookup_delete_ne. intros ->. apply Hin'. by left.
Qed.

Lemma closeLoop_closes (visit : list (string * task)) m :
  (closeLoop m visit).2 = visit.*1.
Proof.
  unfold closeLoop.
  assert (∀ l, (foldl (λ acc kt, (delete kt.1 acc.1, acc.2 ++ [kt.1]))
                  (m, l) visit).2 = l ++ visit.*1) as H.
  { revert m. induction visit as [|[k t] visit IH]; intros m l; simpl.
    - by rewrite app_nil_r.
    - rewrite IH. by rewrite <- app_assoc. }
  by rewrite H.
Qed.

Lemma Close_tasks_empty s : tasks (Close s).1 = ∅.
Proof.
  apply map_eq; intros k. simpl. rewrite closeLoop_lookup, lookup_empty.
  case_decide as H; [done|].
  destruct (tasks s !! k) as [t|] eqn:E; [|done].
  exfalso; apply H. apply list_elem_of_fmap. exists (k, t); split; [done|].
  by apply elem_of_map_to_list.
Qed.

Lemma Register_closed s now nm o e a :
  closed s = true → Register Parse s now nm o e a = (s, Some ErrSchedulerClosed).
Proof. intros H. unfold Register. by rewrite H. Qed.

Lemma step_closed s s' : step Parse s s' → closed s = true → closed s' = true.
Proof.
  destruct 1; intros Hc; simpl; try done.
  - by rewrite Register_closed.
  - unfold Trigger. destruct (negb _); [done|]. by destruct (_ !! _).
Qed.

Lemma step_closed_inv s s' : step Parse s s' → closed_inv s → closed_inv s'.
Proof.
  destruct 1; intros Hi Hc.
  - unfold Register in *. destruct (closed s) eqn:E; [by apply Hi|].
    destruct (tasks s !! nm); [simpl in *; congruence|].
    destruct (Parse o e); simpl in *; congruence.
  - unfold Trigger in *. destruct (negb _); [by apply Hi|].
    destruct (tasks s !! nm) eqn:E; simpl in *; [|by apply Hi].
    rewrite (Hi Hc) in E. by rewrite lookup_empty in E.
  - simpl in *. rewrite (Hi Hc). apply delete_empty.
  - apply Close_tasks_empty.
Qed.

Lemma reachable_from_closed s s' :
  reachable_from Parse s s' → closed s = true → closed s' = true.
Proof. induction 1; eauto using step_closed. Qed.

Lemma reachable_closed_inv s : reachable Parse s → closed_inv s.
Proof.
  intros [m H]. unfold reachable_from in H.
  apply rtc_ind_r with (x := NewScheduler m) (P := closed_inv) in H; try done.
  intros y z _ Hst Hy. eauto using step_closed_inv.
Qed.

(** C7.  In every state the scheduler can reach: [Register] of a name
    that is in the registry returns the Duplicate error and leaves the
    scheduler as it is; after [Close], whatever happens next, [Register]
    returns the Closed error; a [Register] that returns no error has put
    the task under its name into the registry; and [Close] leaves the
    registry empty, having closed every task that was in it. *)
Theorem Register_Close_contract s :
  reachable Parse s →
  (∀ nm now o e a,
     is_Some (tasks s !! nm) →
     Register Parse s now nm o e a = (s, Some (ErrTaskDuplicated nm)))
  ∧ (∀ s' nm now o e a,
       reachable_from Parse (Close s).1 s' →
       Register Parse s' now nm o e a = (s', Some ErrSchedulerClosed))
  ∧ (∀ nm now o e a,
       (Register Parse s now nm o e a).2 = None →
       ∃ t, tasks (Register Parse s now nm o e a).1 !! nm = Some t
            ∧ name t = nm
            ∧ dom (tasks (Register Parse s now nm o e a).1) = {[nm]} ∪ dom (tasks s))
  ∧ tasks (Close s).1 = ∅
  ∧ closed (Close s).1 = true
  ∧ (Close s).2 ≡ₚ (map_to_list (tasks s)).*1.
Proof.
  intros Hr. pose proof (reachable_closed_inv s Hr) as Hinv.
  repeat split.
  - intros nm now o e a [t Ht]. unfold Register.
    destruct (closed s) eqn:Hc.
    + rewrite (Hinv Hc) in Ht. by rewrite lookup_empty in Ht.
    + by rewrite Ht.
  - intros s' nm now o e a Hs'. apply Register_closed.
    by eapply reachable_from_closed.
  - intros nm now o e a. unfold Register.
    destruct (closed s); [done|]. destruct (tasks s !! nm); [done|].
    destruct (Parse o e) as [sch|err]; [|done]. simpl. intros _.
    eexists. rewrite lookup_insert_eq. split; [done|]. split; [done|].
    by rewrite dom_insert_L.
  - apply Close_tasks_empty.
  - simpl. by rewrite closeLoop_closes.
Qed.

(** C10.  On a closed scheduler [Register] returns the Closed error and
    not the Duplicate error, for every name: the closed flag is tested
    first, so the answer is the same whether or not the name is, or ever
    was, in the registry. *)
Theorem Register_closed_before_duplicate s nm now o e a :
  closed s = true →
  Register Parse s now nm o e a = (s, Some ErrSchedulerClosed)
  ∧ (Register Parse s now nm o e a).2 ≠ Some (ErrTaskDuplicated nm).
Proof. intros Hc. by rewrite Register_closed. Qed.

End Facts.

Import Examples.

Lemma sched1_reachable : reachable parseAny sched1.
Proof. exists true. apply rtc_once. apply step_Register. Defined.

Lemma Register_Close_contract_witness :
  Register parseAny sched1 6 "gc" () "@every 2s" ()
    = (sched1, Some (ErrTaskDuplicated "gc"))
  ∧ Register parseAny (Close sched1).1 7 "gc" () "@every 1s" ()
    = ((Close sched1).1, Some ErrSchedulerClosed)
  ∧ tasks (Close sched1).1 = ∅.
Proof.
  destruct (Register_Close_contract parseAny sched1 sched1_reachable)
    as (Hdup & Hclosed & _ & Hempty & _).
  split; [|split].
  - apply Hdup. eexists. vm_compute. reflexivity.
  - apply Hclosed. apply rtc_refl.
  - exact Hempty.
Defined.

Lemma Register_closed_before_duplicate_witness :
  Register parseAny (Close sched1).1 7 "gc" () "@every 1s" ()
    = ((Close sched1).1, Some ErrSchedulerClosed)
  ∧ Register parseAny sched1 6 "gc" () "@every 1s" ()
    = (sched1, Some (ErrTaskDuplicated "gc")).
Proof.
  split.
  - apply (Register_closed_before_duplicate parseAny (Close sched1).1
             "gc" 7 () "@every 1s" ()). reflexivity.
  - reflexivity.
Defined.

End SchedulerFacts.

(* ===================================================================== *)
(** * Facts about the stream write path *)
(* ===================================================================== *)

Module StreamFacts.
Import Stream.

(** ** The monad *)

Lemma M_bind_unfold {A B} (m : M A) (f : A → M B) st :
  (m ≫= f) st
  = match m st with
    | (Ok a, st') => f a st'
    | (Failed e, st') => (Failed e, st')
    | (Panicked s, st') => (Panicked s, st')
    end.
Proof. reflexivity. Qed.

(** Runs the binds and returns at the head of a computation. *)
Ltac mrun :=
  repeat (first [ rewrite M_bind_unfold | progress (unfold mret, M_ret) ];
          simpl).

Lemma drop_trace_app (tr ops : Trace) : drop (length tr) (tr ++ ops) = ops.
Proof. by rewrite drop_app_length. Qed.

(** ** Admission *)

Section Admission.
Variable E : Env.


End Admission.

Import Examples.


(** ** [Rev]: the loop over the events *)

Section RevLoop.
Variable E : Env.

Lemma revLoop_cons groups ev rest st groups' st' :
  revStep E groups ev st = (Ok groups', st') →
  revLoop E groups (ev :: rest) st = revLoop E groups' rest st'.
Proof. intros H. simpl. rewrite M_bind_unfold. by rewrite H. Qed.

Lemma revLoop_app groups pre post st groups' st' :
  revLoop E groups pre st = (Ok groups', st') →
  revLoop E groups (pre ++ post) st = revLoop E groups' post st'.
Proof.
  revert groups st. induction pre as [|ev pre IH]; intros groups st; simpl.
  - by intros [= -> ->].
  - rewrite !M_bind_unfold.
    destruct (revStep E groups ev st) as [[g1|e|s] st1]; try done.
    apply IH.
Qed.

Lemma revStep_failed groups ev e st err st' :
  requestOf E ev = Some e →
  handle E groups e st = (Failed err, st') →
  revStep E groups ev st = (Ok ∅, record cannotHandle st').
Proof.
  intros He Hh. destruct ev as [e'|b|]; simpl in *.
  - injection He as ->. unfold handleOrReset. by rewrite Hh.
  - rewrite He. unfold handleOrReset. by rewrite Hh.
  - done.
Qed.

(** C8.  When the data of the message is not a list, or is an empty
    list, [Rev] returns after one warning: nothing but that log line is
    added to the trace (no call of the storage layer), the builder is not
    touched, and no accumulator has been made. *)
Theorem Rev_without_events (st : State) :
  Rev E DataOther st
    = (Ok None, record (OpLog WarnLevel "invalid event data type") st)
  ∧ Rev E (DataEvents []) st
    = (Ok None, record (OpLog WarnLevel "empty event") st)
  ∧ RevOps E DataOther st = [OpLog WarnLevel "invalid event data type"]
  ∧ RevOps E (DataEvents []) st = [OpLog WarnLevel "empty event"].
Proof.
  repeat split; unfold RevOps; simpl; by rewrite drop_trace_app.
Qed.

(** C4.  In the loop of [Rev]: a byte payload that does not unmarshal,
    and an event of another type, are logged and leave the accumulator as
    it is; an event for which [handle] returns an error is logged and
    leaves an empty accumulator; in each case the loop goes on with the
    next event.  Hence a run of [Rev] over events, one of which makes
    [handle] fail, commits what a run over the events after it
    accumulates from the empty map: the events before the error
    contribute nothing. *)
Theorem Rev_skips_and_resets :
  (∀ groups b st,
     Unmarshal E b = None →
     revStep E groups (EventBytes b) st
     = (Ok groups, record (OpLog ErrorLevel "fail to unmarshal event") st))
  ∧ (∀ groups st,
       revStep E groups EventOther st
       = (Ok groups, record (OpLog WarnLevel "invalid event data type") st))
  ∧ (∀ groups ev e st err st',
       requestOf E ev = Some e →
       handle E groups e st = (Failed err, st') →
       revStep E groups ev st = (Ok ∅, record cannotHandle st'))
  ∧ (∀ groups ev rest st groups' st',
       revStep E groups ev st = (Ok groups', st') →
       revLoop E groups (ev :: rest) st = revLoop E groups' rest st')
  ∧ (∀ pre ev post e st groups st1 err st2,
       revLoop E ∅ pre (builderReset st).2 = (Ok groups, st1) →
       requestOf E ev = Some e →
       handle E groups e st1 = (Failed err, st2) →
       Rev E (DataEvents (pre ++ ev :: post)) st
       = (revLoop E ∅ post ≫= commit E) (record cannotHandle st2)).
Proof.
  split; [|split; [|split; [|split]]].
  - intros groups b st Hb. simpl. by rewrite Hb.
  - done.
  - apply revStep_failed.
  - apply revLoop_cons.
  - intros pre ev post e st groups st1 err st2 Hpre He Hh.
    unfold Rev.
    replace (length (pre ++ ev :: post) <? 1)%nat with false
      by (rewrite length_app; simpl; symmetry; apply Nat.ltb_ge; lia).
    rewrite M_bind_unfold. simpl in *. rewrite !M_bind_unfold.
    rewrite (revLoop_app _ _ _ _ _ _ Hpre).
    by rewrite (revLoop_cons _ _ _ _ _ _ (revStep_failed _ _ _ _ _ _ He Hh)).
Qed.

End RevLoop.

(** ** What the batcher adds to the trace *)

Section Adds.
Context (P : Op → Prop).

Lemma adds_ret {A} (a : A) : adds P (mret a : M A).
Proof. intros st. exists []. by rewrite app_nil_r. Qed.

Lemma adds_fail {A} e : adds P (fail e : M A).
Proof. intros st. exists []. by rewrite app_nil_r. Qed.

Lemma adds_lift {A} (o : outcome A) : adds P (lift o).
Proof. intros st. exists []. by rewrite app_nil_r. Qed.

Lemma adds_pure {A} (m : M A) :
  (∀ st, trace (m st).2 = trace st) → adds P m.
Proof. intros H st. exists []. by rewrite app_nil_r. Qed.

Lemma adds_one {A} (m : M A) :
  (∀ st, ∃ op, trace (m st).2 = trace st ++ [op] ∧ P op) → adds P m.
Proof.
  intros H st. destruct (H st) as (op & Heq & Hop).
  exists [op]. split; [done|]. by apply Forall_singleton.
Qed.

Lemma adds_emit op : P op → adds P (emit op).
Proof. intros H. apply adds_one. intros st. by exists op. Qed.

Lemma adds_bind {A B} (m : M A) (f : A → M B) :
  adds P m → (∀ a, adds P (f a)) → adds P (m ≫= f).
Proof.
  intros Hm Hf st. rewrite M_bind_unfold.
  destruct (Hm st) as (ops & Heq & Hops).
  destruct (m st) as [[a|e|s] st1]; simpl in *; eauto.
  destruct (Hf a st1) as (ops' & Heq' & Hops').
  exists (ops ++ ops'). rewrite Heq', Heq, app_assoc. split; [done|].
  by apply Forall_app.
Qed.

Lemma adds_mono (Q : Op → Prop) {A} (m : M A) :
  (∀ op, P op → Q op) → adds P m → adds Q m.
Proof.
  intros HPQ Hm st. destruct (Hm st) as (ops & Heq & Hops).
  exists ops. split; [done|]. by eapply Forall_impl.
Qed.

Lemma adds_forEach {A} (f : A → M unit) l :
  (∀ x, adds P (f x)) → adds P (forEach f l).
Proof.
  intros Hf. induction l as [|x l IH]; simpl.
  - apply adds_ret.
  - apply adds_bind; [apply Hf|]. intros _. apply IH.
Qed.
End Adds.

Section Batch.
Variable E : Env.

Local Ltac adds_step :=
  first [ apply adds_ret | apply adds_fail | apply adds_lift
        | apply adds_bind; [|intros ?]
        | apply adds_pure; done
        | apply adds_one; intros ?; eexists; split; [reflexivity|done]
        | match goal with
          | |- adds _ (if ?b then _ else _) => destruct b
          | |- adds _ (match ?x with _ => _ end) => destruct x
          | |- adds _ (let '(_, _) := ?x in _) => destruct x
          end ].

Lemma adds_prepareElementsInGroup dst ev ts :
  adds isCallOp (prepareElementsInGroup E dst ev ts).
Proof. unfold prepareElementsInGroup. repeat adds_step. Qed.

Lemma adds_prepareElementsInTable eg ev ts :
  adds isCallOp (prepareElementsInTable E eg ev ts).
Proof. unfold prepareElementsInTable. repeat adds_step. Qed.

Lemma adds_processElements et eg ev ts :
  adds isCallOp (processElements E et eg ev ts).
Proof. unfold processElements. repeat adds_step. Qed.

Lemma adds_handle_calls dst ev : adds isCallOp (handle E dst ev).
Proof.
  unfold handle. destruct (negb _); [apply adds_fail|].
  apply adds_bind; [apply adds_prepareElementsInGroup|]. intros [dst1 eg].
  apply adds_bind; [apply adds_prepareElementsInTable|]. intros [eg1 i].
  destruct (tables eg1 !! i) as [et|]; [|by apply adds_pure].
  apply adds_bind; [apply adds_processElements|]. intros [et1 eg2].
  apply adds_ret.
Qed.

Lemma isCallOp_isBatchOp op : isCallOp op → isBatchOp op.
Proof. by destruct op. Qed.

Lemma adds_handle dst ev : adds isBatchOp (handle E dst ev).
Proof. eapply adds_mono; [apply isCallOp_isBatchOp|apply adds_handle_calls]. Qed.

Lemma adds_handleOrReset groups ev : adds isBatchOp (handleOrReset E groups ev).
Proof.
  intros st. unfold handleOrReset.
  destruct (adds_handle groups ev st) as (ops & Heq & Hops).
  destruct (handle E groups ev st) as [[g|e|s] st1]; simpl in *; eauto.
  exists (ops ++ [cannotHandle]). rewrite Heq, app_assoc. split; [done|].
  apply Forall_app. split; [done|]. by apply Forall_singleton.
Qed.

Lemma adds_revStep groups ev : adds isBatchOp (revStep E groups ev).
Proof.
  destruct ev as [e|b|]; simpl.
  - apply adds_handleOrReset.
  - destruct (Unmarshal E b); [apply adds_handleOrReset|].
    apply adds_bind; [by apply adds_emit|]. intros _. apply adds_ret.
  - apply adds_bind; [by apply adds_emit|]. intros _. apply adds_ret.
Qed.

Lemma adds_revLoop events groups : adds isBatchOp (revLoop E groups events).
Proof.
  revert groups. induction events as [|ev events IH]; intros groups; simpl.
  - apply adds_ret.
  - apply adds_bind; [apply adds_revStep|]. intros g. apply IH.
Qed.

Lemma batch_ops_projections ops :
  Forall isBatchOp ops →
  ticksOf ops = [] ∧ insertsOf ops = [] ∧ decRefsOf ops = [] ∧ rowsOf ops = [].
Proof.
  induction 1 as [|op ops Hop _ IH]; [done|].
  destruct IH as (? & ? & ? & ?).
  unfold ticksOf, insertsOf, decRefsOf, rowsOf in *.
  destruct op; simpl in *; try done.
Qed.

End Batch.

(** ** The flush *)

Lemma extend_nil st : extend st [] = st.
Proof. destruct st. unfold extend. simpl. by rewrite app_nil_r. Qed.

Lemma extend_extend st a b : extend (extend st a) b = extend st (a ++ b).
Proof. unfold extend. simpl. by rewrite app_assoc. Qed.

Lemma record_extend op st : record op st = extend st [op].
Proof. done. Qed.

Lemma flushes_app a b r1 i1 d1 r2 i2 d2 :
  flushes a r1 i1 d1 → flushes b r2 i2 d2 →
  flushes (a ++ b) (r1 ++ r2) (i1 ++ i2) (d1 ++ d2).
Proof.
  unfold flushes, rowsOf, insertsOf, decRefsOf, ticksOf, acquiredOf.
  intros (<- & <- & <- & Ht1 & Ha1) (<- & <- & <- & Ht2 & Ha2).
  rewrite !omap_app, Ht1, Ht2, Ha1, Ha2. done.
Qed.

Section Flush.
Variable E : Env.

Lemma forEach_spec {A} (f : A → M unit) (Q : A → Trace → Prop) :
  (∀ x st, ∃ ops, f x st = (Ok (), extend st ops) ∧ Q x ops) →
  ∀ l st, ∃ opss,
    forEach f l st = (Ok (), extend st (concat opss)) ∧ Forall2 Q l opss.
Proof.
  intros Hf. induction l as [|x l IH]; intros st; simpl.
  - exists []. simpl. by rewrite extend_nil.
  - rewrite M_bind_unfold. destruct (Hf x st) as (ops & -> & HQ).
    destruct (IH (extend st ops)) as (opss & -> & HF).
    exists (ops :: opss). simpl. rewrite extend_extend. split; [done|].
    by constructor.
Qed.

Lemma flushTable_spec es st :
  ∃ ops, flushTable E es st = (Ok (), extend st ops)
         ∧ flushes ops [(tsTable es, tableElements es)] [] [].
Proof.
  unfold flushTable. repeat (rewrite M_bind_unfold; simpl).
  destruct (0 <? length (tableDocs es))%nat.
  - repeat (rewrite M_bind_unfold; simpl). unfold callIndexWrite.
    destruct (IndexWrite E _ _ _) eqn:Hok; simpl; unfold emit, mret, M_ret;
      rewrite !record_extend, !extend_extend; eexists; (split; [reflexivity|]);
      done.
  - simpl. rewrite !record_extend, !extend_extend. eexists. split; [reflexivity|].
    done.
Qed.

Lemma flushSegment_spec ds seg st :
  ∃ ops, flushSegment E ds seg st = (Ok (), extend st ops)
         ∧ flushes ops [] [(seg, ds)] [seg].
Proof.
  unfold flushSegment. repeat (rewrite M_bind_unfold; simpl).
  unfold callIndexDBInsert.
  destruct (IndexDBInsert E _ _ _) eqn:Hok; simpl;
    repeat (rewrite M_bind_unfold; simpl); unfold emit, mret, M_ret;
    rewrite !record_extend, !extend_extend; eexists; (split; [reflexivity|]);
    done.
Qed.

Lemma flushes_concat {A} (l : list A) opss
    (r : A → list (tsTableRef * elements))
    (i : A → list (Segment * list Document)) (d : A → list Segment) :
  Forall2 (λ x ops, flushes ops (r x) (i x) (d x)) l opss →
  flushes (concat opss) (concat (r <$> l)) (concat (i <$> l)) (concat (d <$> l)).
Proof.
  induction 1 as [|x ops l opss H _ IH]; simpl; [done|].
  by apply flushes_app.
Qed.

Lemma concat_singletons {A B} (f : A → B) (l : list A) :
  concat ((λ x, [f x]) <$> l) = f <$> l.
Proof. induction l; simpl; by f_equal. Qed.

Lemma concat_nils {A B} (l : list A) :
  concat ((λ _, @nil B) <$> l) = [].
Proof. by induction l. Qed.

Lemma flushGroup_spec g st :
  ∃ block, flushGroup E g st = (Ok (), extend st block) ∧ flushBlock g block.
Proof.
  unfold flushGroup. rewrite M_bind_unfold.
  destruct (forEach_spec (flushTable E)
              (λ es ops, flushes ops [(tsTable es, tableElements es)] [] [])
              (flushTable_spec) (tables g) st) as (tops & -> & Ht).
  apply (flushes_concat _ _ (λ es, [(tsTable es, tableElements es)])
           (λ _, []) (λ _, [])) in Ht.
  rewrite concat_singletons, !concat_nils in Ht.
  cbn beta iota. rewrite M_bind_unfold.
  assert (∃ sops,
    (if (0 <? length (docs g))%nat
     then forEach (flushSegment E (docs g)) (segments g) else mret ())
      (extend st (concat tops)) = (Ok (), extend (extend st (concat tops)) sops)
    ∧ flushes sops []
        (if docs g is [] then [] else (λ seg, (seg, docs g)) <$> segments g)
        (if docs g is [] then [] else segments g)) as (sops & -> & Hs).
  { destruct (docs g) as [|d ds] eqn:Hd; simpl.
    - exists []. by rewrite extend_nil.
    - destruct (forEach_spec (flushSegment E (d :: ds))
                  (λ seg ops, flushes ops [] [(seg, d :: ds)] [seg])
                  (flushSegment_spec (d :: ds)) (segments g)
                  (extend st (concat tops))) as (sops & -> & Hs).
      exists (concat sops). split; [done|].
      apply (flushes_concat _ _ (λ _, []) (λ seg, [(seg, d :: ds)])
               (λ seg, [seg])) in Hs.
      rewrite concat_nils, !concat_singletons in Hs.
      by rewrite list_fmap_id in Hs. }
  cbn beta iota. unfold emit. rewrite record_extend, !extend_extend.
  eexists. split; [reflexivity|].
  pose proof (flushes_app _ _ _ _ _ _ _ _ Ht Hs) as (Hr & Hi & Hd & Htk & Ha).
  exists (concat tops ++ sops). rewrite app_nil_r in Hr. simpl in Hi, Hd.
  repeat split; try done.
  - by rewrite <- app_assoc.
  - rewrite app_assoc. unfold acquiredOf in *. by rewrite omap_app, Ha.
Qed.

Lemma commit_spec groups st :
  ∃ blocks,
    commit E groups st = (Ok (Some groups), extend st (concat blocks))
    ∧ Forall2 (λ kg block, flushBlock kg.2 block) (rangeGroups E groups) blocks.
Proof.
  unfold commit. rewrite M_bind_unfold.
  destruct (forEach_spec (λ kg, flushGroup E kg.2)
              (λ kg block, flushBlock kg.2 block)
              (λ kg, flushGroup_spec kg.2) (rangeGroups E groups) st)
    as (blocks & -> & HF).
  by exists blocks.
Qed.

End Flush.

(** ** The batcher, step by step *)

Lemma append_cons (x : ascii) (a b : string) :
  String x a +:+ b = String x (a +:+ b).
Proof. reflexivity. Qed.

Lemma append_assoc (a b c : string) : (a +:+ b) +:+ c = a +:+ (b +:+ c).
Proof.
  induction a as [|x a IH]; [done|]. rewrite !append_cons. by rewrite IH.
Qed.

Lemma foldr_max_nonneg (l : list Z) : 0 ≤ foldr Z.max 0 l.
Proof. induction l; simpl; lia. Qed.

Lemma foldr_max_app (a b : list Z) :
  foldr Z.max 0 (a ++ b) = Z.max (foldr Z.max 0 a) (foldr Z.max 0 b).
Proof.
  pose proof (foldr_max_nonneg b).
  induction a as [|x a IH]; simpl; [|rewrite IH]; lia.
Qed.

Lemma concat_insert_app {A} (l : list (list A)) i x y :
  l !! i = Some x →
  concat (<[i := x ++ y]> l) = concat (take i l) ++ x ++ y ++ concat (drop (S i) l)
  ∧ concat l = concat (take i l) ++ x ++ concat (drop (S i) l).
Proof.
  intros Hi. split.
  - rewrite insert_take_drop by (by eapply lookup_lt_Some).
    rewrite concat_app. simpl. by rewrite <- !app_assoc.
  - rewrite <- (take_drop_middle l i x Hi) at 1.
    rewrite concat_app. done.
Qed.

Section Steps.
Variable E : Env.

Lemma prepareElementsInGroup_Ok dst ev ts st dst1 eg st1 :
  prepareElementsInGroup E dst ev ts st = (Ok (dst1, eg), st1) →
  ∃ db eg0,
    eg0 = default (newElementsInGroup db) (dst !! groupOf ev)
    ∧ eg = (if latestTS eg0 <? ts then setLatestTS eg0 ts else eg0)
    ∧ dst1 = <[groupOf ev := eg]> dst.
Proof.
  unfold prepareElementsInGroup, callLoadTSDB. rewrite M_bind_unfold. simpl.
  destruct (loadTSDB E (trace st) _) as [db|]; [|done].
  intros [= <- <- <-]. exists db. eexists. split; [reflexivity|].
  unfold groupOf. by destruct (dst !! _).
Qed.

Lemma prepareElementsInTable_Ok eg ev ts st eg' i st' :
  prepareElementsInTable E eg ev ts st = (Ok (eg', i), st') →
  is_Some (tables eg' !! i)
  ∧ groupTimestamps eg' = groupTimestamps eg
  ∧ docs eg' = docs eg ∧ docIDsAdded eg' = docIDsAdded eg
  ∧ latestTS eg' = latestTS eg ∧ tsdb eg' = tsdb eg.
Proof.
  unfold prepareElementsInTable.
  destruct (list_find _ (tables eg)) as [[j et]|] eqn:Hfind.
  - intros [= <- <- <-]. apply list_find_Some in Hfind as (Hj & _).
    split; [by eexists|]. done.
  - rewrite M_bind_unfold.
    assert (∀ eg1 seg st1,
      (callCreateTSTableIfNotExist E seg (ShardId ev)
       ≫= λ tstb, mret (setTables eg1
            (tables eg1 ++ [{| timeRange := GetTimeRange seg; tsTable := tstb;
                               tableElements := emptyElements; tableDocs := [] |}]),
            length (tables eg1))) st1 = (Ok (eg', i), st') →
      tables eg1 = tables eg → docs eg1 = docs eg →
      docIDsAdded eg1 = docIDsAdded eg → latestTS eg1 = latestTS eg →
      tsdb eg1 = tsdb eg →
      is_Some (tables eg' !! i)
      ∧ groupTimestamps eg' = groupTimestamps eg
      ∧ docs eg' = docs eg ∧ docIDsAdded eg' = docIDsAdded eg
      ∧ latestTS eg' = latestTS eg ∧ tsdb eg' = tsdb eg) as Hnew.
    { intros eg1 seg st1. rewrite M_bind_unfold.
      unfold callCreateTSTableIfNotExist. simpl.
      destruct (CreateTSTableIfNotExist E _ _ _) as [tb|]; [|done].
      intros [= <- <- <-] Ht Hd Hs Hl Hdb. simpl.
      split.
      - rewrite lookup_app_r by done. rewrite Nat.sub_diag. by eexists.
      - unfold groupTimestamps. simpl. rewrite fmap_app, concat_app, Ht.
        simpl. by rewrite !app_nil_r. }
    destruct (list_find _ (segments eg)) as [[j seg]|] eqn:Hseg.
    + simpl. intros H. by apply (Hnew _ _ _ H).
    + rewrite M_bind_unfold. unfold callCreateSegmentIfNotExist. simpl.
      destruct (CreateSegmentIfNotExist E _ _ _) as [seg|]; [|done].
      intros H. by apply (Hnew _ _ _ H).
Qed.

Lemma processElements_Ok et eg ev ts st et' eg' st' :
  processElements E et eg ev ts st = (Ok (et', eg'), st') →
  ∃ stm buf sid fields tfs,
    loadStream E (trace st) (RequestMetadata (Request ev)) = Some stm
    ∧ Marshal E (Name (RequestMetadata (Request ev))) (EntityValues ev)
      = Some (buf, sid)
    ∧ familiesLoop E (streamIndexSchema stm) sid
        (TagFamilies (Element (Request ev))) 0
        (SchemaTagFamilies (schema stm)) [] [] = Ok (fields, tfs)
    ∧ length (TagFamilyTRule (indexRuleLocators (streamIndexSchema stm)))
      = length (SchemaTagFamilies (schema stm))
    ∧ et' = {| timeRange := timeRange et; tsTable := tsTable et;
               tableElements :=
                 {| timestamps := timestamps (tableElements et) ++ [ts];
                    elementIDs := elementIDs (tableElements et)
                                  ++ [HashStr E (docIDString ev)];
                    seriesIDs := seriesIDs (tableElements et) ++ [sid];
                    tagFamilies := tagFamilies (tableElements et) ++ [tfs] |};
               tableDocs := tableDocs et ++
                 [{| DocID := HashStr E (docIDString ev); DocEntityValues := [];
                     Fields := fields; DocTimestamp := ts |}] |}
    ∧ eg' = (if bool_decide (sid ∈ docIDsAdded eg) then eg
             else addSeriesDoc eg {| DocID := sid; DocEntityValues := buf;
                                     Fields := []; DocTimestamp := 0 |}).
Proof.
  unfold processElements. repeat (rewrite M_bind_unfold; simpl).
  unfold callLoadStream. simpl.
  destruct (loadStream E (trace st) _) as [stm|] eqn:Hstm; [|done].
  destruct (_ <? 1)%nat; [done|].
  destruct (_ <? _)%nat; [done|].
  destruct (Marshal E _ _) as [[buf sid]|] eqn:Hm; [|done].
  destruct (_ =? _)%nat eqn:Hlen; [|done]. simpl.
  rewrite M_bind_unfold. unfold lift.
  destruct (familiesLoop _ _ _ _ _ _ _ _) as [[fields tfs]|e|s] eqn:Hf; try done.
  intros [= <- <- <-].
  exists stm, buf, sid, fields, tfs.
  apply Nat.eqb_eq in Hlen.
  change (EmptyString +:+ Name (RequestMetadata (Request ev)))
    with (Name (RequestMetadata (Request ev))).
  rewrite append_assoc. done.
Qed.

Lemma handle_Ok dst ev st dst' st' :
  handle E dst ev st = (Ok dst', st') →
  let ts := Timestamp (Element (Request ev)) in
  ∃ db eg0 eg1 eg2 i et st1 st2 et' eg3,
    Check E ts = true
    ∧ eg0 = default (newElementsInGroup db) (dst !! groupOf ev)
    ∧ eg1 = (if latestTS eg0 <? ts then setLatestTS eg0 ts else eg0)
    ∧ prepareElementsInTable E eg1 ev ts st1 = (Ok (eg2, i), st2)
    ∧ tables eg2 !! i = Some et
    ∧ processElements E et eg2 ev ts st2 = (Ok (et', eg3), st')
    ∧ dst' = <[groupOf ev := setTables eg3 (<[i := et']> (tables eg3))]> dst.
Proof.
  intros H ts. unfold handle in H. fold ts in H.
  destruct (Check E ts) eqn:Hc; [|done]. simpl in H.
  rewrite M_bind_unfold in H.
  destruct (prepareElementsInGroup E dst ev ts st) as [[[dst1 eg1]|e|s] st1] eqn:Hg;
    try done.
  apply prepareElementsInGroup_Ok in Hg as (db & eg0 & Heg0 & Heg1 & Hdst1).
  rewrite M_bind_unfold in H.
  destruct (prepareElementsInTable E eg1 ev ts st1) as [[[eg2 i]|e|s] st2] eqn:Ht;
    try done.
  destruct (tables eg2 !! i) as [et|] eqn:Hi; [|done].
  rewrite M_bind_unfold in H.
  destruct (processElements E et eg2 ev ts st2) as [[[et' eg3]|e|s] st3] eqn:Hp;
    try done.
  injection H as <- <-.
  exists db, eg0, eg1, eg2, i, et, st1, st2, et', eg3.
  repeat split; try done.
  rewrite Hdst1. fold (groupOf ev). by rewrite insert_insert_eq.
Qed.

End Steps.

(** ** The invariant of the accumulator *)

Lemma foldr_max_maxTimestamp (l : list Z) :
  foldr Z.max 0 l = Z.max 0 (default 0 (maxTimestamp l)).
Proof.
  induction l as [|x l IH]; simpl; [done|]. rewrite IH.
  destruct (maxTimestamp l); simpl; lia.
Qed.

Lemma maxTimestamp_spec (l : list Z) m :
  maxTimestamp l = Some m ↔ m ∈ l ∧ ∀ x, x ∈ l → x ≤ m.
Proof.
  revert m. induction l as [|y l IH]; intros m; simpl.
  - split; [done|]. intros [H _]. by apply elem_of_nil in H.
  - destruct (maxTimestamp l) as [m'|] eqn:Hm; simpl.
    + destruct (proj1 (IH m') eq_refl) as [Hin Hle]. split.
      * intros [= <-]. split.
        -- destruct (Z.max_spec y m') as [[_ ->]|[_ ->]]; [by right|by left].
        -- intros x [->|Hx]%elem_of_cons; [lia|]. specialize (Hle x Hx). lia.
      * intros [Hmin Hmle]. f_equal.
        assert (m' ≤ m) by (apply Hmle; by right).
        assert (y ≤ m) by (apply Hmle; by left).
        apply elem_of_cons in Hmin as [->|Hmin]; [lia|].
        specialize (Hle m Hmin). lia.
    + assert (l = []) as ->.
      { destruct l as [|z l]; [done|]. simpl in Hm. done. }
      split.
      * intros [= <-]. split; [by left|]. by intros x ->%list_elem_of_singleton.
      * intros [->%list_elem_of_singleton _]. done.
Qed.

Lemma maxTimestamp_nonneg (l : list Z) :
  (∃ ts, ts ∈ l ∧ 0 ≤ ts) → maxTimestamp l = Some (foldr Z.max 0 l).
Proof.
  intros (ts & Hin & Hts). rewrite foldr_max_maxTimestamp.
  destruct (maxTimestamp l) as [m|] eqn:Hm.
  - apply maxTimestamp_spec in Hm as [_ Hle]. specialize (Hle ts Hin).
    simpl. f_equal. lia.
  - destruct l as [|z l]; [by apply elem_of_nil in Hin|done].
Qed.

Lemma docCount_NoDup (docID : Z) (ds : list Document) :
  NoDup (DocID <$> ds) → (docCount docID ds ≤ 1)%nat.
Proof.
  unfold docCount. induction ds as [|d ds IH]; simpl; [lia|].
  rewrite NoDup_cons. intros [Hd Hnd]. rewrite filter_cons.
  case_decide as Heq; simpl; [|by apply IH].
  destruct (filter (λ d0, DocID d0 = docID) ds) as [|x l] eqn:Hf; [simpl; lia|].
  exfalso. apply Hd.
  assert (x ∈ filter (λ d0, DocID d0 = docID) ds) as Hx by (rewrite Hf; by left).
  apply list_elem_of_filter in Hx as [Hx1 Hx2].
  apply list_elem_of_fmap. exists x. split; [congruence|done].
Qed.

Lemma foldr_max_perm (l l' : list Z) :
  l ≡ₚ l' → foldr Z.max 0 l = foldr Z.max 0 l'.
Proof. induction 1; simpl; lia. Qed.

Lemma Permutation_insert_middle {A} (a x b : list A) (t : A) :
  a ++ x ++ [t] ++ b ≡ₚ t :: a ++ x ++ b.
Proof.
  rewrite (app_assoc a x), (app_assoc a x b).
  symmetry. apply Permutation_middle.
Qed.

Section Invariant.
Variable E : Env.

(** What a successful [handle] does to the accumulator: the entry of the
    event's group, made if it was not there, gets one more row, whose
    timestamp is folded into [latestTS], and a series document if the
    series has none yet; the other entries are left alone. *)
Lemma handle_effect dst ev st dst' st' :
  handle E dst ev st = (Ok dst', st') →
  ∃ db g' buf sid,
    let ts := Timestamp (Element (Request ev)) in
    let g0 := default (newElementsInGroup db) (dst !! groupOf ev) in
    dst' = <[groupOf ev := g']> dst
    ∧ tsdb g' = tsdb g0
    ∧ latestTS g' = Z.max (latestTS g0) ts
    ∧ groupTimestamps g' ≡ₚ ts :: groupTimestamps g0
    ∧ Marshal E (Name (RequestMetadata (Request ev))) (EntityValues ev)
      = Some (buf, sid)
    ∧ (if bool_decide (sid ∈ docIDsAdded g0)
       then docs g' = docs g0 ∧ docIDsAdded g' = docIDsAdded g0
       else docs g' = docs g0 ++ [{| DocID := sid; DocEntityValues := buf;
                                     Fields := []; DocTimestamp := 0 |}]
            ∧ docIDsAdded g' = {[sid]} ∪ docIDsAdded g0).
Proof.
  intros H. apply handle_Ok in H
    as (db & eg0 & eg1 & eg2 & i & et & st1 & st2 & et' & eg3
        & Hc & Heg0 & Heg1 & Ht & Hi & Hp & ->).
  apply prepareElementsInTable_Ok in Ht as (_ & Hrows & Hdocs & Hids & Hlts & Hdb).
  apply processElements_Ok in Hp
    as (stm & buf & sid & fields & tfs & _ & Hm & _ & _ & -> & Heg3).
  exists db, (setTables eg3 (<[i := {|
    timeRange := timeRange et; tsTable := tsTable et;
    tableElements :=
      {| timestamps := timestamps (tableElements et)
                       ++ [Timestamp (Element (Request ev))];
         elementIDs := elementIDs (tableElements et) ++ [HashStr E (docIDString ev)];
         seriesIDs := seriesIDs (tableElements et) ++ [sid];
         tagFamilies := tagFamilies (tableElements et) ++ [tfs] |};
    tableDocs := tableDocs et ++
      [{| DocID := HashStr E (docIDString ev); DocEntityValues := [];
          Fields := fields; DocTimestamp := Timestamp (Element (Request ev)) |}]
    |}]> (tables eg3))), buf, sid.
  cbn zeta. rewrite <- Heg0.
  assert (tables eg3 = tables eg2 ∧ tsdb eg3 = tsdb eg2
          ∧ latestTS eg3 = latestTS eg2) as (Ht3 & Hdb3 & Hl3).
  { rewrite Heg3. by case_bool_decide. }
  assert (docs eg1 = docs eg0 ∧ docIDsAdded eg1 = docIDsAdded eg0
          ∧ tsdb eg1 = tsdb eg0 ∧ groupTimestamps eg1 = groupTimestamps eg0
          ∧ latestTS eg1 = Z.max (latestTS eg0) (Timestamp (Element (Request ev))))
    as (Hd1 & Hi1 & Hdb1 & Hr1 & Hl1).
  { rewrite Heg1. destruct (Z.ltb_spec (latestTS eg0)
                              (Timestamp (Element (Request ev)))); simpl.
    - repeat split; try done. lia.
    - repeat split; try done. lia. }
  split; [done|]. split; [simpl; congruence|]. split; [simpl; congruence|].
  split.
  { unfold groupTimestamps at 1. simpl. rewrite Ht3, list_fmap_insert. simpl.
    assert (((λ et0, timestamps (tableElements et0)) <$> tables eg2) !! i
            = Some (timestamps (tableElements et))) as Hi'
      by (by rewrite list_lookup_fmap, Hi).
    destruct (concat_insert_app _ _ _ [Timestamp (Element (Request ev))] Hi')
      as [-> Hold].
    rewrite <- Hr1, <- Hrows. unfold groupTimestamps. rewrite Hold.
    apply Permutation_insert_middle. }
  split; [done|].
  rewrite <- Hi1, <- Hids, <- Hd1, <- Hdocs. rewrite Heg3.
  case_bool_decide; simpl; done.
Qed.

Lemma handle_inv dst ev st dst' st' :
  map_Forall (λ _ g, groupInv g) dst →
  handle E dst ev st = (Ok dst', st') →
  map_Forall (λ _ g, groupInv g) dst'.
Proof.
  intros Hinv H.
  apply handle_effect in H as (db & g' & buf & sid & H). cbn zeta in H.
  destruct H as (-> & _ & Hlts & Hrows & _ & Hdocs).
  apply map_Forall_insert_2; [|done].
  set (g0 := default (newElementsInGroup db) (dst !! groupOf ev)) in *.
  assert (NoDup (DocID <$> docs g0)
          ∧ (∀ d, d ∈ docIDsAdded g0 ↔ d ∈ DocID <$> docs g0)
          ∧ latestTS g0 = foldr Z.max 0 (groupTimestamps g0))
    as (Hnd & Hids & Hl0).
  { subst g0. destruct (dst !! groupOf ev) as [g|] eqn:Hg; simpl.
    - apply (map_Forall_lookup_1 _ _ _ _ Hinv) in Hg. by destruct Hg.
    - split; [constructor|]. split; [|done]. intros d. set_solver. }
  split.
  - case_bool_decide as Hsid; destruct Hdocs as [-> _]; [done|].
    rewrite fmap_app. apply NoDup_app. split; [done|]. split.
    + intros x Hx ->%list_elem_of_singleton. apply Hsid. by apply Hids.
    + apply NoDup_singleton.
  - intros d. case_bool_decide as Hsid; destruct Hdocs as [-> ->]; [done|].
    rewrite fmap_app, elem_of_app, elem_of_union, Hids. simpl.
    rewrite list_elem_of_singleton, elem_of_singleton. tauto.
  - case_bool_decide as Hsid; destruct Hdocs as [-> _].
    + apply Hids in Hsid. intros Hnil. rewrite Hnil in Hsid.
      by apply elem_of_nil in Hsid.
    + by destruct (docs g0).
  - intros Hnil. rewrite Hnil in Hrows.
    by apply Permutation_nil_cons in Hrows.
  - rewrite Hlts, (foldr_max_perm _ _ Hrows), Hl0. simpl. lia.
Qed.

Lemma revStep_inv groups ev st groups' st' :
  map_Forall (λ _ g, groupInv g) groups →
  revStep E groups ev st = (Ok groups', st') →
  map_Forall (λ _ g, groupInv g) groups'.
Proof.
  intros Hinv.
  assert (∀ e, handleOrReset E groups e st = (Ok groups', st') →
               map_Forall (λ _ g, groupInv g) groups') as Hh.
  { intros e. unfold handleOrReset.
    destruct (handle E groups e st) as [[g|err|s] st1] eqn:Hh; [| |done].
    - intros [= <- <-]. by eapply handle_inv.
    - intros [= <- <-]. apply map_Forall_empty. }
  destruct ev as [e|b|]; simpl.
  - apply Hh.
  - destruct (Unmarshal E b); [apply Hh|]. by intros [= <- <-].
  - by intros [= <- <-].
Qed.

Lemma revLoop_inv events groups st groups' st' :
  map_Forall (λ _ g, groupInv g) groups →
  revLoop E groups events st = (Ok groups', st') →
  map_Forall (λ _ g, groupInv g) groups'.
Proof.
  revert groups st. induction events as [|ev events IH]; intros groups st Hinv; simpl.
  - by intros [= <- <-].
  - rewrite M_bind_unfold.
    destruct (revStep E groups ev st) as [[g1|e|s] st1] eqn:Hs; try done.
    apply IH. by eapply revStep_inv.
Qed.

(** The shape of a run of [Rev] that returns: the operations of the
    batcher, then one block per entry of the accumulator. *)
Lemma Rev_Ok_loop events st groups st' :
  Rev E (DataEvents events) st = (Ok (Some groups), st') →
  ∃ st1 accOps blocks,
    revLoop E ∅ events {| trace := trace st; builder := EmptyString |}
    = (Ok groups, st1)
    ∧ trace st1 = trace st ++ accOps
    ∧ RevOps E (DataEvents events) st = accOps ++ concat blocks
    ∧ Forall isBatchOp accOps
    ∧ Forall2 (λ kg block, flushBlock kg.2 block) (rangeGroups E groups) blocks
    ∧ map_Forall (λ _ g, groupInv g) groups.
Proof.
  unfold RevOps. unfold Rev.
  destruct (length events <? 1)%nat; [done|].
  rewrite M_bind_unfold. simpl. rewrite M_bind_unfold.
  set (st0 := {| trace := trace st; builder := EmptyString |}).
  destruct (adds_revLoop E events ∅ st0) as (accOps & Hacc & HF).
  destruct (revLoop E ∅ events st0) as [[g|e|s] st1] eqn:Hloop; try done.
  destruct (commit_spec E g st1) as (blocks & Hc & HB).
  rewrite Hc. intros [= <- <-]. exists st1, accOps, blocks.
  split; [done|]. split; [done|].
  split; [|split; [done|split; [done|]]].
  - simpl in *. rewrite Hacc, <- app_assoc. apply drop_trace_app.
  - refine (revLoop_inv _ _ _ _ _ _ Hloop). apply map_Forall_empty.
Qed.

Lemma Rev_Ok events st groups st' :
  Rev E (DataEvents events) st = (Ok (Some groups), st') →
  ∃ accOps blocks,
    RevOps E (DataEvents events) st = accOps ++ concat blocks
    ∧ Forall isBatchOp accOps
    ∧ Forall2 (λ kg block, flushBlock kg.2 block) (rangeGroups E groups) blocks
    ∧ map_Forall (λ _ g, groupInv g) groups.
Proof.
  intros H. apply Rev_Ok_loop in H as (st1 & accOps & blocks & _ & _ & H).
  by exists accOps, blocks.
Qed.

End Invariant.

(** ** [Rev]: what reaches the storage layer *)

Lemma projections_snoc_tick body db ts :
  insertsOf (body ++ [OpTick db ts]) = insertsOf body
  ∧ decRefsOf (body ++ [OpTick db ts]) = decRefsOf body
  ∧ rowsOf (body ++ [OpTick db ts]) = rowsOf body
  ∧ ticksOf (body ++ [OpTick db ts]) = ticksOf body ++ [(db, ts)].
Proof.
  unfold insertsOf, decRefsOf, rowsOf, ticksOf. rewrite !omap_app. simpl.
  by rewrite !app_nil_r.
Qed.

Lemma insertCount_fmap (docID : Z) (ds : list Document) (segs : list Segment) :
  sum_list ((λ sd : Segment * list Document, docCount docID sd.2)
              <$> ((λ seg, (seg, ds)) <$> segs))
  = (length segs * docCount docID ds)%nat.
Proof.
  induction segs as [|seg segs IH]; [done|].
  rewrite !fmap_cons. cbn [sum_list snd]. by rewrite IH.
Qed.

Section Committer.
Variable E : Env.
Hypothesis Hrange : range_once E.

Lemma flushed_entries groups blocks :
  map_Forall (λ _ g, groupInv g) groups →
  Forall2 (λ kg block, flushBlock kg.2 block) (rangeGroups E groups) blocks →
  Forall2 (λ kg block,
             groups !! kg.1 = Some kg.2 ∧ groupInv kg.2 ∧ flushBlock kg.2 block)
          (rangeGroups E groups) blocks.
Proof.
  intros Hinv HF. apply Forall2_same_length_lookup.
  apply Forall2_same_length_lookup in HF as [Hlen HF]. split; [done|].
  intros i [gn g] block Hi Hb.
  assert (groups !! gn = Some g) as Hg.
  { apply elem_of_map_to_list. rewrite <- (Hrange groups).
    by eapply list_elem_of_lookup_2. }
  split; [done|]. split; [|by eapply HF].
  by apply (map_Forall_lookup_1 _ _ _ _ Hinv) in Hg.
Qed.

(** Every segment a flushed group holds is released once in the block of
    that group: a flushed group always has a series document. *)
Lemma Rev_releases_held_segments events st groups st' :
  Rev E (DataEvents events) st = (Ok (Some groups), st') →
  ∃ accOps blocks,
    RevOps E (DataEvents events) st = accOps ++ concat blocks
    ∧ decRefsOf accOps = []
    ∧ Forall2 (λ kg block, decRefsOf block = segments kg.2)
              (rangeGroups E groups) blocks.
Proof.
  intros H. apply Rev_Ok in H as (accOps & blocks & Hops & Hacc & HF & Hinv).
  exists accOps, blocks. split; [done|].
  split; [by apply batch_ops_projections|].
  eapply Forall2_impl; [by apply flushed_entries|].
  intros [gn g] block (_ & Hg & body & -> & _ & _ & _ & _ & Hd). simpl in *.
  destruct (projections_snoc_tick body (tsdb g) (latestTS g)) as (_ & -> & _).
  rewrite Hd. destruct (docs g) eqn:Hdocs; [|done].
  by destruct (inv_docs_nonempty _ Hg).
Qed.

(** C2 (amended).  Within one run of [Rev] that returns, for every
    flushed group: the pending series documents hold at most one
    document per series ID, the IDs being those recorded in
    [docIDsAdded]; and the flush hands the whole list to the IndexDB of
    each segment the group holds, once per segment.  A series document
    is thus inserted once for each segment held, [len(segments)] times in
    all, and nothing is inserted outside of the flush. *)
Theorem series_documents_once_per_segment events st groups st' :
  Rev E (DataEvents events) st = (Ok (Some groups), st') →
  ∃ accOps blocks,
    RevOps E (DataEvents events) st = accOps ++ concat blocks
    ∧ insertsOf accOps = []
    ∧ rangeGroups E groups ≡ₚ map_to_list groups
    ∧ Forall2
        (λ kg block,
           NoDup (DocID <$> docs kg.2)
           ∧ (∀ sid, sid ∈ docIDsAdded kg.2 ↔ sid ∈ DocID <$> docs kg.2)
           ∧ insertsOf block = (λ seg, (seg, docs kg.2)) <$> segments kg.2
           ∧ ∀ docID,
               (docCount docID (docs kg.2) ≤ 1)%nat
               ∧ insertCount docID block
                 = (length (segments kg.2) * docCount docID (docs kg.2))%nat)
        (rangeGroups E groups) blocks.
Proof.
  intros H. apply Rev_Ok in H as (accOps & blocks & Hops & Hacc & HF & Hinv).
  exists accOps, blocks. split; [done|].
  split; [by apply batch_ops_projections|]. split; [apply Hrange|].
  eapply Forall2_impl; [by apply flushed_entries|].
  intros [gn g] block (_ & Hg & body & -> & _ & _ & _ & Hi & _). simpl in *.
  destruct (projections_snoc_tick body (tsdb g) (latestTS g)) as (Hins & _).
  assert (insertsOf (body ++ [OpTick (tsdb g) (latestTS g)])
          = (λ seg, (seg, docs g)) <$> segments g) as Hins'.
  { rewrite Hins, Hi. destruct (docs g) eqn:Hdocs; [|done].
    by destruct (inv_docs_nonempty _ Hg). }
  split; [apply Hg|]. split; [apply Hg|]. split; [done|].
  intros docID. split; [apply docCount_NoDup, Hg|].
  unfold insertCount. rewrite Hins'. apply insertCount_fmap.
Qed.

(** [Tick] in a run of [Rev] that returns.  The operations of the
    batcher come first and hold no [Tick]; then comes one block per
    entry of the accumulator, each entry once.  The block of a group
    ends with its only [Tick], after the rows of all its tables and the
    inserts and releases of its segments.  The argument of that [Tick]
    is [latestTS], the maximum of 0 and of the timestamps of the events
    accumulated into the group: it is the maximum timestamp whenever one
    of them is not negative. *)
Lemma Tick_once_after_flush events st groups st' :
  Rev E (DataEvents events) st = (Ok (Some groups), st') →
  ∃ accOps blocks,
    RevOps E (DataEvents events) st = accOps ++ concat blocks
    ∧ ticksOf accOps = []
    ∧ rangeGroups E groups ≡ₚ map_to_list groups
    ∧ Forall2
        (λ kg block,
           flushBlock kg.2 block
           ∧ ticksOf block = [(tsdb kg.2, latestTS kg.2)]
           ∧ groupTimestamps kg.2 ≠ []
           ∧ latestTS kg.2
             = Z.max 0 (default 0 (maxTimestamp (groupTimestamps kg.2)))
           ∧ ((∃ ts, ts ∈ groupTimestamps kg.2 ∧ 0 ≤ ts) →
              maxTimestamp (groupTimestamps kg.2) = Some (latestTS kg.2)))
        (rangeGroups E groups) blocks.
Proof.
  intros H. apply Rev_Ok in H as (accOps & blocks & Hops & Hacc & HF & Hinv).
  exists accOps, blocks. split; [done|].
  split; [by apply batch_ops_projections|]. split; [apply Hrange|].
  eapply Forall2_impl; [by apply flushed_entries|].
  intros [gn g] block (_ & Hg & Hblock). simpl in *.
  split; [done|]. destruct Hblock as (body & -> & Htk & _).
  destruct (projections_snoc_tick body (tsdb g) (latestTS g)) as (_ & _ & _ & ->).
  rewrite Htk. split; [done|]. split; [apply Hg|].
  rewrite (inv_latestTS _ Hg). split; [apply foldr_max_maxTimestamp|].
  apply maxTimestamp_nonneg.
Qed.

(** C5 fails on the code.  [latestTS] is meant as a running maximum, but
    it starts at the zero value of a new entry and is raised only when a
    timestamp is above it.  So for every group [Rev] flushes whose
    events are all dated before the epoch, the block of the group ends
    with its one [Tick], called with 0, while the maximum timestamp of
    the group is negative.  This holds for every collaborator that lets
    such events pass. *)
Theorem Tick_misses_maximum_before_epoch events st groups st' :
  Rev E (DataEvents events) st = (Ok (Some groups), st') →
  ∀ gn g,
    groups !! gn = Some g →
    Forall (λ ts, ts < 0) (groupTimestamps g) →
    ∃ m pre block post,
      maxTimestamp (groupTimestamps g) = Some m
      ∧ m < 0
      ∧ RevOps E (DataEvents events) st = pre ++ block ++ post
      ∧ flushBlock g block
      ∧ ticksOf block = [(tsdb g, 0)].
Proof.
  intros H gn g Hg Hneg.
  destruct (Tick_once_after_flush _ _ _ _ H)
    as (accOps & blocks & Hops & _ & _ & HF).
  assert ((gn, g) ∈ rangeGroups E groups) as Hin.
  { rewrite (Hrange groups). by apply elem_of_map_to_list. }
  apply list_elem_of_lookup in Hin as [i Hi].
  destruct (Forall2_lookup_l _ _ _ _ _ HF Hi)
    as (block & Hb & Hblock & Htick & Hne & Hlatest & _).
  simpl in *.
  destruct (maxTimestamp (groupTimestamps g)) as [m|] eqn:Hm.
  2:{ destruct (groupTimestamps g); [done|discriminate]. }
  assert (m < 0) as Hlt.
  { apply maxTimestamp_spec in Hm as [Hmin _].
    rewrite Forall_forall in Hneg. by apply Hneg. }
  exists m, (accOps ++ concat (take i blocks)), block,
         (concat (drop (S i) blocks)).
  split; [done|]. split; [done|]. split.
  { rewrite Hops, <- (take_drop_middle blocks i block Hb) at 1.
    rewrite concat_app. simpl. by rewrite <- !app_assoc. }
  split; [done|]. rewrite Htick, Hlatest. simpl.
  by rewrite Z.max_l by lia.
Qed.

End Committer.

(** *** Concrete runs *)

Lemma env_range_once : range_once env.
Proof. intros m. reflexivity. Defined.

Lemma series_documents_once_per_segment_witness :
  ∃ accOps blocks,
    RevOps env (DataEvents [EventRequest ev1; EventRequest ev2]) st0
    = accOps ++ concat blocks
    ∧ insertsOf accOps = [].
Proof.
  destruct (series_documents_once_per_segment env env_range_once
              [EventRequest ev1; EventRequest ev2] st0
              (valueOr ∅ (revLoop env ∅ [EventRequest ev1; EventRequest ev2] st0))
              (Rev env (DataEvents [EventRequest ev1; EventRequest ev2]) st0).2)
    as (accOps & blocks & Hops & Hacc & _).
  - vm_compute. reflexivity.
  - exists accOps, blocks. split; assumption.
Defined.

(** C2, as stated, fails.  Two events of one series on two days make the
    group hold two segments, and the one series document is handed to
    [IndexDB().Insert] twice. *)
Lemma series_document_inserted_twice :
  ¬ ∀ docID,
      (insertCount docID
         (RevOps env (DataEvents [EventRequest ev1; EventRequest ev2]) st0) ≤ 1)%nat.
Proof.
  intros H. specialize (H 307450). vm_compute in H.
  apply Nat.nle_succ_diag_l in H. exact H.
Qed.

Lemma Tick_misses_maximum_before_epoch_witness :
  ∃ m pre block post,
    maxTimestamp
      (groupTimestamps
         (default group0
            (valueOr ∅ (revLoop env ∅ [EventRequest evOld] st0) !! "g")))
    = Some m
    ∧ m < 0
    ∧ RevOps env (DataEvents [EventRequest evOld]) st0 = pre ++ block ++ post
    ∧ flushBlock
        (default group0
           (valueOr ∅ (revLoop env ∅ [EventRequest evOld] st0) !! "g")) block
    ∧ ticksOf block
      = [(tsdb (default group0
                  (valueOr ∅ (revLoop env ∅ [EventRequest evOld] st0) !! "g")),
          0)].
Proof.
  refine (Tick_misses_maximum_before_epoch env env_range_once
            [EventRequest evOld] st0
            (valueOr ∅ (revLoop env ∅ [EventRequest evOld] st0))
            (Rev env (DataEvents [EventRequest evOld]) st0).2 _ "g" _ _ _).
  - vm_compute. reflexivity.
  - vm_compute. reflexivity.
  - replace (groupTimestamps _) with [-1000000] by (vm_compute; reflexivity).
    apply Forall_singleton. reflexivity.
Defined.

(** C5 on a run.  For one event dated one millisecond before the epoch,
    which the check of [env] lets pass, the group holds the timestamp
    -1000000 only, and [Tick] is called with 0. *)
Lemma Tick_not_the_maximum :
  let run := Rev env (DataEvents [EventRequest evOld]) st0 in
  ∃ groups g,
    run.1 = Ok (Some groups)
    ∧ map_to_list groups = [("g", g)]
    ∧ groupTimestamps g = [-1000000]
    ∧ ticksOf (RevOps env (DataEvents [EventRequest evOld]) st0) = [(tsdb g, 0)]
    ∧ maxTimestamp (groupTimestamps g) ≠ Some 0.
Proof.
  eexists _, _. split; [vm_compute; reflexivity|].
  split; [vm_compute; reflexivity|].
  split; [vm_compute; reflexivity|].
  split; [vm_compute; reflexivity|].
  vm_compute. discriminate.
Qed.

(** C1 fails on the code: the first event acquires the segment of its day,
    the second event has no tag family, [handle] returns an error and the
    accumulator is replaced; [Rev] returns, and the segment acquired was
    never released. *)
Theorem Rev_reset_leaks_segment :
  let ops := RevOps env (DataEvents [EventRequest ev1; EventRequest evBad]) st0 in
  (Rev env (DataEvents [EventRequest ev1; EventRequest evBad]) st0).1 = Ok (Some ∅)
  ∧ acquiredOf ops = [seg0]
  ∧ decRefsOf ops = []
  ∧ countOf seg0 (acquiredOf ops) = 1%nat
  ∧ countOf seg0 (decRefsOf ops) = 0%nat.
Proof. vm_compute. repeat split. Qed.

(** ** Segments acquired and segments released *)

Lemma acquiredOf_app a b : acquiredOf (a ++ b) = acquiredOf a ++ acquiredOf b.
Proof. apply omap_app. Qed.

Lemma decRefsOf_app a b : decRefsOf (a ++ b) = decRefsOf a ++ decRefsOf b.
Proof. apply omap_app. Qed.

Lemma heldSegments_insert (groups : gmap string elementsInGroup) gn g :
  heldSegments (<[gn := g]> groups)
  ≡ₚ segments g ++ heldSegments (delete gn groups).
Proof.
  unfold heldSegments. rewrite <- insert_delete_eq.
  rewrite map_to_list_insert by apply lookup_delete_eq. done.
Qed.

Lemma heldSegments_lookup (groups : gmap string elementsInGroup) gn g :
  groups !! gn = Some g →
  heldSegments groups ≡ₚ segments g ++ heldSegments (delete gn groups).
Proof.
  intros Hg. rewrite <- (insert_id groups gn g Hg) at 1.
  apply heldSegments_insert.
Qed.

Lemma heldSegments_delete_None (groups : gmap string elementsInGroup) gn :
  groups !! gn = None → heldSegments (delete gn groups) = heldSegments groups.
Proof. intros Hg. by rewrite delete_id. Qed.

Section Segments.
Variable E : Env.

Lemma prepareElementsInTable_segments eg ev ts st eg' i st' :
  prepareElementsInTable E eg ev ts st = (Ok (eg', i), st') →
  ∃ ops, trace st' = trace st ++ ops
         ∧ segments eg' = segments eg ++ acquiredOf ops.
Proof.
  unfold prepareElementsInTable.
  destruct (list_find _ (tables eg)) as [[j et]|].
  { intros [= <- <- <-]. exists []. by rewrite !app_nil_r. }
  unfold callCreateSegmentIfNotExist, callCreateTSTableIfNotExist.
  destruct (list_find _ (segments eg)) as [[j seg]|].
  - mrun.
    destruct (CreateTSTableIfNotExist E _ _ _) as [tb|] eqn:Htb; [|done].
    intros [= <- <- <-]. simpl. eexists [_]. split; [done|].
    by rewrite app_nil_r.
  - mrun.
    destruct (CreateSegmentIfNotExist E _ _ _) as [seg|] eqn:Hseg; [|done].
    mrun.
    destruct (CreateTSTableIfNotExist E _ _ _) as [tb|] eqn:Htb; [|done].
    intros [= <- <- <-]. simpl. eexists [_; _].
    rewrite <- app_assoc. split; done.
Qed.

Lemma processElements_trace et eg ev ts st et' eg' st' :
  processElements E et eg ev ts st = (Ok (et', eg'), st') →
  ∃ op, trace st' = trace st ++ [op] ∧ acquiredOf [op] = []
        ∧ segments eg' = segments eg.
Proof.
  intros H. pose proof H as H'.
  apply processElements_Ok in H'
    as (stm & buf & sid & fields & tfs & _ & _ & _ & _ & _ & ->).
  revert H. unfold processElements. repeat (rewrite M_bind_unfold; simpl).
  unfold callLoadStream. simpl.
  destruct (loadStream E (trace st) _) as [stm'|]; [|done].
  destruct (_ <? 1)%nat; [done|]. destruct (_ <? _)%nat; [done|].
  destruct (Marshal E _ _) as [[buf' sid']|]; [|done].
  destruct (negb _); [done|].
  rewrite M_bind_unfold. unfold lift.
  destruct (familiesLoop _ _ _ _ _ _ _ _) as [[fields' tfs']|e|s]; try done.
  intros [= _ _ <-]. simpl. eexists. split; [done|]. split; [done|].
  by case_bool_decide.
Qed.

(** A successful [handle] appends to the segments of the event's group
    the segments it acquired, and nothing else. *)
Lemma handle_segments dst ev st dst' st' :
  handle E dst ev st = (Ok dst', st') →
  ∃ ops, trace st' = trace st ++ ops
         ∧ Forall isCallOp ops
         ∧ heldSegments dst' ≡ₚ heldSegments dst ++ acquiredOf ops.
Proof.
  intros H. destruct (adds_handle_calls E dst ev st) as (ops & Hops & Hcalls).
  rewrite H in Hops. simpl in Hops. exists ops. split; [done|]. split; [done|].
  revert H. unfold handle.
  destruct (negb _); [done|]. rewrite M_bind_unfold.
  destruct (prepareElementsInGroup E dst ev _ st) as [[[dst1 eg1]|e|s] st1] eqn:Hg;
    try done.
  pose proof Hg as Hg'.
  apply prepareElementsInGroup_Ok in Hg' as (db & eg0 & Heg0 & Heg1 & Hdst1).
  assert (trace st1 = trace st ++ [OpLoadTSDB (groupOf ev) (Some db)]
          ∨ ∃ r, trace st1 = trace st ++ [OpLoadTSDB (groupOf ev) r]) as Hst1.
  { right. revert Hg. unfold prepareElementsInGroup, callLoadTSDB.
    rewrite M_bind_unfold. simpl.
    destruct (loadTSDB E (trace st) _) as [db'|]; [|done].
    intros [= _ _ <-]. by eexists. }
  destruct Hst1 as [Hst1|[r Hst1]]; [|].
  all: rewrite M_bind_unfold;
    destruct (prepareElementsInTable E eg1 ev _ st1) as [[[eg2 i]|e|s] st2] eqn:Ht;
    try done;
    apply prepareElementsInTable_segments in Ht as (ops2 & Hst2 & Hsegs2);
    destruct (tables eg2 !! i) as [et|]; [|done];
    rewrite M_bind_unfold;
    destruct (processElements E et eg2 ev _ st2) as [[[et' eg3]|e|s] st3] eqn:Hp;
    try done;
    apply processElements_trace in Hp as (op & Hst3 & Hacq & Hsegs3);
    intros [= <- <-];
    rewrite Hst3, Hst2, Hst1, <- !app_assoc in Hops;
    apply app_inv_head in Hops; subst ops;
    rewrite !acquiredOf_app, Hacq, app_nil_r; simpl;
    rewrite Hdst1, insert_insert_eq; fold (groupOf ev);
    rewrite heldSegments_insert; simpl; rewrite Hsegs3, Hsegs2;
    (assert (segments eg1 = segments eg0) as ->
       by (rewrite Heg1; by destruct (_ <? _)));
    rewrite Heg0;
    (destruct (dst !! groupOf ev) as [g|] eqn:Hdst; simpl;
     [rewrite (heldSegments_lookup _ _ _ Hdst), <- !app_assoc;
      apply Permutation_app_head, Permutation_app_comm
     |rewrite heldSegments_delete_None by done; apply Permutation_app_comm]).
Qed.

Lemma heldSegments_empty : heldSegments ∅ = [].
Proof. unfold heldSegments. by rewrite map_to_list_empty. Qed.

Lemma revStep_segments groups ev st groups' st' :
  revStep E groups ev st = (Ok groups', st') →
  ∃ ops, trace st' = trace st ++ ops
         ∧ (cannotHandle ∉ ops →
            heldSegments groups' ≡ₚ heldSegments groups ++ acquiredOf ops).
Proof.
  assert (∀ e, handleOrReset E groups e st = (Ok groups', st') →
    ∃ ops, trace st' = trace st ++ ops
           ∧ (cannotHandle ∉ ops →
              heldSegments groups' ≡ₚ heldSegments groups ++ acquiredOf ops))
    as Hh.
  { intros e. unfold handleOrReset.
    destruct (adds_handle E groups e st) as (ops & Hops & _).
    destruct (handle E groups e st) as [[g|err|s] st1] eqn:Hh; [| |done].
    - intros [= <- <-]. apply handle_segments in Hh as (ops' & Hst & _ & Hheld).
      by exists ops'.
    - intros [= <- <-]. simpl in *. exists (ops ++ [cannotHandle]).
      rewrite Hops, <- app_assoc. split; [done|]. intros Hnot.
      exfalso. apply Hnot. apply elem_of_app. right. by left. }
  destruct ev as [e|b|]; simpl.
  - apply Hh.
  - destruct (Unmarshal E b); [apply Hh|]. intros [= <- <-].
    eexists [_]. split; [done|]. intros _. simpl. by rewrite app_nil_r.
  - intros [= <- <-]. eexists [_]. split; [done|]. intros _. simpl.
    by rewrite app_nil_r.
Qed.

Lemma revLoop_segments events groups st groups' st' :
  revLoop E groups events st = (Ok groups', st') →
  ∃ ops, trace st' = trace st ++ ops
         ∧ (cannotHandle ∉ ops →
            heldSegments groups' ≡ₚ heldSegments groups ++ acquiredOf ops).
Proof.
  revert groups st. induction events as [|ev events IH]; intros groups st; simpl.
  - intros [= <- <-]. exists []. rewrite !app_nil_r. done.
  - rewrite M_bind_unfold.
    destruct (revStep E groups ev st) as [[g1|e|s] st1] eqn:Hs; try done.
    apply revStep_segments in Hs as (ops1 & Hst1 & Hheld1).
    intros H. apply IH in H as (ops2 & Hst2 & Hheld2).
    exists (ops1 ++ ops2). rewrite Hst2, Hst1, <- app_assoc. split; [done|].
    intros Hnot. rewrite acquiredOf_app, app_assoc.
    rewrite <- Hheld1, <- Hheld2; [done| |];
      intros Hin; apply Hnot, elem_of_app; auto.
Qed.

Hypothesis Hrange : range_once E.

(** In a run of [Rev] that returns, the segments released are those the
    accumulator holds at the end, each once.  When no call of [handle]
    failed, they are the segments acquired during the run, each once: one
    [DecRef] balances every acquisition. *)
Lemma Rev_releases_what_is_held events st groups st' :
  Rev E (DataEvents events) st = (Ok (Some groups), st') →
  decRefsOf (RevOps E (DataEvents events) st) ≡ₚ heldSegments groups
  ∧ (cannotHandle ∉ RevOps E (DataEvents events) st →
     decRefsOf (RevOps E (DataEvents events) st)
     ≡ₚ acquiredOf (RevOps E (DataEvents events) st)).
Proof.
  intros H.
  pose proof (Rev_Ok_loop E _ _ _ _ H)
    as (st1 & accOps & blocks & Hloop & Hst1 & Hops & Hacc & HB & Hinv).
  pose proof (flushed_entries E Hrange _ _ Hinv HB) as HF.
  assert (decRefsOf (concat blocks) ≡ₚ heldSegments groups) as Hreleased.
  { unfold heldSegments. rewrite <- (Hrange groups).
    clear -HF. induction HF as [|kg block l blocks Hb _ IH]; simpl; [done|].
    destruct Hb as (_ & Hg & body & -> & _ & _ & _ & _ & Hd).
    destruct (projections_snoc_tick body (tsdb kg.2) (latestTS kg.2))
      as (_ & Hdec & _).
    rewrite decRefsOf_app, Hdec, Hd, IH.
    destruct (docs kg.2) eqn:Hdocs; [|done].
    by destruct (inv_docs_nonempty _ Hg). }
  assert (acquiredOf (concat blocks) = []) as Hacq.
  { clear -HB. induction HB as [|kg block l blocks Hb _ IH]; simpl; [done|].
    destruct Hb as (body & _ & _ & Ha & _). by rewrite acquiredOf_app, Ha, IH. }
  assert (decRefsOf accOps = []) as Hdec by (by apply batch_ops_projections).
  rewrite Hops, decRefsOf_app, Hdec, acquiredOf_app, Hacq, app_nil_r. simpl.
  split; [done|]. intros Hnot. rewrite Hreleased.
  apply revLoop_segments in Hloop as (ops & Hst1' & Hheld). simpl in Hst1'.
  rewrite Hst1 in Hst1'. apply app_inv_head in Hst1'. subst ops.
  rewrite heldSegments_empty in Hheld. apply Hheld.
  intros Hin. apply Hnot, elem_of_app. by left.
Qed.

End Segments.

(** ** Tag types the encoder supports *)

Section Supported.
Variable E : Env.

Lemma encodeTagValue_supported name ty v :
  ty ≠ TAG_TYPE_UNSPECIFIED → ∃ tv, encodeTagValue E name ty v = Ok tv.
Proof.
  destruct ty; simpl; try done; intros _; eauto.
  - destruct (GetStrArray v); eauto.
  - destruct (GetIntArray v); eauto.
Qed.

Lemma appendField_supported dest key ty v noSort :
  ty ≠ TAG_TYPE_UNSPECIFIED → ∃ dest', appendField dest key ty v noSort = Ok dest'.
Proof.
  destruct ty; simpl; try done; intros _.
  - destruct (GetStr v); eauto.
  - destruct (GetInt v); eauto.
  - destruct (GetStrArray v); eauto.
  - destruct (GetIntArray v); eauto.
  - destruct (GetBinaryData v); eauto.
Qed.

Lemma tagsLoop_supported tfr es sid tagFamily specs j fields vals :
  Forall (λ t, Type_ t ≠ TAG_TYPE_UNSPECIFIED) specs →
  ∃ r, tagsLoop E tfr es sid tagFamily j specs fields vals = Ok r.
Proof.
  intros Hs. revert j fields vals.
  induction Hs as [|t specs Ht _ IH]; intros j fields vals; simpl; [eauto|].
  assert (∃ fb, match tfr !! TagName t, tagValueAt tagFamily j with
                | Some r, Some v =>
                  match RuleType r with
                  | TYPE_INVERTED =>
                    fields ← appendField fields
                      {| IndexRuleID := RuleId r; KeyAnalyzer := Analyzer r;
                         KeySeriesID := sid |} (Type_ t) v (NoSort r);
                    Ok (fields, false)
                  | TYPE_SKIPPING => Ok (fields, true)
                  | TYPE_UNSPECIFIED => Ok (fields, false)
                  end
                | _, _ => Ok (fields, false)
                end = Ok fb) as [[fields1 b] ->].
  { destruct (tfr !! TagName t) as [r|]; [|eauto].
    destruct (tagValueAt tagFamily j) as [v|]; [|eauto].
    destruct (RuleType r); eauto.
    destruct (appendField_supported fields
                {| IndexRuleID := RuleId r; KeyAnalyzer := Analyzer r;
                   KeySeriesID := sid |} (Type_ t) v (NoSort r) Ht) as [f ->].
    simpl. eauto. }
  simpl. destruct (IndexedOnly t || bool_decide (TagName t ∈ es)); [apply IH|].
  destruct (encodeTagValue_supported (TagName t) (Type_ t)
              (default NullTagValue (tagValueAt tagFamily j)) Ht) as [tv ->].
  simpl. apply IH.
Qed.

Lemma familiesLoop_supported is_ sid reqs specs i fields tfs :
  Forall (λ spec, Forall (λ t, Type_ t ≠ TAG_TYPE_UNSPECIFIED) (TagSpecs spec))
         specs →
  (i + length specs ≤ length (TagFamilyTRule (indexRuleLocators is_)))%nat →
  ∃ r, familiesLoop E is_ sid reqs i specs fields tfs = Ok r.
Proof.
  intros Hs. revert i fields tfs.
  induction Hs as [|spec specs Hspec _ IH]; intros i fields tfs Hlen; simpl;
    [eauto|].
  simpl in Hlen.
  destruct (lookup_lt_is_Some_2 (TagFamilyTRule (indexRuleLocators is_)) i)
    as [tfr ->]; [lia|].
  destruct (tagsLoop_supported tfr (EntitySet (indexRuleLocators is_)) sid
              (reqs !! i) (TagSpecs spec) 0 fields [] Hspec) as [[f vals] ->].
  simpl. apply IH. lia.
Qed.

End Supported.

(** ** Element IDs and stored tag values *)

Lemma storedSlots_length es j specs :
  length (storedSlots es j specs)
  = (length specs - length (filter (λ t, isStored es t = false) specs))%nat.
Proof.
  revert j. induction specs as [|t specs IH]; intros j; simpl; [done|].
  rewrite filter_cons.
  pose proof (length_filter (λ t, isStored es t = false) specs).
  destruct (decide (isStored es t = false)) as [Hs|Hs].
  - rewrite Hs. simpl. by rewrite IH.
  - apply not_false_is_true in Hs. rewrite Hs. simpl. rewrite IH. lia.
Qed.

Lemma storedSlots_lookup es j0 specs k j t :
  storedSlots es j0 specs !! k = Some (j, t) →
  (j0 ≤ j)%nat ∧ specs !! (j - j0)%nat = Some t ∧ isStored es t = true.
Proof.
  revert j0 k. induction specs as [|t' specs IH]; intros j0 k; simpl; [done|].
  assert (∀ k', storedSlots es (S j0) specs !! k' = Some (j, t) →
                (j0 ≤ j)%nat ∧ (t' :: specs) !! (j - j0)%nat = Some t
                ∧ isStored es t = true) as Hrest.
  { intros k' Hk'. apply IH in Hk' as (Hle & Hl & Hs).
    split; [lia|]. split; [|done].
    replace (j - j0)%nat with (S (j - S j0)) by lia. done. }
  destruct (isStored es t') eqn:Hs; [|apply Hrest].
  destruct k as [|k]; simpl; [|apply Hrest].
  intros [= <- <-]. rewrite Nat.sub_diag. done.
Qed.

Lemma storedSlots_covers es j0 specs j t :
  specs !! j = Some t → isStored es t = true →
  ∃ k, storedSlots es j0 specs !! k = Some ((j0 + j)%nat, t).
Proof.
  revert j0 j. induction specs as [|t' specs IH]; intros j0 j; simpl; [done|].
  destruct j as [|j]; simpl.
  - intros [= ->] ->. exists 0%nat. simpl. by rewrite Nat.add_0_r.
  - intros Hj Hs. destruct (IH (S j0) j Hj Hs) as [k Hk].
    replace (j0 + S j)%nat with (S j0 + j)%nat by lia.
    destruct (isStored es t'); [by exists (S k)|by exists k].
Qed.

Section Values.
Variable E : Env.

Lemma encodeTagValue_tag name ty v tv :
  encodeTagValue E name ty v = Ok tv →
  tag tv = name ∧ valueType tv = valueTypeOf ty ∧ indexed tv = false.
Proof.
  destruct ty; simpl; try done; try (by intros [= <-]).
  - destruct (GetStrArray v); by intros [= <-].
  - destruct (GetIntArray v); by intros [= <-].
Qed.

Lemma encodeTagValue_null t tv :
  encodeTagValue E (TagName t) (Type_ t) NullTagValue = Ok tv →
  tv = nullValue t.
Proof. unfold nullValue. destruct (Type_ t); simpl; by intros [= <-]. Qed.

Lemma slotValue_null tfr tagFamily j t tv :
  tagValueAt tagFamily j = None →
  slotValue E tfr tagFamily (j, t) tv → tv = nullValue t.
Proof.
  intros Hnone (tv0 & Henc & ->). simpl in *.
  unfold indexedFlag. rewrite Hnone in *. simpl in Henc.
  apply encodeTagValue_null in Henc as ->.
  by destruct (tfr !! TagName t).
Qed.

Lemma tagsLoop_Ok tfr es sid tagFamily specs j fields vals fields' vals' :
  tagsLoop E tfr es sid tagFamily j specs fields vals = Ok (fields', vals') →
  ∃ new, vals' = vals ++ new
         ∧ Forall2 (slotValue E tfr tagFamily) (storedSlots es j specs) new.
Proof.
  revert j fields vals.
  induction specs as [|t specs IH]; intros j fields vals; simpl.
  - intros [= <- <-]. exists []. by rewrite app_nil_r.
  - set (rule := match tfr !! TagName t, tagValueAt tagFamily j with
                 | Some r, Some v => _ | _, _ => _ end).
    assert (∀ f b, rule = Ok (f, b) → b = indexedFlag tfr tagFamily j t) as Hflag.
    { intros f b. subst rule. unfold indexedFlag.
      destruct (tfr !! TagName t) as [r|]; [|by intros [= <- <-]].
      destruct (tagValueAt tagFamily j) as [v|]; [|by intros [= <- <-]].
      destruct (RuleType r); try (by intros [= <- <-]).
      destruct (appendField _ _ _ _ _); simpl; try done. by intros [= <- <-]. }
    destruct rule as [[fields1 b]|e|s]; simpl; try done.
    rewrite (Hflag _ _ eq_refl). clear Hflag.
    unfold isStored.
    destruct (IndexedOnly t || bool_decide (TagName t ∈ es)); simpl.
    + apply IH.
    + destruct (encodeTagValue E (TagName t) (Type_ t) _) as [tv0|e|s] eqn:Henc;
        simpl; try done.
      intros H. apply IH in H as (new & -> & HF).
      eexists (_ :: new). rewrite <- app_assoc. split; [reflexivity|].
      constructor; [|done]. by exists tv0.
Qed.

Lemma familiesLoop_Ok is_ sid reqs specs i fields tfs fields' tfs' :
  familiesLoop E is_ sid reqs i specs fields tfs = Ok (fields', tfs') →
  ∃ valss,
    length valss = length specs
    ∧ tfs' = tfs ++ materialise specs valss
    ∧ ∀ k spec vals,
        specs !! k = Some spec → valss !! k = Some vals →
        ∃ tfr,
          TagFamilyTRule (indexRuleLocators is_) !! (i + k)%nat = Some tfr
          ∧ Forall2 (slotValue E tfr (reqs !! (i + k)%nat))
              (storedSlots (EntitySet (indexRuleLocators is_)) 0 (TagSpecs spec))
              vals.
Proof.
  revert i fields tfs.
  induction specs as [|spec specs IH]; intros i fields tfs; simpl.
  - intros [= <- <-]. exists []. by rewrite app_nil_r.
  - destruct (TagFamilyTRule (indexRuleLocators is_) !! i) as [tfr|] eqn:Htfr;
      [|done].
    destruct (tagsLoop E tfr _ sid (reqs !! i) 0 (TagSpecs spec) fields [])
      as [[fields1 vals]|e|s] eqn:Hloop; simpl; try done.
    apply tagsLoop_Ok in Hloop as (new & -> & Hnew). simpl.
    intros H. apply IH in H as (valss & Hlen & -> & Hk).
    exists (new :: valss). split; [simpl; by rewrite Hlen|]. split.
    + simpl. destruct (0 <? length new)%nat; [|done].
      by rewrite <- app_assoc.
    + intros [|k] spec' vals'; simpl.
      * intros [= <-] [= <-]. exists tfr. by rewrite Nat.add_0_r.
      * intros Hs Hv. destruct (Hk k spec' vals' Hs Hv) as (tfr' & Ht' & HF').
        exists tfr'. by replace (i + S k)%nat with (S i + k)%nat by lia.
Qed.

(** C6.  When [processElements] accepts an event, the element ID it
    appends to the table's batch is the hash of the stream name, the
    character [|] and the client's element ID, whatever the builder held
    before; the same ID is that of the element's index document.  For
    [handle]: the table of the event's group that took the event ends
    with that element ID, next to the event's timestamp. *)
Theorem elementID_is_hash_of_name_and_id :
  (∀ et eg ev ts st et' eg' st',
     processElements E et eg ev ts st = (Ok (et', eg'), st') →
     elementIDs (tableElements et')
     = elementIDs (tableElements et)
       ++ [HashStr E (Name (RequestMetadata (Request ev)) +:+ "|"
                      +:+ ElementId (Element (Request ev)))]
     ∧ DocID <$> tableDocs et'
       = (DocID <$> tableDocs et) ++ [HashStr E (docIDString ev)]
     ∧ timestamps (tableElements et') = timestamps (tableElements et) ++ [ts])
  ∧ (∀ dst ev st dst' st',
       handle E dst ev st = (Ok dst', st') →
       ∃ g i et,
         dst' !! groupOf ev = Some g
         ∧ tables g !! i = Some et
         ∧ last (elementIDs (tableElements et)) = Some (HashStr E (docIDString ev))
         ∧ last (timestamps (tableElements et))
           = Some (Timestamp (Element (Request ev)))).
Proof.
  split.
  - intros et eg ev ts st et' eg' st' H.
    apply processElements_Ok in H
      as (stm & buf & sid & fields & tfs & _ & _ & _ & _ & -> & _). simpl.
    split; [done|]. split; [|done]. by rewrite fmap_app.
  - intros dst ev st dst' st' H.
    apply handle_Ok in H
      as (db & eg0 & eg1 & eg2 & i & et & st1 & st2 & et' & eg3
          & _ & _ & _ & Ht & Hi & Hp & ->).
    apply processElements_Ok in Hp
      as (stm & buf & sid & fields & tfs & _ & _ & _ & _ & -> & Heg3).
    assert (tables eg3 = tables eg2) as Ht3
      by (rewrite Heg3; by case_bool_decide).
    eexists _, i, _. rewrite lookup_insert_eq. split; [reflexivity|]. simpl.
    rewrite Ht3, list_lookup_insert_eq by (by eapply lookup_lt_Some).
    split; [reflexivity|]. simpl. by rewrite !last_snoc.
Qed.

Lemma processElements_stored et eg ev ts st et' eg' st' :
  processElements E et eg ev ts st = (Ok (et', eg'), st') →
  ∃ stm valss,
    loadStream E (trace st) (RequestMetadata (Request ev)) = Some stm
    ∧ tagFamilies (tableElements et')
      = tagFamilies (tableElements et)
        ++ [materialise (SchemaTagFamilies (schema stm)) valss]
    ∧ familiesStored E stm (TagFamilies (Element (Request ev))) valss.
Proof.
  intros H. apply processElements_Ok in H
    as (stm & buf & sid & fields & tfs & Hstm & _ & Hloop & _ & -> & _).
  apply familiesLoop_Ok in Hloop as (valss & Hlen & -> & Hfam).
  exists stm, valss. simpl. split; [done|]. split; [done|].
  split; [done|]. intros i spec vals Hspec Hvals.
  destruct (Hfam i spec vals Hspec Hvals) as (tfr & _ & HF). simpl in HF.
  split; [by exists tfr|]. split.
  - rewrite <- (Forall2_length _ _ _ HF). apply storedSlots_length.
  - intros j t Hj Hio Hent.
    assert (isStored (EntitySet (indexRuleLocators (streamIndexSchema stm))) t
            = true) as Hs.
    { unfold isStored. rewrite Hio. by rewrite bool_decide_eq_false_2. }
    destruct (storedSlots_covers _ 0 _ _ _ Hj Hs) as [k Hk]. simpl in Hk.
    destruct (Forall2_lookup_l _ _ _ _ _ HF Hk) as (tv & Htv & Hsv).
    exists k, tv. split; [done|]. split; [done|].
    destruct Hsv as (tv0 & Henc & ->). simpl in *.
    destruct (encodeTagValue_tag _ _ _ _ Henc) as (Htag & Hty & _).
    split; [done|]. split; [done|]. intros Hnone.
    eapply slotValue_null; [done|]. by exists tv0.
Qed.

(** C9.  When an event is accepted, the entry appended to the
    [tagFamilies] of the table's batch is made of one list of values per
    family of the schema, the families without a value being left out.
    The list of a family holds exactly one value for each of its tag
    specs that is neither an entity tag nor indexed only, in the order of
    the schema: the encoding of the value the request gives at that
    position and, where the request has no such family or no such tag, a
    value with the tag's name, the value type of the tag's declared type
    and nil contents.  So the number of values of a family is the number
    of its tag specs minus those that are entity tags or indexed only.
    This holds for [processElements], and for [handle] of the table that
    took the event. *)
Theorem one_stored_value_per_tag_spec :
  (∀ et eg ev ts st et' eg' st',
     processElements E et eg ev ts st = (Ok (et', eg'), st') →
     ∃ stm valss,
       loadStream E (trace st) (RequestMetadata (Request ev)) = Some stm
       ∧ tagFamilies (tableElements et')
         = tagFamilies (tableElements et)
           ++ [materialise (SchemaTagFamilies (schema stm)) valss]
       ∧ familiesStored E stm (TagFamilies (Element (Request ev))) valss)
  ∧ (∀ dst ev st dst' st',
       handle E dst ev st = (Ok dst', st') →
       ∃ g i et tr stm valss,
         dst' !! groupOf ev = Some g
         ∧ tables g !! i = Some et
         ∧ loadStream E tr (RequestMetadata (Request ev)) = Some stm
         ∧ last (tagFamilies (tableElements et))
           = Some (materialise (SchemaTagFamilies (schema stm)) valss)
         ∧ familiesStored E stm (TagFamilies (Element (Request ev))) valss).
Proof.
  split; [apply processElements_stored|].
  intros dst ev st dst' st' H.
  apply handle_Ok in H
    as (db & eg0 & eg1 & eg2 & i & et & st1 & st2 & et' & eg3
        & _ & _ & _ & Ht & Hi & Hp & ->).
  pose proof (processElements_stored _ _ _ _ _ _ _ _ Hp)
    as (stm & valss & Hstm & Htf & Hstored).
  apply processElements_Ok in Hp
    as (stm' & buf & sid & fields & tfs & _ & _ & _ & _ & _ & Heg3).
  assert (tables eg3 = tables eg2) as Ht3
    by (rewrite Heg3; by case_bool_decide).
  exists (setTables eg3 (<[i := et']> (tables eg3))), i, et', (trace st2), stm, valss.
  rewrite lookup_insert_eq. split; [done|]. simpl.
  rewrite Ht3, list_lookup_insert_eq by (by eapply lookup_lt_Some).
  split; [done|]. split; [done|]. split; [|done].
  by rewrite Htf, last_snoc.
Qed.

End Values.

(** *** Concrete runs *)

Lemma one_stored_value_per_tag_spec_witness :
  ∃ stm valss,
    loadStream env [] (RequestMetadata (Request ev1)) = Some stm
    ∧ familiesStored env stm (TagFamilies (Element (Request ev1))) valss.
Proof.
  destruct (proj1 (one_stored_value_per_tag_spec env) table0 group0 ev1 t0 st0
              (valueOr (table0, group0)
                 (processElements env table0 group0 ev1 t0 st0)).1
              (valueOr (table0, group0)
                 (processElements env table0 group0 ev1 t0 st0)).2
              (processElements env table0 group0 ev1 t0 st0).2)
    as (stm & valss & Hstm & _ & Hstored).
  - vm_compute. reflexivity.
  - exists stm, valss. split; assumption.
Defined.


Lemma Rev_skips_and_resets_witness :
  Rev env (DataEvents [EventRequest ev1; EventRequest evBad; EventRequest ev2]) st0
  = (revLoop env ∅ [EventRequest ev2] ≫= commit env)
      (record cannotHandle
         (handle env (valueOr ∅ (revLoop env ∅ [EventRequest ev1] st0)) evBad
            (revLoop env ∅ [EventRequest ev1] st0).2).2).
Proof.
  apply (proj2 (proj2 (proj2 (proj2 (Rev_skips_and_resets env))))
           [EventRequest ev1] (EventRequest evBad) [EventRequest ev2] evBad st0
           (valueOr ∅ (revLoop env ∅ [EventRequest ev1] st0))
           (revLoop env ∅ [EventRequest ev1] st0).2 ErrNoTagFamily).
  - vm_compute. reflexivity.
  - reflexivity.
  - vm_compute. reflexivity.
Defined.

Lemma elementID_is_hash_of_name_and_id_witness :
  ∃ g i et,
    valueOr ∅ (handle env ∅ ev1 st0) !! "g" = Some g
    ∧ tables g !! i = Some et
    ∧ last (elementIDs (tableElements et)) = Some (HashStr env "svc|e1").
Proof.
  destruct (proj2 (elementID_is_hash_of_name_and_id env) ∅ ev1 st0
              (valueOr ∅ (handle env ∅ ev1 st0)) (handle env ∅ ev1 st0).2)
    as (g & i & et & Hg & Hi & Hid & _).
  - vm_compute. reflexivity.
  - exists g, i, et. repeat split; assumption.
Defined.

End StreamFacts.

(* ===================================================================== *)
(** * More facts about the stream write path *)
(* ===================================================================== *)

Module StreamMoreFacts.
Import Stream StreamMore StreamFacts.

(** ** Tools *)

Lemma collect_insert {A} (f : elementsInGroup → list A)
    (groups : gmap string elementsInGroup) gn g :
  collect f (<[gn := g]> groups) ≡ₚ f g ++ collect f (delete gn groups).
Proof.
  unfold collect. rewrite <- insert_delete_eq.
  rewrite map_to_list_insert by apply lookup_delete_eq. done.
Qed.

Lemma collect_lookup {A} (f : elementsInGroup → list A)
    (groups : gmap string elementsInGroup) gn g :
  groups !! gn = Some g →
  collect f groups ≡ₚ f g ++ collect f (delete gn groups).
Proof.
  intros Hg. rewrite <- (insert_id groups gn g Hg) at 1. apply collect_insert.
Qed.

Lemma collect_range {A} (E : Env) (f : elementsInGroup → list A)
    (groups : gmap string elementsInGroup) :
  range_once E →
  concat ((λ kg, f kg.2) <$> rangeGroups E groups) ≡ₚ collect f groups.
Proof. intros Hrange. unfold collect. by rewrite (Hrange groups). Qed.

Lemma rowsOf_app a b : rowsOf (a ++ b) = rowsOf a ++ rowsOf b.
Proof. apply omap_app. Qed.

Lemma indexWritesOf_app a b :
  indexWritesOf (a ++ b) = indexWritesOf a ++ indexWritesOf b.
Proof. apply omap_app. Qed.

Lemma poolOpsOf_app a b : poolOpsOf (a ++ b) = poolOpsOf a ++ poolOpsOf b.
Proof. apply omap_app. Qed.

Lemma batch_ops_no_pool_op ops : Forall isBatchOp ops → poolOpsOf ops = [].
Proof.
  induction 1 as [|op ops Hop _ IH]; [done|].
  unfold poolOpsOf in *. destruct op; simpl in *; done.
Qed.

Lemma batch_ops_no_index_write ops :
  Forall isBatchOp ops → indexWritesOf ops = [].
Proof.
  induction 1 as [|op ops Hop _ IH]; [done|].
  unfold indexWritesOf in *. destruct op; simpl in *; done.
Qed.

Section Tools.
Variable E : Env.

(** The ways [prepareElementsInTable] succeeds: a table of the group
    contains the time, and nothing is called; or a segment held contains
    it, and a table is made in it; or a segment is acquired first. *)
Lemma prepareElementsInTable_cases eg ev ts st eg' i st' :
  prepareElementsInTable E eg ev ts st = (Ok (eg', i), st') →
  (∃ et,
     list_find (λ et, Contains E (timeRange et) ts = true) (tables eg)
     = Some (i, et)
     ∧ eg' = eg ∧ st' = st)
  ∨ (list_find (λ et, Contains E (timeRange et) ts = true) (tables eg) = None
     ∧ i = length (tables eg)
     ∧ ∃ seg tb,
         (∃ j,
            list_find (λ seg, Contains E (GetTimeRange seg) ts = true)
                      (segments eg) = Some (j, seg)
            ∧ eg' = setTables eg (tables eg ++ [newTable seg tb])
            ∧ st' = record (OpCreateTSTableIfNotExist seg (ShardId ev) (Some tb)) st)
         ∨ (list_find (λ seg, Contains E (GetTimeRange seg) ts = true)
                      (segments eg) = None
            ∧ CreateSegmentIfNotExist E (trace st) (tsdb eg) ts = Some seg
            ∧ eg' = setTables (appendSegment eg seg) (tables eg ++ [newTable seg tb])
            ∧ st' = record (OpCreateTSTableIfNotExist seg (ShardId ev) (Some tb))
                      (record (OpCreateSegmentIfNotExist (tsdb eg) ts (Some seg))
                         st))).
Proof.
  unfold prepareElementsInTable.
  destruct (list_find _ (tables eg)) as [[j et]|] eqn:Hfind.
  { intros [= <- <- <-]. left. by exists et. }
  intros H. right. split; [done|].
  unfold callCreateSegmentIfNotExist, callCreateTSTableIfNotExist in H.
  destruct (list_find _ (segments eg)) as [[j seg]|] eqn:Hseg; revert H.
  - mrun.
    destruct (CreateTSTableIfNotExist E _ _ _) as [tb|] eqn:Htb; [|done].
    intros [= <- <- <-]. split; [done|]. exists seg, tb. left. by exists j.
  - mrun.
    destruct (CreateSegmentIfNotExist E _ _ _) as [seg|] eqn:Hcs; [|done].
    mrun.
    destruct (CreateTSTableIfNotExist E _ _ _) as [tb|] eqn:Htb; [|done].
    intros [= <- <- <-]. split; [done|]. exists seg, tb. right. done.
Qed.

(** A property of the entries that the three steps of [handle] keep is
    kept by [handle]. *)
Lemma handle_preserves (I : elementsInGroup → Prop) :
  (∀ db, I (newElementsInGroup db)) →
  (∀ g ts, I g → I (setLatestTS g ts)) →
  (∀ eg1 ev st1 eg2 i st2 et et' eg3 st',
     I eg1 →
     prepareElementsInTable E eg1 ev (Timestamp (Element (Request ev))) st1
     = (Ok (eg2, i), st2) →
     tables eg2 !! i = Some et →
     processElements E et eg2 ev (Timestamp (Element (Request ev))) st2
     = (Ok (et', eg3), st') →
     I (setTables eg3 (<[i := et']> (tables eg3)))) →
  ∀ dst ev st dst' st',
    map_Forall (λ _ g, I g) dst →
    handle E dst ev st = (Ok dst', st') →
    map_Forall (λ _ g, I g) dst'.
Proof.
  intros Hnew Hts Hstep dst ev st dst' st' Hinv H.
  apply handle_Ok in H
    as (db & eg0 & eg1 & eg2 & i & et & st1 & st2 & et' & eg3
        & _ & Heg0 & Heg1 & Ht & Hi & Hp & ->).
  apply map_Forall_insert_2; [|done].
  eapply Hstep; [|done..].
  assert (I eg0) as H0.
  { rewrite Heg0. destruct (dst !! groupOf ev) as [g|] eqn:Hg; simpl; [|done].
    by apply (map_Forall_lookup_1 _ _ _ _ Hinv) in Hg. }
  rewrite Heg1. destruct (_ <? _); [by apply Hts|done].
Qed.

Lemma revLoop_preserves (I : elementsInGroup → Prop) :
  (∀ dst ev st dst' st',
     map_Forall (λ _ g, I g) dst →
     handle E dst ev st = (Ok dst', st') →
     map_Forall (λ _ g, I g) dst') →
  ∀ events groups st groups' st',
    map_Forall (λ _ g, I g) groups →
    revLoop E groups events st = (Ok groups', st') →
    map_Forall (λ _ g, I g) groups'.
Proof.
  intros Hhandle events.
  induction events as [|ev events IH]; intros groups st groups' st' Hinv; simpl.
  - by intros [= <- <-].
  - rewrite M_bind_unfold.
    destruct (revStep E groups ev st) as [[g1|e|s] st1] eqn:Hs; try done.
    apply IH.
    assert (∀ e, handleOrReset E groups e st = (Ok g1, st1) →
                 map_Forall (λ _ g, I g) g1) as Hh.
    { intros e. unfold handleOrReset.
      destruct (handle E groups e st) as [[g|err|s] st2] eqn:Hh; [| |done].
      - intros [= <- <-]. by eapply Hhandle.
      - intros [= <- <-]. apply map_Forall_empty. }
    destruct ev as [e|b|]; simpl in Hs.
    + by apply Hh in Hs.
    + destruct (Unmarshal E b); [by apply Hh in Hs|]. by injection Hs as <- <-.
    + by injection Hs as <- <-.
Qed.

(** A run of [Rev] that returns: the loop over the events, then the
    flush of each entry, of which [Q] holds. *)
Lemma Rev_run (Q : elementsInGroup → Trace → Prop) events st groups st' :
  (∀ g st, ∃ block, flushGroup E g st = (Ok (), extend st block) ∧ Q g block) →
  Rev E (DataEvents events) st = (Ok (Some groups), st') →
  ∃ st1 accOps blocks,
    revLoop E ∅ events {| trace := trace st; builder := EmptyString |}
    = (Ok groups, st1)
    ∧ trace st1 = trace st ++ accOps
    ∧ Forall isBatchOp accOps
    ∧ RevOps E (DataEvents events) st = accOps ++ concat blocks
    ∧ Forall2 (λ kg block, Q kg.2 block) (rangeGroups E groups) blocks.
Proof.
  intros HQ. unfold RevOps, Rev.
  destruct (length events <? 1)%nat; [done|].
  rewrite M_bind_unfold. unfold builderReset. cbn beta iota.
  rewrite M_bind_unfold.
  set (st0 := {| trace := trace st; builder := EmptyString |}).
  destruct (adds_revLoop E events ∅ st0) as (accOps & Hacc & HF).
  destruct (revLoop E ∅ events st0) as [[g|e|s] st1] eqn:Hloop; try done.
  destruct (forEach_spec (λ kg, flushGroup E kg.2) (λ kg block, Q kg.2 block)
              (λ kg, HQ kg.2) (rangeGroups E g) st1) as (blocks & Hc & HB).
  unfold commit. rewrite M_bind_unfold, Hc. intros [= <- <-].
  exists st1, accOps, blocks. simpl in Hacc.
  split; [done|]. split; [done|]. split; [done|]. split; [|done].
  simpl. rewrite Hacc, <- app_assoc. apply drop_trace_app.
Qed.

End Tools.

(** ** Batches are aligned, and index documents go with the rows *)

Section Batches.
Variable E : Env.

Lemma processElements_table et eg ev ts st et' eg' st' :
  processElements E et eg ev ts st = (Ok (et', eg'), st') →
  aligned (tableElements et) → mirrors (tableDocs et) (tableElements et) →
  tableInv et' ∧ timeRange et' = timeRange et ∧ tsTable et' = tsTable et
  ∧ timestamps (tableElements et') = timestamps (tableElements et) ++ [ts]
  ∧ tables eg' = tables eg ∧ segments eg' = segments eg.
Proof.
  intros H (Ha1 & Ha2 & Ha3) (Hm1 & Hm2).
  apply processElements_Ok in H
    as (stm & buf & sid & fields & tfs & _ & _ & _ & _ & -> & ->).
  split; [|by case_bool_decide].
  split; simpl.
  - unfold aligned. simpl. rewrite !length_app. simpl. lia.
  - unfold mirrors. simpl. rewrite !fmap_app. simpl. by rewrite Hm1, Hm2.
  - by destruct (timestamps (tableElements et)).
Qed.

Lemma newTable_aligned seg tb :
  aligned (tableElements (newTable seg tb))
  ∧ mirrors (tableDocs (newTable seg tb)) (tableElements (newTable seg tb)).
Proof. done. Qed.

Lemma handle_tables dst ev st dst' st' :
  map_Forall (λ _ g, Forall tableInv (tables g)) dst →
  handle E dst ev st = (Ok dst', st') →
  map_Forall (λ _ g, Forall tableInv (tables g)) dst'.
Proof.
  apply (handle_preserves E (λ g, Forall tableInv (tables g))).
  - intros db. constructor.
  - done.
  - intros eg1 ev' st1 eg2 i st2 et et' eg3 st3 Hinv Ht Hi Hp. simpl.
    apply prepareElementsInTable_cases in Ht
      as [(et0 & Hfind & -> & ->)
         |(Hnone & -> & seg & tb & [(j & _ & -> & _)|(_ & _ & -> & _)])].
    + assert (tableInv et) as [Ha Hm _]
        by (eapply Forall_lookup_1; [apply Hinv|apply Hi]).
      destruct (processElements_table _ _ _ _ _ _ _ _ Hp Ha Hm)
        as (Hinv' & _ & _ & _ & -> & _).
      by apply Forall_insert.
    + simpl in Hi. rewrite lookup_app_r, Nat.sub_diag in Hi by done.
      injection Hi as <-.
      destruct (processElements_table _ _ _ _ _ _ _ _ Hp
                  (proj1 (newTable_aligned seg tb))
                  (proj2 (newTable_aligned seg tb)))
        as (Hinv' & _ & _ & _ & -> & _). simpl.
      rewrite insert_app_r_alt, Nat.sub_diag by done. simpl.
      apply Forall_app. split; [done|]. by apply Forall_singleton.
    + simpl in Hi. rewrite lookup_app_r, Nat.sub_diag in Hi by done.
      injection Hi as <-.
      destruct (processElements_table _ _ _ _ _ _ _ _ Hp
                  (proj1 (newTable_aligned seg tb))
                  (proj2 (newTable_aligned seg tb)))
        as (Hinv' & _ & _ & _ & -> & _). simpl.
      rewrite insert_app_r_alt, Nat.sub_diag by done. simpl.
      apply Forall_app. split; [done|]. by apply Forall_singleton.
Qed.

Lemma flushTable_index es st :
  ∃ ops, flushTable E es st = (Ok (), extend st ops)
         ∧ rowsOf ops = [(tsTable es, tableElements es)]
         ∧ indexWritesOf ops
           = (if tableDocs es is [] then [] else [(tsTable es, tableDocs es)]).
Proof.
  unfold flushTable. mrun.
  destruct (tableDocs es) as [|d ds] eqn:Hd; simpl.
  - unfold emit, mret, M_ret. rewrite !record_extend, !extend_extend.
    eexists. split; [reflexivity|]. done.
  - mrun. unfold callIndexWrite.
    destruct (IndexWrite E _ _ _); simpl; unfold emit, mret, M_ret;
      rewrite !record_extend, !extend_extend; eexists;
      (split; [reflexivity|]); done.
Qed.

Lemma flushSegment_index ds seg st :
  ∃ ops, flushSegment E ds seg st = (Ok (), extend st ops)
         ∧ rowsOf ops = [] ∧ indexWritesOf ops = [].
Proof.
  unfold flushSegment. mrun. unfold callIndexDBInsert.
  destruct (IndexDBInsert E _ _ _); simpl; mrun; unfold emit, mret, M_ret;
    rewrite !record_extend, !extend_extend; eexists;
    (split; [reflexivity|]); done.
Qed.

(** The flush of a group commits the rows of each table, in the order of
    [tables], and writes the index documents of each table that has
    some. *)
Lemma flushGroup_index g st :
  ∃ block,
    flushGroup E g st = (Ok (), extend st block)
    ∧ rowsOf block = (λ et, (tsTable et, tableElements et)) <$> tables g
    ∧ indexWritesOf block
      = omap (λ et, if tableDocs et is [] then None
                    else Some (tsTable et, tableDocs et)) (tables g).
Proof.
  unfold flushGroup. rewrite M_bind_unfold.
  destruct (forEach_spec (flushTable E)
              (λ es ops, rowsOf ops = [(tsTable es, tableElements es)]
                         ∧ indexWritesOf ops
                           = (if tableDocs es is [] then []
                              else [(tsTable es, tableDocs es)]))
              flushTable_index (tables g) st) as (tops & -> & Ht).
  cbn beta iota. rewrite M_bind_unfold.
  assert (∃ sops,
    (if (0 <? length (docs g))%nat
     then forEach (flushSegment E (docs g)) (segments g) else mret ())
      (extend st (concat tops)) = (Ok (), extend (extend st (concat tops)) sops)
    ∧ rowsOf sops = [] ∧ indexWritesOf sops = []) as (sops & -> & Hs1 & Hs2).
  { destruct (0 <? length (docs g))%nat.
    - destruct (forEach_spec (flushSegment E (docs g))
                  (λ _ ops, rowsOf ops = [] ∧ indexWritesOf ops = [])
                  (flushSegment_index (docs g)) (segments g)
                  (extend st (concat tops))) as (sops & -> & Hs).
      exists (concat sops). split; [done|].
      clear -Hs. induction Hs as [|seg ops l opss [H1 H2] _ [IH1 IH2]]; [done|].
      simpl. by rewrite rowsOf_app, indexWritesOf_app, H1, H2, IH1, IH2.
    - exists []. by rewrite extend_nil. }
  cbn beta iota. unfold emit. rewrite record_extend, !extend_extend.
  eexists. split; [reflexivity|].
  rewrite !rowsOf_app, !indexWritesOf_app, Hs1, Hs2. simpl.
  rewrite !app_nil_r. clear -Ht.
  induction Ht as [|es ops l opss [H1 H2] _ [IH1 IH2]]; [done|].
  simpl. rewrite rowsOf_app, indexWritesOf_app, H1, H2, IH1, IH2.
  split; [done|]. by destruct (tableDocs es).
Qed.

Lemma tableInv_docs et : tableInv et → tableDocs et ≠ [].
Proof.
  intros [_ [_ Hm] Hrow] Hnil. rewrite Hnil in Hm. simpl in Hm.
  by rewrite <- Hm in Hrow.
Qed.

Lemma omap_table_docs ets :
  Forall tableInv ets →
  omap (λ et, if tableDocs et is [] then None
              else Some (tsTable et, tableDocs et)) ets
  = (λ et, (tsTable et, tableDocs et)) <$> ets.
Proof.
  induction 1 as [|et ets Het _ IH]; [done|].
  apply tableInv_docs in Het. rewrite fmap_cons, <- IH. simpl.
  by destruct (tableDocs et).
Qed.

Hypothesis Hrange : range_once E.

Lemma Rev_tables events st groups st' :
  Rev E (DataEvents events) st = (Ok (Some groups), st') →
  ∃ ets,
    Forall tableInv ets
    ∧ concat ((λ kg, tables kg.2) <$> rangeGroups E groups) = ets
    ∧ rowsOf (RevOps E (DataEvents events) st)
      = (λ et, (tsTable et, tableElements et)) <$> ets
    ∧ indexWritesOf (RevOps E (DataEvents events) st)
      = (λ et, (tsTable et, tableDocs et)) <$> ets.
Proof.
  intros H.
  destruct (Rev_run E _ _ _ _ _ (flushGroup_index) H)
    as (st1 & accOps & blocks & Hloop & _ & Hacc & -> & HB).
  assert (map_Forall (λ _ g, Forall tableInv (tables g)) groups) as Hinv.
  { refine (revLoop_preserves E _ handle_tables _ _ _ _ _ _ Hloop).
    apply map_Forall_empty. }
  assert (Forall (λ kg, Forall tableInv (tables kg.2)) (rangeGroups E groups))
    as Hall.
  { apply Forall_forall. intros [gn g] Hin. simpl.
    rewrite (Hrange groups) in Hin. apply elem_of_map_to_list in Hin.
    by apply (map_Forall_lookup_1 _ _ _ _ Hinv) in Hin. }
  eexists. split; [|split; [reflexivity|]].
  - apply Forall_concat, Forall_fmap. exact Hall.
  - rewrite rowsOf_app, indexWritesOf_app.
    destruct (batch_ops_projections _ Hacc) as (_ & _ & _ & ->).
    rewrite (batch_ops_no_index_write _ Hacc). simpl.
    clear Hloop Hinv Hacc H. revert Hall.
    induction HB as [|kg block l blocks [Hr Hi] _ IH]; [done|].
    intros [Hkg Hl]%Forall_cons. destruct (IH Hl) as [IH1 IH2].
    simpl. rewrite rowsOf_app, indexWritesOf_app, !fmap_app, Hr, Hi, IH1, IH2.
    split; [done|]. f_equal. by apply omap_table_docs.
Qed.

(** X1.  Every batch [Rev] commits with [mustAddElements] is aligned: its
    four columns (timestamps, element IDs, series IDs, tag families) have
    one length, and it holds at least one row. *)
Theorem committed_batches_are_aligned events st groups st' :
  Rev E (DataEvents events) st = (Ok (Some groups), st') →
  Forall (λ row, aligned row.2 ∧ timestamps row.2 ≠ [])
         (rowsOf (RevOps E (DataEvents events) st)).
Proof.
  intros H. destruct (Rev_tables _ _ _ _ H) as (ets & Hets & _ & -> & _).
  apply Forall_fmap. eapply Forall_impl; [exact Hets|].
  intros et [Ha _ Hrow]. by split.
Qed.

(** X2.  In a run of [Rev], every batch committed has its index write:
    the calls of [Index().Write] are as many as the calls of
    [mustAddElements], in the same order, on the same tables, and the
    documents written carry the element IDs and the timestamps of the
    rows of the batch, row by row. *)
Theorem index_documents_mirror_rows events st groups st' :
  Rev E (DataEvents events) st = (Ok (Some groups), st') →
  Forall2 (λ row written, written.1 = row.1 ∧ mirrors written.2 row.2)
          (rowsOf (RevOps E (DataEvents events) st))
          (indexWritesOf (RevOps E (DataEvents events) st)).
Proof.
  intros H. destruct (Rev_tables _ _ _ _ H) as (ets & Hets & _ & -> & ->).
  apply Forall2_fmap. clear -Hets.
  induction Hets as [|et ets [_ Hm _] _ IH]; constructor; [|done].
  by split.
Qed.

End Batches.

(** ** One row per accepted event *)

Section Rows.
Variable E : Env.

Lemma allTimestamps_empty : allTimestamps ∅ = [].
Proof. unfold allTimestamps, collect. by rewrite map_to_list_empty. Qed.

Lemma handle_rows dst ev st dst' st' :
  handle E dst ev st = (Ok dst', st') →
  allTimestamps dst'
  ≡ₚ allTimestamps dst ++ [Timestamp (Element (Request ev))].
Proof.
  intros H. apply handle_effect in H as (db & g' & buf & sid & H).
  cbn zeta in H. destruct H as (-> & _ & _ & Hrows & _).
  unfold allTimestamps. rewrite collect_insert, Hrows.
  destruct (dst !! groupOf ev) as [g|] eqn:Hg; simpl.
  - rewrite (collect_lookup groupTimestamps dst _ _ Hg).
    rewrite <- Permutation_cons_append. done.
  - rewrite delete_id by done. unfold groupTimestamps at 1. simpl.
    apply Permutation_cons_append.
Qed.

Lemma revStep_rows groups ev st groups' st' :
  revStep E groups ev st = (Ok groups', st') →
  ∃ ops, trace st' = trace st ++ ops
         ∧ (cannotHandle ∉ ops →
            allTimestamps groups'
            ≡ₚ allTimestamps groups ++ handledTimestamps E [ev]).
Proof.
  assert (∀ e, requestOf E ev = Some e →
    handleOrReset E groups e st = (Ok groups', st') →
    ∃ ops, trace st' = trace st ++ ops
           ∧ (cannotHandle ∉ ops →
              allTimestamps groups'
              ≡ₚ allTimestamps groups ++ handledTimestamps E [ev])) as Hh.
  { intros e He. unfold handleOrReset, handledTimestamps. simpl. rewrite He.
    destruct (adds_handle E groups e st) as (ops & Hops & _).
    destruct (handle E groups e st) as [[g|err|s] st1] eqn:Hh; [| |done].
    - intros [= <- <-]. exists ops. split; [done|]. intros _.
      by apply handle_rows in Hh.
    - intros [= <- <-]. simpl in *. exists (ops ++ [cannotHandle]).
      rewrite Hops, <- app_assoc. split; [done|]. intros Hnot.
      exfalso. apply Hnot. apply elem_of_app. right. by left. }
  destruct ev as [e|b|]; simpl.
  - by apply Hh.
  - destruct (Unmarshal E b) as [e|] eqn:Hb; [by apply Hh|].
    intros [= <- <-]. eexists [_]. split; [done|]. intros _.
    unfold handledTimestamps. simpl. rewrite Hb. simpl. by rewrite app_nil_r.
  - intros [= <- <-]. eexists [_]. split; [done|]. intros _.
    unfold handledTimestamps. simpl. by rewrite app_nil_r.
Qed.

Lemma handledTimestamps_cons ev events :
  handledTimestamps E (ev :: events)
  = handledTimestamps E [ev] ++ handledTimestamps E events.
Proof.
  unfold handledTimestamps. simpl. destruct (requestOf E ev); done.
Qed.

Lemma revLoop_rows events groups st groups' st' :
  revLoop E groups events st = (Ok groups', st') →
  ∃ ops, trace st' = trace st ++ ops
         ∧ (cannotHandle ∉ ops →
            allTimestamps groups'
            ≡ₚ allTimestamps groups ++ handledTimestamps E events).
Proof.
  revert groups st. induction events as [|ev events IH]; intros groups st.
  - intros [= <- <-]. exists []. rewrite !app_nil_r. done.
  - change (revLoop E groups (ev :: events) st)
      with ((revStep E groups ev ≫= λ g, revLoop E g events) st).
    rewrite M_bind_unfold.
    destruct (revStep E groups ev st) as [[g1|e|s] st1] eqn:Hs; try done.
    apply revStep_rows in Hs as (ops1 & Hst1 & Hrows1).
    intros H. apply IH in H as (ops2 & Hst2 & Hrows2).
    exists (ops1 ++ ops2). rewrite Hst2, Hst1, <- app_assoc. split; [done|].
    intros Hnot. rewrite handledTimestamps_cons, app_assoc.
    rewrite <- Hrows1, <- Hrows2; [done| |];
      intros Hin; apply Hnot, elem_of_app; auto.
Qed.

Hypothesis Hrange : range_once E.

(** X3.  In a run of [Rev] in which no call of [handle] returned an error,
    every event that reached [handle] (typed, or bytes that unmarshal) is
    committed as exactly one row: the timestamps of the rows handed to
    [mustAddElements] are, up to order, the timestamps of those events,
    each as often as it occurs. *)
Theorem one_row_per_handled_event events st groups st' :
  Rev E (DataEvents events) st = (Ok (Some groups), st') →
  cannotHandle ∉ RevOps E (DataEvents events) st →
  concat ((λ row, timestamps row.2) <$> rowsOf (RevOps E (DataEvents events) st))
  ≡ₚ handledTimestamps E events
  ∧ length (concat ((λ row, timestamps row.2)
                      <$> rowsOf (RevOps E (DataEvents events) st)))
    = length (omap (requestOf E) events).
Proof.
  intros H Hnot.
  assert (concat ((λ row, timestamps row.2)
                    <$> rowsOf (RevOps E (DataEvents events) st))
          ≡ₚ handledTimestamps E events) as Hperm.
  { destruct (Rev_tables E Hrange _ _ _ _ H) as (ets & _ & Hets & Hrows & _).
    destruct (Rev_run E _ _ _ _ _ (flushGroup_index E) H)
      as (st1 & accOps & blocks & Hloop & Hst1 & _ & Hops & _).
    apply revLoop_rows in Hloop as (ops & Hst1' & Hall). simpl in Hst1'.
    rewrite Hst1 in Hst1'. apply app_inv_head in Hst1'. subst ops.
    rewrite allTimestamps_empty in Hall. simpl in Hall.
    rewrite <- Hall.
    2:{ intros Hin. apply Hnot. rewrite Hops. apply elem_of_app. by left. }
    rewrite Hrows, <- list_fmap_compose, <- Hets.
    unfold allTimestamps. rewrite <- (collect_range E groupTimestamps _ Hrange).
    clear. induction (rangeGroups E groups) as [|kg l IH]; [done|].
    simpl. rewrite fmap_app, concat_app, IH. done. }
  split; [done|]. rewrite Hperm. unfold handledTimestamps.
  by rewrite length_fmap.
Qed.

End Rows.

(** ** Routing to segments and tables *)

Section Routing.
Variable E : Env.

Lemma processElements_call et eg ev ts st et' eg' st' :
  processElements E et eg ev ts st = (Ok (et', eg'), st') →
  trace st' = trace st ++ [OpLoadStream (RequestMetadata (Request ev)) true].
Proof.
  unfold processElements. repeat (rewrite M_bind_unfold; simpl).
  unfold callLoadStream. simpl.
  destruct (loadStream E (trace st) _) as [stm'|]; [|done].
  destruct (_ <? 1)%nat; [done|]. destruct (_ <? _)%nat; [done|].
  destruct (Marshal E _ _) as [[buf' sid']|]; [|done].
  destruct (negb _); [done|].
  rewrite M_bind_unfold. unfold lift.
  destruct (familiesLoop _ _ _ _ _ _ _ _) as [[fields' tfs']|e|s]; try done.
  by intros [= _ _ <-].
Qed.

(** X4.  An event whose time lies in the range of a table already open in
    its group is written to the first such table, whatever its shard:
    [handle] then calls [loadTSDB] and [loadStream] and nothing else, no
    segment is acquired, no table is made, and the group keeps its tables'
    handles and its segments. *)
Theorem open_table_is_reused dst ev st dst' st' g i et :
  dst !! groupOf ev = Some g →
  list_find (λ et, Contains E (timeRange et) (Timestamp (Element (Request ev)))
                   = true) (tables g) = Some (i, et) →
  handle E dst ev st = (Ok dst', st') →
  ∃ db g' et',
    trace st' = trace st ++ [OpLoadTSDB (groupOf ev) (Some db);
                             OpLoadStream (RequestMetadata (Request ev)) true]
    ∧ dst' = <[groupOf ev := g']> dst
    ∧ segments g' = segments g
    ∧ tables g' = <[i := et']> (tables g)
    ∧ tsTable et' = tsTable et ∧ timeRange et' = timeRange et
    ∧ timestamps (tableElements et')
      = timestamps (tableElements et) ++ [Timestamp (Element (Request ev))].
Proof.
  intros Hg Hfind H. unfold handle in H.
  destruct (negb _); [done|]. rewrite M_bind_unfold in H.
  unfold prepareElementsInGroup, callLoadTSDB in H. revert H. mrun.
  destruct (loadTSDB E (trace st) _) as [db|] eqn:Hdb; [|done].
  fold (groupOf ev). rewrite Hg.
  set (ts := Timestamp (Element (Request ev))) in *.
  set (eg1 := if latestTS g <? ts then setLatestTS g ts else g).
  assert (tables eg1 = tables g ∧ segments eg1 = segments g) as [Ht1 Hs1]
    by (subst eg1; by destruct (_ <? _)).
  unfold prepareElementsInTable. rewrite Ht1, Hfind. mrun.
  rewrite Ht1. apply list_find_Some in Hfind as (Hi & _ & _). rewrite Hi.
  mrun.
  destruct (processElements E et eg1 ev ts _) as [[[et' eg3]|e|s] st3] eqn:Hp;
    try done.
  intros [= <- <-].
  pose proof (processElements_call _ _ _ _ _ _ _ _ Hp) as Hst3.
  apply processElements_Ok in Hp
    as (stm & buf & sid & fields & tfs & _ & _ & _ & _ & Het' & Heg3).
  assert (tables eg3 = tables eg1 ∧ segments eg3 = segments eg1) as [Ht3 Hs3]
    by (rewrite Heg3; by case_bool_decide).
  exists db, (setTables eg3 (<[i := et']> (tables eg3))), et'.
  split; [by rewrite Hst3; simpl; rewrite <- app_assoc|].
  split; [by rewrite insert_insert_eq|]. simpl.
  split; [congruence|]. split; [congruence|]. by rewrite Het'.
Qed.

Lemma routed_new db : routed E (newElementsInGroup db).
Proof. split; simpl; constructor. Qed.

Lemma routed_step eg1 ev st1 eg2 i st2 et et' eg3 st' :
  segmentContract E →
  routed E eg1 →
  prepareElementsInTable E eg1 ev (Timestamp (Element (Request ev))) st1
  = (Ok (eg2, i), st2) →
  tables eg2 !! i = Some et →
  processElements E et eg2 ev (Timestamp (Element (Request ev))) st2
  = (Ok (et', eg3), st') →
  routed E (setTables eg3 (<[i := et']> (tables eg3))).
Proof.
  intros Hcontract [Hsegs Htabs] Ht Hi Hp.
  set (ts := Timestamp (Element (Request ev))) in *.
  pose proof Hp as Hp'.
  apply processElements_Ok in Hp'
    as (stm & buf & sid & fields & tfs & _ & _ & _ & _ & Het' & Heg3).
  assert (tables eg3 = tables eg2 ∧ segments eg3 = segments eg2) as [Ht3 Hs3]
    by (rewrite Heg3; by case_bool_decide).
  assert (timeRange et' = timeRange et
          ∧ timestamps (tableElements et')
            = timestamps (tableElements et) ++ [ts]) as [Hr' Hts']
    by (by rewrite Het').
  clear Het' Heg3 Hp.
  apply prepareElementsInTable_cases in Ht
    as [(et0 & Hfind & -> & ->)
       |(Hnone & -> & seg & tb & [(j & Hseg & -> & _)|(Hseg & Hcs & -> & _)])].
  - apply list_find_Some in Hfind as (Hi0 & Hin & _).
    rewrite Hi in Hi0. injection Hi0 as <-.
    split; simpl; [by rewrite Hs3|]. rewrite Ht3, Hs3.
    apply Forall_insert; [done|].
    destruct (Forall_lookup_1 _ _ _ _ Htabs Hi) as [Hsg Hrows].
    rewrite Hr', Hts'. split; [done|].
    apply Forall_app. split; [done|]. by apply Forall_singleton.
  - simpl in Hi. rewrite lookup_app_r, Nat.sub_diag in Hi by done.
    injection Hi as <-. simpl in *.
    apply list_find_Some in Hseg as (Hj & Hin & _).
    split; simpl; [by rewrite Hs3|]. rewrite Ht3, Hs3. simpl.
    rewrite insert_app_r_alt, Nat.sub_diag by done. simpl.
    apply Forall_app. split; [done|]. apply Forall_singleton.
    rewrite Hr', Hts'. simpl. split.
    + exists seg. split; [|done]. by eapply list_elem_of_lookup_2.
    + by apply Forall_singleton.
  - simpl in Hi. rewrite lookup_app_r, Nat.sub_diag in Hi by done.
    injection Hi as <-. simpl in *.
    pose proof (Hcontract _ _ _ _ Hcs) as Hin.
    assert (seg ∉ segments eg1) as Hfresh.
    { intros Hel. apply list_elem_of_lookup in Hel as [k Hk].
      eapply list_find_None in Hseg. eapply Forall_lookup_1 in Hseg; [|exact Hk].
      by apply Hseg. }
    split; simpl; rewrite ?Ht3, Hs3; simpl.
    + apply NoDup_app. split; [done|]. split; [|apply NoDup_singleton].
      intros x Hx ->%list_elem_of_singleton. done.
    + rewrite insert_app_r_alt, Nat.sub_diag by done. simpl.
      apply Forall_app. split.
      * eapply Forall_impl; [exact Htabs|]. intros et0 [(sg & Hsg & Hr) Hrows].
        split; [|done]. exists sg. split; [|done]. apply elem_of_app. by left.
      * apply Forall_singleton. rewrite Hr', Hts'. simpl. split.
        -- exists seg. split; [|done]. apply elem_of_app. right. by left.
        -- by apply Forall_singleton.
Qed.

Lemma handle_routed dst ev st dst' st' :
  segmentContract E →
  map_Forall (λ _ g, routed E g) dst →
  handle E dst ev st = (Ok dst', st') →
  map_Forall (λ _ g, routed E g) dst'.
Proof.
  intros Hcontract. apply (handle_preserves E (routed E)).
  - apply routed_new.
  - intros g ts [H1 H2]. by split.
  - intros; by eapply routed_step.
Qed.

Hypothesis Hrange : range_once E.
Hypothesis Hcontract : segmentContract E.

(** X5.  When [CreateSegmentIfNotExist] returns, for a time, a segment
    that contains that time: in the accumulator [Rev] commits, every row
    lies in the time range of its table, that range is the range of a
    segment the group holds, and no group holds a segment twice. *)
Theorem rows_are_routed_by_time events st groups st' :
  Rev E (DataEvents events) st = (Ok (Some groups), st') →
  ∀ gn g,
    groups !! gn = Some g →
    NoDup (segments g)
    ∧ ∀ et,
        et ∈ tables g →
        (∃ seg, seg ∈ segments g ∧ timeRange et = GetTimeRange seg)
        ∧ ∀ ts, ts ∈ timestamps (tableElements et) →
                Contains E (timeRange et) ts = true.
Proof.
  intros H gn g Hg.
  destruct (Rev_run E _ _ _ _ _ (flushGroup_index E) H)
    as (st1 & accOps & blocks & Hloop & _).
  assert (map_Forall (λ _ g, routed E g) groups) as Hinv.
  { refine (revLoop_preserves E _ _ _ _ _ _ _ _ Hloop);
      [intros; by eapply handle_routed|apply map_Forall_empty]. }
  apply (map_Forall_lookup_1 _ _ _ _ Hinv) in Hg as [Hsegs Htabs].
  split; [done|]. intros et Het.
  rewrite Forall_forall in Htabs. destruct (Htabs et Het) as [Hseg Hrows].
  split; [done|]. by rewrite Forall_forall in Hrows.
Qed.

(** X6.  Under the same contract, the flush of a group hands the series
    documents to each segment once and releases each segment once: in the
    block of a group no segment is inserted into twice, none is released
    twice, and the segments released are those inserted into. *)
Theorem each_segment_flushed_once events st groups st' :
  Rev E (DataEvents events) st = (Ok (Some groups), st') →
  ∃ accOps blocks,
    RevOps E (DataEvents events) st = accOps ++ concat blocks
    ∧ insertsOf accOps = [] ∧ decRefsOf accOps = []
    ∧ Forall2 (λ kg block,
                 NoDup (decRefsOf block)
                 ∧ (insertsOf block).*1 = decRefsOf block
                 ∧ decRefsOf block = segments kg.2)
              (rangeGroups E groups) blocks.
Proof.
  intros H.
  destruct (Rev_Ok_loop E _ _ _ _ H)
    as (st1 & accOps & blocks & Hloop & _ & Hops & Hacc & HB & Hinv).
  assert (map_Forall (λ _ g, routed E g) groups) as Hrouted.
  { refine (revLoop_preserves E _ _ _ _ _ _ _ _ Hloop);
      [intros; by eapply handle_routed|apply map_Forall_empty]. }
  exists accOps, blocks. split; [done|].
  destruct (batch_ops_projections _ Hacc) as (_ & Hi & Hd & _).
  split; [done|]. split; [done|].
  eapply Forall2_impl; [by apply flushed_entries|].
  intros [gn g] block (Hg & Hgi & body & -> & _ & _ & _ & Hins & Hdec).
  simpl in *.
  destruct (projections_snoc_tick body (tsdb g) (latestTS g))
    as (-> & -> & _).
  rewrite Hins, Hdec. destruct (docs g) eqn:Hdocs;
    [by destruct (inv_docs_nonempty _ Hgi)|].
  apply (map_Forall_lookup_1 _ _ _ _ Hrouted) in Hg as [Hsegs _].
  split; [done|]. split; [|done].
  rewrite <- list_fmap_compose. apply list_fmap_id.
Qed.

End Routing.

(** ** Encoded values and index fields *)

Section Encoding.
Variable E : Env.

(** X7.  [appendField] only appends: what it returns starts with [dest];
    every field added carries the given key and the given [NoSort] flag;
    an array value adds one field per element, a scalar of the tag's type
    adds one, and a null value or a value of another kind adds none. *)
Theorem appendField_appends dest key ty v noSort fields :
  appendField dest key ty v noSort = Ok fields →
  ∃ new,
    fields = dest ++ new
    ∧ Forall (λ f, Key f = key ∧ FieldNoSort f = noSort) new
    ∧ length new = match arrayLength ty v with
                   | Some n => n
                   | None => if hasScalar ty v then 1%nat else 0%nat
                   end.
Proof.
  assert (∀ {A} (f : A → FieldTerm) (a : list A),
            Forall (λ fd, Key fd = key ∧ FieldNoSort fd = noSort)
                   ((λ x, newField key (f x) noSort) <$> a)) as Harr.
  { intros A f a. apply Forall_fmap, Forall_true. done. }
  destruct ty; simpl; [done|..].
  - destruct (GetStr v) as [s|]; intros [= <-].
    + exists [newField key (StringTerm s) noSort].
      split; [done|]. split; [by repeat constructor|].
      rewrite bool_decide_true by done. done.
    + exists []. rewrite app_nil_r. split; [done|]. split; [constructor|].
      rewrite bool_decide_false by (by intros []). done.
  - destruct (GetInt v) as [z|]; intros [= <-].
    + exists [newField key (IntTerm z) noSort].
      split; [done|]. split; [by repeat constructor|].
      rewrite bool_decide_true by done. done.
    + exists []. rewrite app_nil_r. split; [done|]. split; [constructor|].
      rewrite bool_decide_false by (by intros []). done.
  - destruct (GetStrArray v) as [a|]; intros [= <-].
    + eexists. split; [done|]. split; [apply Harr|]. simpl.
      by rewrite length_fmap.
    + exists []. rewrite app_nil_r. split; [done|]. split; [constructor|done].
  - destruct (GetIntArray v) as [a|]; intros [= <-].
    + eexists. split; [done|]. split; [apply Harr|]. simpl.
      by rewrite length_fmap.
    + exists []. rewrite app_nil_r. split; [done|]. split; [constructor|done].
  - destruct (GetBinaryData v) as [b|]; intros [= <-].
    + exists [newField key (BytesTerm b) noSort].
      split; [done|]. split; [by repeat constructor|].
      rewrite bool_decide_true by done. done.
    + exists []. rewrite app_nil_r. split; [done|]. split; [constructor|].
      rewrite bool_decide_false by (by intros []). done.
Qed.

(** X8.  [encodeTagValue] fills at most one of the two payloads of the
    stored value: [value] is set exactly when the tag value carries a
    scalar of the tag's type, [valueArr] exactly when it carries an array
    of the tag's type, with one entry per element; a null value, or a
    value of another kind than the tag's type, leaves both nil. *)
Theorem encodeTagValue_payload name ty v tv :
  encodeTagValue E name ty v = Ok tv →
  (is_Some (value tv) ↔ hasScalar ty v = true)
  ∧ length <$> valueArr tv = arrayLength ty v
  ∧ ¬ (is_Some (value tv) ∧ is_Some (valueArr tv))
  ∧ (hasScalar ty v = false → arrayLength ty v = None →
     value tv = None ∧ valueArr tv = None).
Proof.
  destruct ty; simpl; [done|..].
  - intros [= <-]; simpl. rewrite fmap_is_Some.
    split; [by rewrite bool_decide_eq_true|]. split; [done|].
    split; [by intros [_ []]|]. rewrite bool_decide_eq_false.
    intros Hn _. split; [|done]. destruct (GetStr v); [|done].
    by destruct Hn.
  - intros [= <-]; simpl. rewrite fmap_is_Some.
    split; [by rewrite bool_decide_eq_true|]. split; [done|].
    split; [by intros [_ []]|]. rewrite bool_decide_eq_false.
    intros Hn _. split; [|done]. destruct (GetInt v); [|done].
    by destruct Hn.
  - destruct (GetStrArray v) as [a|]; intros [= <-]; simpl.
    + rewrite length_fmap. split; [split; [by intros []|done]|].
      split; [done|]. split; [by intros [[] _]|done].
    + split; [split; [by intros []|done]|].
      split; [done|]. split; [by intros [[] _]|done].
  - destruct (GetIntArray v) as [a|]; intros [= <-]; simpl.
    + rewrite length_fmap. split; [split; [by intros []|done]|].
      split; [done|]. split; [by intros [[] _]|done].
    + split; [split; [by intros []|done]|].
      split; [done|]. split; [by intros [[] _]|done].
  - intros [= <-]; simpl.
    split; [by rewrite bool_decide_eq_true|]. split; [done|].
    split; [by intros [_ []]|]. rewrite bool_decide_eq_false.
    intros Hn _. split; [|done]. destruct (GetBinaryData v); [|done].
    by destruct Hn.
Qed.

Lemma tagsLoop_fields loc tfr es sid tagFamily specs j fields vals fields' vals' :
  tfr ∈ TagFamilyTRule loc →
  tagsLoop E tfr es sid tagFamily j specs fields vals = Ok (fields', vals') →
  ∃ new, fields' = fields ++ new ∧ Forall (fieldOfRule loc sid) new.
Proof.
  intros Htfr. revert j fields vals.
  induction specs as [|t rest IH]; intros j fields vals; simpl.
  { intros [= <- <-]. exists []. by rewrite app_nil_r. }
  assert (∃ mid ix,
    (match tfr !! TagName t, tagValueAt tagFamily j with
     | Some r, Some v =>
       match RuleType r with
       | TYPE_INVERTED =>
         fields0 ← appendField fields
           {| IndexRuleID := RuleId r; KeyAnalyzer := Analyzer r;
              KeySeriesID := sid |} (Type_ t) v (NoSort r);
         Ok (fields0, false)
       | TYPE_SKIPPING => Ok (fields, true)
       | TYPE_UNSPECIFIED => Ok (fields, false)
       end
     | _, _ => Ok (fields, false)
     end = Ok (fields ++ mid, ix) ∨
     ∀ k, (match tfr !! TagName t, tagValueAt tagFamily j with
     | Some r, Some v =>
       match RuleType r with
       | TYPE_INVERTED =>
         fields0 ← appendField fields
           {| IndexRuleID := RuleId r; KeyAnalyzer := Analyzer r;
              KeySeriesID := sid |} (Type_ t) v (NoSort r);
         Ok (fields0, false)
       | TYPE_SKIPPING => Ok (fields, true)
       | TYPE_UNSPECIFIED => Ok (fields, false)
       end
     | _, _ => Ok (fields, false)
     end ≫= k) ≠ Ok (fields', vals'))
    ∧ Forall (fieldOfRule loc sid) mid) as (mid & ix & [Hm|Hm] & Hmid).
  { destruct (tfr !! TagName t) as [r|] eqn:Hr;
      [|exists [], false; rewrite app_nil_r; by split; [left|]].
    destruct (tagValueAt tagFamily j) as [v|];
      [|exists [], false; rewrite app_nil_r; by split; [left|]].
    destruct (RuleType r) eqn:Hty;
      [exists [], false; rewrite app_nil_r; by split; [left|]| |
       exists [], true; rewrite app_nil_r; by split; [left|]].
    destruct (appendField fields _ (Type_ t) v (NoSort r)) as [fs|e|s] eqn:Ha.
    - apply appendField_appends in Ha as (new & -> & Hnew & _).
      exists new, false. split; [by left|].
      eapply Forall_impl; [exact Hnew|]. intros f [Hk Hn]. split.
      + by rewrite Hk.
      + exists tfr, (TagName t), r. rewrite Hk. by repeat split.
    - exists [], false. split; [right; by intros k|constructor].
    - exists [], false. split; [right; by intros k|constructor]. }
  - rewrite Hm. simpl.
    destruct (IndexedOnly t || bool_decide (TagName t ∈ es)).
    + intros H. apply IH in H as (new & -> & Hnew).
      exists (mid ++ new). rewrite app_assoc. split; [done|].
      by apply Forall_app.
    + destruct (encodeTagValue E _ _ _) as [tv|e|s]; try done. simpl.
      intros H. apply IH in H as (new & -> & Hnew).
      exists (mid ++ new). rewrite app_assoc. split; [done|].
      by apply Forall_app.
  - intros H. by apply Hm in H.
Qed.

Lemma familiesLoop_fields is_ sid reqs specs i fields tfs fields' tfs' :
  familiesLoop E is_ sid reqs i specs fields tfs = Ok (fields', tfs') →
  ∃ new, fields' = fields ++ new
         ∧ Forall (fieldOfRule (indexRuleLocators is_) sid) new.
Proof.
  revert i fields tfs. induction specs as [|spec rest IH]; intros i fields tfs;
    simpl.
  { intros [= <- <-]. exists []. by rewrite app_nil_r. }
  destruct (TagFamilyTRule (indexRuleLocators is_) !! i) as [tfr|] eqn:Htfr;
    [|done].
  destruct (tagsLoop E tfr _ sid (reqs !! i) 0 (TagSpecs spec) fields [])
    as [[fs vals]|e|s] eqn:Ht; try done. simpl.
  apply (tagsLoop_fields (indexRuleLocators is_)) in Ht as (mid & -> & Hmid);
    [|by eapply list_elem_of_lookup_2].
  intros H. apply IH in H as (new & -> & Hnew).
  exists (mid ++ new). rewrite app_assoc. split; [done|]. by apply Forall_app.
Qed.

(** X9.  The index document [processElements] makes for an element has
    the event's timestamp and no entity values, and each of its fields
    comes from an inverted index rule of the stream: its key has the ID
    and the analyzer of the rule and the series ID of the event, and its
    [NoSort] flag is the rule's.  Skipping rules and tags without a rule
    give no field. *)
Theorem element_document_fields et eg ev ts st et' eg' st' :
  processElements E et eg ev ts st = (Ok (et', eg'), st') →
  ∃ stm buf sid d,
    loadStream E (trace st) (RequestMetadata (Request ev)) = Some stm
    ∧ Marshal E (Name (RequestMetadata (Request ev))) (EntityValues ev)
      = Some (buf, sid)
    ∧ tableDocs et' = tableDocs et ++ [d]
    ∧ DocTimestamp d = ts ∧ DocEntityValues d = []
    ∧ Forall (fieldOfRule (indexRuleLocators (streamIndexSchema stm)) sid)
             (Fields d).
Proof.
  intros H. apply processElements_Ok in H
    as (stm & buf & sid & fields & tfs & Hstm & Hm & Hloop & _ & -> & _).
  exists stm, buf, sid. eexists. split; [done|]. split; [done|].
  split; [done|]. split; [done|]. split; [done|]. simpl.
  apply familiesLoop_fields in Hloop as (new & -> & Hnew). done.
Qed.

End Encoding.

(** ** What [handle] accepts, and what [Rev] releases *)

Lemma countOf_submseteq `{EqDecision A} (x : A) (l k : list A) :
  l ⊆+ k → (countOf x l ≤ countOf x k)%nat.
Proof.
  unfold countOf. induction 1 as [|y l k _ IH|y z l|y l k _ IH|l k m _ IH1 _ IH2].
  - done.
  - rewrite !filter_cons. destruct (decide (y = x)); simpl; lia.
  - rewrite !filter_cons.
    destruct (decide (y = x)), (decide (z = x)); simpl; lia.
  - rewrite filter_cons. destruct (decide (y = x)); simpl; lia.
  - lia.
Qed.

Section Accepts.
Variable E : Env.

(** X10.  An event [handle] accepts has passed every check of the write
    path: its timestamp is valid, the TSDB of its group was loaded, its
    stream was found, it supplies at least one tag family and no more
    than the schema of the stream has, the index rule locator has one
    entry per family of the schema, and its series was marshalled.  So an
    event without a tag family is never accepted. *)
Theorem accepted_event_passed_the_checks dst ev st dst' st' :
  handle E dst ev st = (Ok dst', st') →
  let n := length (TagFamilies (Element (Request ev))) in
  Check E (Timestamp (Element (Request ev))) = true
  ∧ is_Some (loadTSDB E (trace st) (groupOf ev))
  ∧ is_Some (Marshal E (Name (RequestMetadata (Request ev))) (EntityValues ev))
  ∧ TagFamilies (Element (Request ev)) ≠ []
  ∧ ∃ tr stm,
      loadStream E tr (RequestMetadata (Request ev)) = Some stm
      ∧ (1 ≤ n ≤ length (SchemaTagFamilies (schema stm)))%nat
      ∧ length (TagFamilyTRule (indexRuleLocators (streamIndexSchema stm)))
        = length (SchemaTagFamilies (schema stm)).
Proof.
  intros H n. pose proof H as H'.
  apply handle_Ok in H'
    as (db & eg0 & eg1 & eg2 & i & et & st1 & st2 & et' & eg3
        & Hcheck & _ & _ & _ & _ & Hp & _).
  split; [done|]. split.
  { revert H. unfold handle. rewrite Hcheck. simpl. rewrite M_bind_unfold.
    unfold prepareElementsInGroup, callLoadTSDB. rewrite M_bind_unfold. simpl.
    unfold groupOf. by destruct (loadTSDB E (trace st) _). }
  assert (∃ stm,
    loadStream E (trace st2) (RequestMetadata (Request ev)) = Some stm
    ∧ (1 ≤ n ≤ length (SchemaTagFamilies (schema stm)))%nat
    ∧ length (TagFamilyTRule (indexRuleLocators (streamIndexSchema stm)))
      = length (SchemaTagFamilies (schema stm))
    ∧ is_Some (Marshal E (Name (RequestMetadata (Request ev)))
                 (EntityValues ev))) as (stm & Hstm & Hn & Hlen & Hm).
  { revert Hp. unfold processElements. repeat (rewrite M_bind_unfold; simpl).
    unfold callLoadStream. simpl.
    destruct (loadStream E (trace st2) _) as [stm|]; [|done].
    fold n. destruct (Nat.ltb_spec n 1); [done|].
    destruct (Nat.ltb_spec (length (SchemaTagFamilies (schema stm))) n);
      [done|].
    destruct (Marshal E _ _) as [[buf sid]|]; [|done].
    destruct (Nat.eqb_spec
                (length (TagFamilyTRule (indexRuleLocators (streamIndexSchema stm))))
                (length (SchemaTagFamilies (schema stm)))); [|done].
    intros _. exists stm. split; [done|]. split; [lia|]. by split. }
  split; [done|]. split.
  - intros Hnil. subst n. rewrite Hnil in Hn. simpl in Hn. lia.
  - by exists (trace st2), stm.
Qed.

Lemma revStep_held groups ev st groups' st' :
  revStep E groups ev st = (Ok groups', st') →
  ∃ ops, trace st' = trace st ++ ops
         ∧ heldSegments groups' ⊆+ heldSegments groups ++ acquiredOf ops.
Proof.
  assert (∀ e, handleOrReset E groups e st = (Ok groups', st') →
    ∃ ops, trace st' = trace st ++ ops
           ∧ heldSegments groups' ⊆+ heldSegments groups ++ acquiredOf ops)
    as Hh.
  { intros e. unfold handleOrReset.
    destruct (adds_handle E groups e st) as (ops & Hops & _).
    destruct (handle E groups e st) as [[g|err|s] st1] eqn:Hh; [| |done].
    - intros [= <- <-]. apply handle_segments in Hh as (ops' & Hst & _ & Hheld).
      exists ops'. split; [done|]. by apply Permutation_submseteq.
    - intros [= <- <-]. simpl in *. exists (ops ++ [cannotHandle]).
      rewrite Hops, <- app_assoc. split; [done|].
      rewrite heldSegments_empty. apply submseteq_nil_l. }
  destruct ev as [e|b|]; simpl.
  - apply Hh.
  - destruct (Unmarshal E b); [apply Hh|]. intros [= <- <-].
    eexists [_]. split; [done|]. simpl. by rewrite app_nil_r.
  - intros [= <- <-]. eexists [_]. split; [done|]. simpl. by rewrite app_nil_r.
Qed.

Lemma revLoop_held events groups st groups' st' :
  revLoop E groups events st = (Ok groups', st') →
  ∃ ops, trace st' = trace st ++ ops
         ∧ heldSegments groups' ⊆+ heldSegments groups ++ acquiredOf ops.
Proof.
  revert groups st. induction events as [|ev events IH]; intros groups st; simpl.
  - intros [= <- <-]. exists []. rewrite !app_nil_r. done.
  - rewrite M_bind_unfold.
    destruct (revStep E groups ev st) as [[g1|e|s] st1] eqn:Hs; try done.
    apply revStep_held in Hs as (ops1 & Hst1 & Hheld1).
    intros H. apply IH in H as (ops2 & Hst2 & Hheld2).
    exists (ops1 ++ ops2). rewrite Hst2, Hst1, <- app_assoc. split; [done|].
    rewrite acquiredOf_app, app_assoc. etrans; [exact Hheld2|].
    by apply submseteq_app.
Qed.

Hypothesis Hrange : range_once E.

(** X12.  A run of [Rev] that returns releases no segment it did not
    acquire: the segments released are among those acquired during the
    run, counted with multiplicity.  When no call of [handle] failed, the
    two agree, one [DecRef] for each acquisition. *)
Theorem releases_within_acquisitions events st groups st' :
  Rev E (DataEvents events) st = (Ok (Some groups), st') →
  let ops := RevOps E (DataEvents events) st in
  decRefsOf ops ⊆+ acquiredOf ops
  ∧ (∀ seg, (countOf seg (decRefsOf ops) ≤ countOf seg (acquiredOf ops))%nat)
  ∧ (cannotHandle ∉ ops → decRefsOf ops ≡ₚ acquiredOf ops).
Proof.
  intros H ops.
  destruct (Rev_releases_what_is_held E Hrange _ _ _ _ H) as [Hheld Hbal].
  assert (decRefsOf ops ⊆+ acquiredOf ops) as Hsub.
  { fold ops in Hheld. rewrite Hheld.
    destruct (Rev_Ok_loop E _ _ _ _ H)
      as (st1 & accOps & blocks & Hloop & Hst1 & Hops & _).
    apply revLoop_held in Hloop as (ops' & Hst1' & Hsub). simpl in Hst1'.
    rewrite Hst1 in Hst1'. apply app_inv_head in Hst1'. subst ops'.
    rewrite heldSegments_empty in Hsub. simpl in Hsub.
    subst ops. rewrite Hops, acquiredOf_app. by apply submseteq_inserts_r. }
  split; [done|]. split; [|done].
  intros seg. by apply countOf_submseteq.
Qed.

End Accepts.

(** ** Admission: what [CheckHealth] does *)

Section Health.
Variable E : Env.

(** X13.  [CheckHealth] always returns, and never touches the builder.
    With a threshold below 1 it does not probe the disk: the state is
    left as it is.  Otherwise it probes the disk once, and logs one
    warning exactly when it rejects.  The threshold kept by
    [setUpWriteCallback] never exceeds 100, so a disk reported full is
    rejected whatever was configured. *)
Theorem CheckHealth_probes_once w st :
  let p := GetPathUsedPercent E (trace st) (schemaRepoPath w) in
  (∃ r, (CheckHealth E w st).1 = Ok r
        ∧ (1 ≤ maxDiskUsagePercent w →
           trace (CheckHealth E w st).2
           = trace st ++ OpGetPathUsedPercent (schemaRepoPath w) p
               :: (if r is Some _
                   then [OpLog WarnLevel "disk usage is too high, stop writing"]
                   else [])))
  ∧ builder (CheckHealth E w st).2 = builder st
  ∧ (maxDiskUsagePercent w < 1 → (CheckHealth E w st).2 = st)
  ∧ (∀ path configured,
       maxDiskUsagePercent (setUpWriteCallback path configured) ≤ 100
       ∧ (100 ≤ GetPathUsedPercent E (trace st) path →
          isDiskFull (CheckHealth E (setUpWriteCallback path configured) st).1)).
Proof.
  intros p. unfold CheckHealth.
  split; [|split; [|split]].
  - destruct (Z.ltb_spec (maxDiskUsagePercent w) 1) as [Hlt|Hge].
    + eexists. split; [reflexivity|]. lia.
    + rewrite M_bind_unfold. unfold callGetPathUsedPercent. simpl. fold p.
      destruct (p <? maxDiskUsagePercent w); simpl.
      * eexists. split; [reflexivity|]. intros _. done.
      * eexists. split; [reflexivity|]. intros _. by rewrite <- app_assoc.
  - destruct (maxDiskUsagePercent w <? 1); [done|].
    rewrite M_bind_unfold. unfold callGetPathUsedPercent. simpl.
    by destruct (_ <? _).
  - intros Hlt. by rewrite (proj2 (Z.ltb_lt _ _) Hlt).
  - intros path configured.
    assert (maxDiskUsagePercent (setUpWriteCallback path configured) ≤ 100)
      as Hmax.
    { unfold setUpWriteCallback. simpl. destruct (Z.ltb_spec 100 configured); lia. }
    split; [done|]. intros Hfull.
    destruct (Z.ltb_spec (maxDiskUsagePercent (setUpWriteCallback path configured)) 1).
    + eexists. split; reflexivity.
    + rewrite M_bind_unfold. unfold callGetPathUsedPercent.
      change (schemaRepoPath (setUpWriteCallback path configured)) with path.
      cbn beta iota zeta.
      destruct (Z.ltb_spec (GetPathUsedPercent E (trace st) path)
                  (maxDiskUsagePercent (setUpWriteCallback path configured)));
        [lia|].
      eexists. split; reflexivity.
Qed.

End Health.

(** ** Batches go back to the pool, and [handle] touches one group *)

Section Pool.
Variable E : Env.

Lemma flushTable_pool es st :
  ∃ ops, flushTable E es st = (Ok (), extend st ops)
         ∧ poolOpsOf ops = [OpMustAddElements (tsTable es) (tableElements es);
                            OpReleaseElements (tableElements es)].
Proof.
  unfold flushTable. mrun.
  destruct (0 <? length (tableDocs es))%nat; simpl.
  - mrun. unfold callIndexWrite.
    destruct (IndexWrite E _ _ _); simpl; unfold emit, mret, M_ret;
      rewrite !record_extend, !extend_extend; eexists;
      (split; [reflexivity|]); done.
  - unfold emit, mret, M_ret. rewrite !record_extend, !extend_extend.
    eexists. split; [reflexivity|]. done.
Qed.

Lemma flushSegment_pool ds seg st :
  ∃ ops, flushSegment E ds seg st = (Ok (), extend st ops) ∧ poolOpsOf ops = [].
Proof.
  unfold flushSegment. mrun. unfold callIndexDBInsert.
  destruct (IndexDBInsert E _ _ _); simpl; mrun; unfold emit, mret, M_ret;
    rewrite !record_extend, !extend_extend; eexists;
    (split; [reflexivity|]); done.
Qed.

Lemma flushGroup_pool g st :
  ∃ block,
    flushGroup E g st = (Ok (), extend st block)
    ∧ poolOpsOf block
      = concat ((λ et, [OpMustAddElements (tsTable et) (tableElements et);
                        OpReleaseElements (tableElements et)]) <$> tables g).
Proof.
  unfold flushGroup. rewrite M_bind_unfold.
  destruct (forEach_spec (flushTable E)
              (λ es ops,
                 poolOpsOf ops
                 = [OpMustAddElements (tsTable es) (tableElements es);
                    OpReleaseElements (tableElements es)])
              flushTable_pool (tables g) st) as (tops & -> & Ht).
  cbn beta iota. rewrite M_bind_unfold.
  assert (∃ sops,
    (if (0 <? length (docs g))%nat
     then forEach (flushSegment E (docs g)) (segments g) else mret ())
      (extend st (concat tops)) = (Ok (), extend (extend st (concat tops)) sops)
    ∧ poolOpsOf sops = []) as (sops & -> & Hs).
  { destruct (0 <? length (docs g))%nat.
    - destruct (forEach_spec (flushSegment E (docs g))
                  (λ _ ops, poolOpsOf ops = [])
                  (flushSegment_pool (docs g)) (segments g)
                  (extend st (concat tops))) as (sops & -> & Hs).
      exists (concat sops). split; [done|].
      clear -Hs. induction Hs as [|seg ops l opss H _ IH]; [done|].
      simpl. by rewrite poolOpsOf_app, H, IH.
    - exists []. by rewrite extend_nil. }
  cbn beta iota. unfold emit. rewrite record_extend, !extend_extend.
  eexists. split; [reflexivity|].
  rewrite !poolOpsOf_app, Hs. simpl. rewrite !app_nil_r. clear -Ht.
  induction Ht as [|es ops l opss H _ IH]; [done|].
  simpl. by rewrite poolOpsOf_app, H, IH.
Qed.

(** X22.  In a run of [Rev] every batch handed to [mustAddElements] is
    given back to the pool by the very next call among the two, and
    nothing else is given back: the calls of [mustAddElements] and
    [releaseElements] of the run are, row by row, the batch added and
    then the same batch released. *)
Theorem every_batch_is_released events st groups st' :
  Rev E (DataEvents events) st = (Ok (Some groups), st') →
  poolOpsOf (RevOps E (DataEvents events) st)
  = concat ((λ row, [OpMustAddElements row.1 row.2; OpReleaseElements row.2])
              <$> rowsOf (RevOps E (DataEvents events) st)).
Proof.
  intros H.
  destruct (Rev_run E
              (λ g block,
                 poolOpsOf block
                 = concat ((λ et, [OpMustAddElements (tsTable et) (tableElements et);
                                   OpReleaseElements (tableElements et)])
                             <$> tables g)
                 ∧ rowsOf block
                   = (λ et, (tsTable et, tableElements et)) <$> tables g)
              events st groups st') as (st1 & accOps & blocks & _ & _ & Hacc & -> & HB).
  { intros g st2.
    destruct (flushGroup_pool g st2) as (block & Hb & Hpool).
    destruct (flushGroup_index E g st2) as (block' & Hb' & Hrows & _).
    rewrite Hb in Hb'. injection Hb' as Heq. apply app_inv_head in Heq.
    subst block'. by exists block. }
  { done. }
  rewrite poolOpsOf_app, rowsOf_app, (batch_ops_no_pool_op _ Hacc).
  destruct (batch_ops_projections _ Hacc) as (_ & _ & _ & ->). simpl.
  clear -HB. induction HB as [|kg block l blocks [Hp Hr] _ IH]; [done|].
  simpl. rewrite poolOpsOf_app, rowsOf_app, fmap_app, concat_app, Hp, Hr, IH.
  f_equal. by rewrite <- list_fmap_compose.
Qed.

(** X23.  A call of [handle] that returns no error touches the entry of
    the event's group and no other.  With [g] the entry before the call,
    or the new entry made with the TSDB just loaded: the entry keeps the
    TSDB of [g], whatever [loadTSDB] answers later; its latest timestamp
    is the maximum of that of [g] (0 for a new entry) and the event's;
    its segments are those of [g] in place, with at most one more at the
    end; its tables are those of [g] in place, with at most one new,
    empty table at the end, and of these only the table that takes the
    event has changed: it keeps its handle and its time range and gains
    the event's timestamp as its last row. *)
Theorem handle_touches_one_group dst ev st dst' st' :
  handle E dst ev st = (Ok dst', st') →
  let ts := Timestamp (Element (Request ev)) in
  (∀ gn, gn ≠ groupOf ev → dst' !! gn = dst !! gn)
  ∧ ∃ db g' i et et' newSegments newTables,
      let g := default (newElementsInGroup db) (dst !! groupOf ev) in
      loadTSDB E (trace st) (groupOf ev) = Some db
      ∧ dst' !! groupOf ev = Some g'
      ∧ tsdb g' = tsdb g
      ∧ latestTS g' = Z.max (latestTS g) ts
      ∧ segments g' = segments g ++ newSegments
      ∧ (length newSegments ≤ 1)%nat
      ∧ (newTables = []
         ∨ ∃ seg tb, newTables = [newTable seg tb] ∧ i = length (tables g)
                     ∧ seg ∈ segments g')
      ∧ (newSegments ≠ [] → newTables ≠ [])
      ∧ (tables g ++ newTables) !! i = Some et
      ∧ tables g' = <[i := et']> (tables g ++ newTables)
      ∧ tsTable et' = tsTable et ∧ timeRange et' = timeRange et
      ∧ timestamps (tableElements et')
        = timestamps (tableElements et) ++ [ts].
Proof.
  intros H ts. unfold handle in H. fold ts in H.
  destruct (negb _); [done|]. rewrite M_bind_unfold in H.
  unfold prepareElementsInGroup, callLoadTSDB in H. revert H. mrun.
  fold (groupOf ev).
  destruct (loadTSDB E (trace st) (groupOf ev)) as [db|] eqn:Hdb; [|done].
  set (eg0 := match dst !! groupOf ev with
              | Some eg => eg
              | None => newElementsInGroup db
              end).
  assert (eg0 = default (newElementsInGroup db) (dst !! groupOf ev)) as Heg0
    by (subst eg0; by destruct (dst !! groupOf ev)).
  set (eg1 := if latestTS eg0 <? ts then setLatestTS eg0 ts else eg0).
  assert (tsdb eg1 = tsdb eg0 ∧ segments eg1 = segments eg0
          ∧ tables eg1 = tables eg0 ∧ latestTS eg1 = Z.max (latestTS eg0) ts)
    as (Hdb1 & Hs1 & Ht1 & Hl1).
  { subst eg1. destruct (Z.ltb_spec (latestTS eg0) ts); simpl;
      repeat split; lia. }
  rewrite M_bind_unfold.
  destruct (prepareElementsInTable E eg1 ev ts _) as [[[eg2 i]|e|s] st2] eqn:Ht;
    try done.
  destruct (tables eg2 !! i) as [et|] eqn:Hi; [|done]. rewrite M_bind_unfold.
  destruct (processElements E et eg2 ev ts st2) as [[[et' eg3]|e|s] st3] eqn:Hp;
    try done.
  intros [= <- <-].
  apply processElements_Ok in Hp
    as (stm & buf & sid & fields & tfs & _ & _ & _ & _ & Het' & Heg3).
  assert (tsdb eg3 = tsdb eg2 ∧ segments eg3 = segments eg2
          ∧ tables eg3 = tables eg2 ∧ latestTS eg3 = latestTS eg2)
    as (Hdb3 & Hs3 & Ht3 & Hl3) by (rewrite Heg3; by case_bool_decide).
  assert (tsTable et' = tsTable et ∧ timeRange et' = timeRange et
          ∧ timestamps (tableElements et')
            = timestamps (tableElements et) ++ [ts]) as (Hh & Hr & Hrows)
    by (by rewrite Het').
  assert (∃ newSegments newTables,
            tsdb eg2 = tsdb eg1 ∧ latestTS eg2 = latestTS eg1
            ∧ segments eg2 = segments eg1 ++ newSegments
            ∧ (length newSegments ≤ 1)%nat
            ∧ tables eg2 = tables eg1 ++ newTables
            ∧ (newTables = []
               ∨ ∃ seg tb, newTables = [newTable seg tb]
                           ∧ i = length (tables eg1)
                           ∧ seg ∈ segments eg2)
            ∧ (newSegments ≠ [] → newTables ≠ []))
    as (newSegments & newTables & Hdb2 & Hl2 & Hs2 & Hlen & Ht2 & Hnew & Hboth).
  { apply prepareElementsInTable_cases in Ht
      as [(et0 & _ & -> & _)
         |(_ & -> & seg & tb & [(j & Hseg & -> & _)|(_ & _ & -> & _)])].
    - exists [], []. rewrite !app_nil_r.
      split; [reflexivity|]. split; [reflexivity|]. split; [reflexivity|].
      split; [simpl; lia|]. split; [reflexivity|]. split; [by left|done].
    - exists [], [newTable seg tb]. rewrite app_nil_r. simpl.
      split; [reflexivity|]. split; [reflexivity|]. split; [reflexivity|].
      split; [lia|]. split; [reflexivity|]. split; [|done].
      right. exists seg, tb. split; [done|]. split; [done|].
      apply list_find_Some in Hseg as (Hj & _). by eapply list_elem_of_lookup_2.
    - exists [seg], [newTable seg tb]. simpl.
      split; [reflexivity|]. split; [reflexivity|]. split; [reflexivity|].
      split; [lia|]. split; [reflexivity|]. split; [|done].
      right. exists seg, tb. split; [done|]. split; [done|].
      apply elem_of_app. right. by left. }
  split.
  { intros gn Hne. by rewrite !lookup_insert_ne. }
  exists db, (setTables eg3 (<[i := et']> (tables eg3))), i, et, et',
         newSegments, newTables.
  cbv zeta. rewrite <- Heg0. simpl.
  rewrite Hl3, Hl2, Hl1, Hdb3, Hdb2, Hdb1, Hs3, Ht3, Ht2, Ht1.
  rewrite Ht2, Ht1 in Hi. rewrite Hs2, Hs1 in Hnew. rewrite Ht1 in Hnew.
  split; [done|]. split; [apply lookup_insert_eq|].
  split; [done|]. split; [done|]. split; [by rewrite Hs2, Hs1|].
  split; [done|]. split; [by rewrite Hs2, Hs1|].
  by repeat split.
Qed.

End Pool.
(** ** The calls of [handle], in order *)

Section Calls.
Variable E : Env.

Lemma prepareElementsInGroup_calls dst ev ts st :
  ∃ r, trace (prepareElementsInGroup E dst ev ts st).2
       = trace st ++ [OpLoadTSDB (groupOf ev) r].
Proof.
  unfold prepareElementsInGroup, callLoadTSDB. rewrite M_bind_unfold. simpl.
  fold (groupOf ev). destruct (loadTSDB E (trace st) (groupOf ev)); by eexists.
Qed.

Lemma prepareElementsInTable_calls eg ev ts st :
  ∃ b c,
    trace (prepareElementsInTable E eg ev ts st).2 = trace st ++ b ++ c
    ∧ (b = [] ∨ ∃ r, b = [OpCreateSegmentIfNotExist (tsdb eg) ts r])
    ∧ (c = [] ∨ ∃ seg r, c = [OpCreateTSTableIfNotExist seg (ShardId ev) r]).
Proof.
  unfold prepareElementsInTable.
  destruct (list_find _ (tables eg)) as [[i et]|].
  { exists [], []. rewrite app_nil_r. split; [done|]. split; by left. }
  unfold callCreateSegmentIfNotExist, callCreateTSTableIfNotExist.
  destruct (list_find _ (segments eg)) as [[j seg]|]; mrun.
  - exists [], [OpCreateTSTableIfNotExist seg (ShardId ev)
                  (CreateTSTableIfNotExist E (trace st) seg (ShardId ev))].
    split; [|split; [by left|right; do 2 eexists; reflexivity]].
    by destruct (CreateTSTableIfNotExist E (trace st) seg (ShardId ev)).
  - destruct (CreateSegmentIfNotExist E (trace st) (tsdb eg) ts) as [seg|] eqn:Hs.
    + mrun.
      exists [OpCreateSegmentIfNotExist (tsdb eg) ts (Some seg)],
             [OpCreateTSTableIfNotExist seg (ShardId ev)
                (CreateTSTableIfNotExist E
                   (trace st ++ [OpCreateSegmentIfNotExist (tsdb eg) ts (Some seg)])
                   seg (ShardId ev))].
      split; [|split; right; repeat eexists].
      destruct (CreateTSTableIfNotExist E _ seg (ShardId ev)); simpl;
        by rewrite <- app_assoc.
    + simpl. eexists [_], []. split; [done|]. split; [right; eexists; reflexivity|by left].
Qed.

Lemma processElements_calls et eg ev ts st :
  ∃ found, trace (processElements E et eg ev ts st).2
           = trace st ++ [OpLoadStream (RequestMetadata (Request ev)) found].
Proof.
  unfold processElements. repeat (rewrite M_bind_unfold; simpl).
  unfold callLoadStream. simpl.
  destruct (loadStream E (trace st) _) as [stm|]; [|by eexists].
  exists true. simpl.
  destruct (_ <? 1)%nat; [done|]. destruct (_ <? _)%nat; [done|].
  destruct (Marshal E _ _) as [[buf sid]|]; [|done].
  destruct (negb _); [done|].
  rewrite M_bind_unfold. unfold lift.
  by destruct (familiesLoop _ _ _ _ _ _ _ _) as [[f t]|e|s].
Qed.

(** X24.  The calls of [handle] that load or create.  Whether it accepts
    the event or not, [handle] calls each of [loadTSDB] (for the event's
    group), [CreateSegmentIfNotExist] (for the event's time),
    [CreateTSTableIfNotExist] (for the event's shard) and [loadStream]
    (for the event's metadata) at most once, in this order, and adds
    nothing else to the trace: no log line, no write, no release, no
    [Tick].  What [handle] only reads ([timestamp.Check], the time
    ranges, [convert.HashStr], [series.Marshal]) is not recorded in the
    trace and is not counted here.  An event whose timestamp
    [timestamp.Check] rejects is refused before the first of the four
    calls, the state left as it was. *)
Theorem handle_calls_in_order dst ev st :
  let ts := Timestamp (Element (Request ev)) in
  (∃ a b c d,
     trace (handle E dst ev st).2 = trace st ++ a ++ b ++ c ++ d
     ∧ (a = [] ∨ ∃ r, a = [OpLoadTSDB (groupOf ev) r])
     ∧ (b = [] ∨ ∃ db r, b = [OpCreateSegmentIfNotExist db ts r])
     ∧ (c = [] ∨ ∃ seg r, c = [OpCreateTSTableIfNotExist seg (ShardId ev) r])
     ∧ (d = [] ∨ ∃ found,
                   d = [OpLoadStream (RequestMetadata (Request ev)) found]))
  ∧ (Check E ts = false →
     handle E dst ev st = (Failed ErrInvalidTimestamp, st)).
Proof.
  intros ts. split.
  2:{ intros Hc. unfold handle. fold ts. by rewrite Hc. }
  unfold handle. fold ts. destruct (negb (Check E ts)).
  { exists [], [], [], []. rewrite app_nil_r. repeat split; by left. }
  rewrite M_bind_unfold.
  destruct (prepareElementsInGroup_calls dst ev ts st) as (r & Ha).
  destruct (prepareElementsInGroup E dst ev ts st) as [[[dst1 eg1]|e|s] st1];
    simpl in Ha.
  2,3: exists [OpLoadTSDB (groupOf ev) r], [], [], [];
       (split; [done|]); (split; [right; eexists; reflexivity|]); repeat split; by left.
  rewrite M_bind_unfold.
  destruct (prepareElementsInTable_calls eg1 ev ts st1) as (b & c & Hbc & Hb & Hc).
  assert (b = [] ∨ ∃ db r0, b = [OpCreateSegmentIfNotExist db ts r0]) as Hb'.
  { destruct Hb as [->|[r0 ->]]; [by left|right; do 2 eexists; reflexivity]. }
  destruct (prepareElementsInTable E eg1 ev ts st1) as [[[eg2 i]|e|s] st2];
    simpl in Hbc.
  2,3: exists [OpLoadTSDB (groupOf ev) r], b, c, [];
       (split; [cbn [snd]; by rewrite Hbc, Ha, app_nil_r, <- !app_assoc|]);
       (split; [right; eexists; reflexivity|]); (split; [done|]); (split; [done|]);
       by left.
  destruct (tables eg2 !! i) as [et|].
  2:{ exists [OpLoadTSDB (groupOf ev) r], b, c, [].
      split; [cbn [snd]; by rewrite Hbc, Ha, app_nil_r, <- !app_assoc|].
      split; [right; eexists; reflexivity|]. split; [done|]. split; [done|]. by left. }
  rewrite M_bind_unfold.
  destruct (processElements_calls et eg2 ev ts st2) as (found & Hd).
  exists [OpLoadTSDB (groupOf ev) r], b, c,
         [OpLoadStream (RequestMetadata (Request ev)) found].
  split.
  { destruct (processElements E et eg2 ev ts st2) as [[[et' eg3]|e|s] st3];
      cbn [snd] in Hd; unfold mret, M_ret; cbn [snd];
      by rewrite Hd, Hbc, Ha, <- !app_assoc. }
  split; [right; eexists; reflexivity|]. split; [done|]. split; [done|].
  right. eexists. reflexivity.
Qed.

End Calls.

(** ** One table per segment *)

Section Paired.
Variable E : Env.

Lemma paired_covers g ts :
  paired g →
  list_find (λ et, Contains E (timeRange et) ts = true) (tables g) = None →
  list_find (λ seg, Contains E (GetTimeRange seg) ts = true) (segments g) = None.
Proof.
  intros Hp Hnone. apply list_find_None. apply list_find_None in Hnone.
  apply Forall_forall. intros seg Hseg.
  apply list_elem_of_lookup in Hseg as [j Hj].
  assert ((GetTimeRange <$> segments g) !! j = Some (GetTimeRange seg)) as Hr
    by (by rewrite list_lookup_fmap, Hj).
  rewrite <- Hp, list_lookup_fmap in Hr.
  destruct (tables g !! j) as [et|] eqn:Het; [|done].
  injection Hr as Hr. rewrite <- Hr.
  by apply (Forall_lookup_1 _ _ _ _ Hnone Het).
Qed.

Lemma handle_paired dst ev st dst' st' :
  map_Forall (λ _ g, paired g) dst →
  handle E dst ev st = (Ok dst', st') →
  map_Forall (λ _ g, paired g) dst'.
Proof.
  apply (handle_preserves E paired).
  - done.
  - done.
  - intros eg1 ev' st1 eg2 i st2 et et' eg3 st3 Hp Ht Hi Hproc.
    apply processElements_Ok in Hproc
      as (stm & buf & sid & fields & tfs & _ & _ & _ & _ & Het' & Heg3).
    assert (tables eg3 = tables eg2 ∧ segments eg3 = segments eg2) as [Ht3 Hs3]
      by (rewrite Heg3; by case_bool_decide).
    assert (timeRange et' = timeRange et) as Hr' by (by rewrite Het').
    unfold paired. simpl. rewrite Ht3, Hs3, list_fmap_insert, Hr'.
    rewrite list_insert_id by (by rewrite list_lookup_fmap, Hi).
    apply prepareElementsInTable_cases in Ht
      as [(et0 & _ & -> & _)
         |(Hnone & _ & seg & tb & [(j & Hseg & _ & _)|(_ & _ & -> & _)])].
    + done.
    + apply (paired_covers _ _ Hp) in Hnone. by rewrite Hnone in Hseg.
    + simpl. rewrite !fmap_app. simpl. by rewrite Hp.
Qed.

(** X26.  In the accumulator [Rev] commits, the tables and the segments
    of a group go in pairs: a group has as many tables as segments, and
    the table at a position has the time range of the segment at that
    position, whatever the shards of the events.  So a time that a held
    segment covers is covered by an open table: when the lookup of the
    tables in [prepareElementsInTable] finds nothing, the lookup of the
    segments finds nothing either, and a segment is acquired. *)
Theorem one_table_per_segment events st groups st' :
  Rev E (DataEvents events) st = (Ok (Some groups), st') →
  ∀ gn g,
    groups !! gn = Some g →
    timeRange <$> tables g = GetTimeRange <$> segments g
    ∧ length (tables g) = length (segments g)
    ∧ ∀ ts,
        list_find (λ et, Contains E (timeRange et) ts = true) (tables g) = None →
        list_find (λ seg, Contains E (GetTimeRange seg) ts = true) (segments g)
        = None.
Proof.
  intros H gn g Hg.
  destruct (Rev_run E _ _ _ _ _ (flushGroup_index E) H)
    as (st1 & accOps & blocks & Hloop & _).
  assert (map_Forall (λ _ g, paired g) groups) as Hinv.
  { refine (revLoop_preserves E _ handle_paired _ _ _ _ _ _ Hloop).
    apply map_Forall_empty. }
  apply (map_Forall_lookup_1 _ _ _ _ Hinv) in Hg.
  split; [done|]. split.
  - rewrite <- (length_fmap timeRange), Hg. apply length_fmap.
  - intros ts. by apply paired_covers.
Qed.

End Paired.

(** ** Concrete runs *)

Import Examples MoreExamples.

Lemma env_segmentContract : segmentContract env.
Proof.
  intros tr db ts seg [= <-]. unfold env, contains, dayRange, day. simpl.
  pose proof (Z.mod_pos_bound ts 86400000000000 eq_refl) as Hm.
  pose proof (Z.div_mod ts 86400000000000 ltac:(lia)) as Hd.
  destruct (Z.eqb_spec ts (ts / 86400000000000 * 86400000000000)); [done|].
  destruct (Z.eqb_spec ts ((ts / 86400000000000 + 1) * 86400000000000)); [lia|].
  apply andb_true_intro. split; apply Z.leb_le; lia.
Defined.

Lemma Rev_events12 :
  Rev env (DataEvents events12) st0
  = (Ok (Some groups12), (Rev env (DataEvents events12) st0).2).
Proof. vm_compute. reflexivity. Defined.

Lemma committed_batches_are_aligned_witness :
  Forall (λ row, aligned row.2 ∧ timestamps row.2 ≠ [])
         (rowsOf (RevOps env (DataEvents events12) st0)).
Proof.
  exact (committed_batches_are_aligned env env_range_once events12 st0
           groups12 _ Rev_events12).
Defined.

Lemma index_documents_mirror_rows_witness :
  Forall2 (λ row written, written.1 = row.1 ∧ mirrors written.2 row.2)
          (rowsOf (RevOps env (DataEvents events12) st0))
          (indexWritesOf (RevOps env (DataEvents events12) st0)).
Proof.
  exact (index_documents_mirror_rows env env_range_once events12 st0
           groups12 _ Rev_events12).
Defined.

Lemma events12_all_handled :
  cannotHandle ∉ RevOps env (DataEvents events12) st0.
Proof.
  intros Hin. remember (RevOps env (DataEvents events12) st0) as ops eqn:Hops.
  vm_compute in Hops. subst ops. unfold cannotHandle in Hin.
  repeat (apply elem_of_cons in Hin as [Hin|Hin]; [discriminate Hin|]).
  by apply elem_of_nil in Hin.
Defined.

Lemma one_row_per_handled_event_witness :
  length (concat ((λ row, timestamps row.2)
                    <$> rowsOf (RevOps env (DataEvents events12) st0)))
  = length (omap (requestOf env) events12).
Proof.
  exact (proj2 (one_row_per_handled_event env env_range_once events12 st0
                  groups12 _ Rev_events12 events12_all_handled)).
Defined.

Lemma open_table_is_reused_witness :
  ∃ db g' et',
    trace (handle env dst1 ev1OnShard9 st0).2
    = trace st0 ++ [OpLoadTSDB (groupOf ev1OnShard9) (Some db);
                    OpLoadStream (RequestMetadata (Request ev1OnShard9)) true]
    ∧ valueOr ∅ (handle env dst1 ev1OnShard9 st0)
      = <[groupOf ev1OnShard9 := g']> dst1
    ∧ segments g' = segments (default group0 (dst1 !! "g"))
    ∧ tables g'
      = <[0%nat := et']> (tables (default group0 (dst1 !! "g")))
    ∧ tsTable et'
      = tsTable (default table0 (tables (default group0 (dst1 !! "g")) !! 0%nat))
    ∧ timeRange et'
      = timeRange (default table0 (tables (default group0 (dst1 !! "g")) !! 0%nat))
    ∧ timestamps (tableElements et')
      = timestamps (tableElements
          (default table0 (tables (default group0 (dst1 !! "g")) !! 0%nat)))
        ++ [Timestamp (Element (Request ev1OnShard9))].
Proof.
  apply (open_table_is_reused env dst1 ev1OnShard9 st0).
  - vm_compute. reflexivity.
  - vm_compute. reflexivity.
  - vm_compute. reflexivity.
Defined.

Lemma rows_are_routed_by_time_witness :
  NoDup (segments (default group0 (groups12 !! "g")))
  ∧ ∀ et,
      et ∈ tables (default group0 (groups12 !! "g")) →
      (∃ seg, seg ∈ segments (default group0 (groups12 !! "g"))
              ∧ timeRange et = GetTimeRange seg)
      ∧ ∀ ts, ts ∈ timestamps (tableElements et) →
              Contains env (timeRange et) ts = true.
Proof.
  apply (rows_are_routed_by_time env env_segmentContract
           events12 st0 groups12 _ Rev_events12 "g").
  vm_compute. reflexivity.
Defined.

Lemma each_segment_flushed_once_witness :
  ∃ accOps blocks,
    RevOps env (DataEvents events12) st0 = accOps ++ concat blocks
    ∧ insertsOf accOps = [] ∧ decRefsOf accOps = []
    ∧ Forall2 (λ kg block,
                 NoDup (decRefsOf block)
                 ∧ (insertsOf block).*1 = decRefsOf block
                 ∧ decRefsOf block = segments kg.2)
              (rangeGroups env groups12) blocks.
Proof.
  exact (each_segment_flushed_once env env_range_once env_segmentContract
           events12 st0 groups12 _ Rev_events12).
Defined.

Lemma appendField_appends_witness :
  ∃ new,
    [newField {| IndexRuleID := 1; KeyAnalyzer := EmptyString; KeySeriesID := 7 |}
       (IntTerm 4) true;
     newField {| IndexRuleID := 1; KeyAnalyzer := EmptyString; KeySeriesID := 7 |}
       (IntTerm 5) true]
    = [] ++ new
    ∧ Forall (λ f, Key f = {| IndexRuleID := 1; KeyAnalyzer := EmptyString;
                              KeySeriesID := 7 |}
                   ∧ FieldNoSort f = true) new
    ∧ length new = 2%nat.
Proof.
  apply (appendField_appends []
           {| IndexRuleID := 1; KeyAnalyzer := EmptyString; KeySeriesID := 7 |}
           TAG_TYPE_INT_ARRAY (TagValue_IntArray (Some [4; 5])) true).
  reflexivity.
Defined.

Lemma encodeTagValue_payload_witness :
  (is_Some (value (valueOr generateTagValue
                     (encodeTagValue env "x" TAG_TYPE_STRING
                        (TagValue_Int (Some 3)), st0)))
   ↔ hasScalar TAG_TYPE_STRING (TagValue_Int (Some 3)) = true)
  ∧ length <$> valueArr (valueOr generateTagValue
                           (encodeTagValue env "x" TAG_TYPE_STRING
                              (TagValue_Int (Some 3)), st0))
    = arrayLength TAG_TYPE_STRING (TagValue_Int (Some 3)).
Proof.
  destruct (encodeTagValue_payload env "x" TAG_TYPE_STRING (TagValue_Int (Some 3))
              (valueOr generateTagValue
                 (encodeTagValue env "x" TAG_TYPE_STRING (TagValue_Int (Some 3)),
                  st0)))
    as (Hv & Ha & _).
  - reflexivity.
  - split; assumption.
Defined.

Lemma element_document_fields_witness :
  ∃ stm buf sid d,
    loadStream env (trace st0) (RequestMetadata (Request ev1)) = Some stm
    ∧ Marshal env (Name (RequestMetadata (Request ev1))) (EntityValues ev1)
      = Some (buf, sid)
    ∧ tableDocs (valueOr (table0, group0)
                   (processElements env table0 group0 ev1 t0 st0)).1
      = tableDocs table0 ++ [d]
    ∧ DocTimestamp d = t0 ∧ DocEntityValues d = []
    ∧ Forall (fieldOfRule (indexRuleLocators (streamIndexSchema stm)) sid)
             (Fields d).
Proof.
  apply (element_document_fields env table0 group0 ev1 t0 st0
           (valueOr (table0, group0)
              (processElements env table0 group0 ev1 t0 st0)).1
           (valueOr (table0, group0)
              (processElements env table0 group0 ev1 t0 st0)).2
           (processElements env table0 group0 ev1 t0 st0).2).
  vm_compute. reflexivity.
Defined.

Lemma accepted_event_passed_the_checks_witness :
  Check env (Timestamp (Element (Request ev1))) = true
  ∧ is_Some (loadTSDB env (trace st0) (groupOf ev1))
  ∧ is_Some (Marshal env (Name (RequestMetadata (Request ev1)))
               (EntityValues ev1))
  ∧ TagFamilies (Element (Request ev1)) ≠ [].
Proof.
  destruct (accepted_event_passed_the_checks env ∅ ev1 st0 dst1
              (handle env ∅ ev1 st0).2) as (H1 & H2 & H3 & H4 & _).
  - vm_compute. reflexivity.
  - repeat split; assumption.
Defined.

Lemma releases_within_acquisitions_witness :
  decRefsOf (RevOps env (DataEvents events12) st0)
  ⊆+ acquiredOf (RevOps env (DataEvents events12) st0)
  ∧ decRefsOf (RevOps env (DataEvents events12) st0)
    ≡ₚ acquiredOf (RevOps env (DataEvents events12) st0).
Proof.
  destruct (releases_within_acquisitions env env_range_once events12 st0
              groups12 _ Rev_events12) as (Hsub & _ & Hbal).
  split; [exact Hsub|]. exact (Hbal events12_all_handled).
Defined.

Lemma CheckHealth_probes_once_witness :
  trace (CheckHealth env (setUpWriteCallback "/data" 40) st0).2
  = [OpGetPathUsedPercent "/data" 50;
     OpLog WarnLevel "disk usage is too high, stop writing"]
  ∧ (CheckHealth env (setUpWriteCallback "/data" 0) st0).2 = st0.
Proof.
  destruct (CheckHealth_probes_once env (setUpWriteCallback "/data" 40) st0)
    as ((r & Hr & Htr) & _).
  destruct (CheckHealth_probes_once env (setUpWriteCallback "/data" 0) st0)
    as (_ & _ & Hro & _).
  split.
  - rewrite Htr by (vm_compute; discriminate).
    destruct r as [e|]; [reflexivity|]. vm_compute in Hr. discriminate Hr.
  - apply Hro. reflexivity.
Defined.

Lemma every_batch_is_released_witness :
  poolOpsOf (RevOps env (DataEvents events12) st0)
  = concat ((λ row, [OpMustAddElements row.1 row.2; OpReleaseElements row.2])
              <$> rowsOf (RevOps env (DataEvents events12) st0)).
Proof.
  exact (every_batch_is_released env events12 st0 groups12 _ Rev_events12).
Defined.

Lemma handle_touches_one_group_witness :
  (∀ gn, gn ≠ groupOf ev1OnShard9 →
         valueOr ∅ (handle env dst1 ev1OnShard9 st0) !! gn = dst1 !! gn)
  ∧ ∃ db g' i et',
      valueOr ∅ (handle env dst1 ev1OnShard9 st0) !! groupOf ev1OnShard9
      = Some g'
      ∧ latestTS g'
        = Z.max (latestTS (default (newElementsInGroup db)
                             (dst1 !! groupOf ev1OnShard9)))
                (Timestamp (Element (Request ev1OnShard9)))
      ∧ ∃ newTables,
          tables g'
          = <[i := et']> (tables (default (newElementsInGroup db)
                                    (dst1 !! groupOf ev1OnShard9))
                          ++ newTables).
Proof.
  destruct (handle_touches_one_group env dst1 ev1OnShard9 st0
              (valueOr ∅ (handle env dst1 ev1OnShard9 st0))
              (handle env dst1 ev1OnShard9 st0).2)
    as (Hframe & db & g' & i & et & et' & newSegments & newTables
        & _ & Hg' & _ & Hlatest & _ & _ & _ & _ & _ & Htables & _).
  - vm_compute. reflexivity.
  - split; [exact Hframe|]. exists db, g', i, et'.
    split; [exact Hg'|]. split; [exact Hlatest|]. by exists newTables.
Defined.

Lemma handle_calls_in_order_witness :
  handle env dst1 evOdd st0 = (Failed ErrInvalidTimestamp, st0).
Proof.
  apply (proj2 (handle_calls_in_order env dst1 evOdd st0)).
  vm_compute. reflexivity.
Defined.

Lemma one_table_per_segment_witness :
  timeRange <$> tables (default group0 (groups12 !! "g"))
  = GetTimeRange <$> segments (default group0 (groups12 !! "g"))
  ∧ length (tables (default group0 (groups12 !! "g"))) = 2%nat.
Proof.
  destruct (one_table_per_segment env events12 st0 groups12 _ Rev_events12 "g"
              (default group0 (groups12 !! "g"))) as (Hpair & Hlen & _).
  - vm_compute. reflexivity.
  - split; [exact Hpair|]. rewrite Hlen. reflexivity.
Defined.

End StreamMoreFacts.

(* ===================================================================== *)
(** * The scheduler: more facts *)
(* ===================================================================== *)

Module SchedulerMoreFacts.
Import Scheduler SchedulerMore SchedulerFacts.

Section Facts.
Context {ParseOption Schedule ParseError Action : Type}.
Variable Parse : ParseOption → string → Schedule + ParseError.
Variable Next : Schedule → Z → Z.

Abbreviation Sched := (Scheduler Schedule Action).
Abbreviation task := (task Schedule Action).

Implicit Types (s : Sched) (m : gmap string task).

Lemma step_isMock s s' : step Parse s s' → isMock s' = isMock s.
Proof.
  destruct 1; simpl; try done.
  - unfold Register. destruct (closed s); [done|].
    destruct (tasks s !! nm); [done|]. by destruct (Parse o e).
  - unfold Trigger. destruct (negb _); [done|]. by destruct (tasks s !! nm).
Qed.

Lemma step_tasks_inv s s' : step Parse s s' → tasks_inv s → tasks_inv s'.
Proof.
  destruct 1; intros Hi k t.
  - unfold Register. destruct (closed s); [apply Hi|].
    destruct (tasks s !! nm) eqn:Hnm; [apply Hi|].
    destruct (Parse o e) as [sch|err]; [|apply Hi]. simpl.
    destruct (decide (k = nm)) as [->|Hne].
    + rewrite lookup_insert_eq. intros [= <-]. simpl. split; [done|].
      split; intros ->; [by eexists|done].
    + rewrite lookup_insert_ne by done. apply Hi.
  - unfold Trigger. destruct (negb (isMock s)) eqn:Hm; [apply Hi|].
    apply negb_false_iff in Hm.
    destruct (tasks s !! nm) as [t0|] eqn:Hnm; [|apply Hi]. simpl.
    destruct (decide (k = nm)) as [->|Hne].
    + rewrite lookup_insert_eq. intros [= <-]. simpl.
      split; [by apply (Hi nm t0)|]. split; [by eexists|].
      rewrite Hm. done.
    + rewrite lookup_insert_ne by done. apply Hi.
  - simpl. intros Hk. apply lookup_delete_Some in Hk as [_ Hk]. by apply Hi.
  - simpl. rewrite closeLoop_lookup. case_decide; [done|]. apply Hi.
Qed.

Lemma NewScheduler_tasks_inv (b : bool) :
  tasks_inv (NewScheduler b : Sched).
Proof. intros nm t. simpl. by rewrite lookup_empty. Qed.

Lemma reachable_from_tasks_inv s0 s :
  reachable_from Parse s0 s → tasks_inv s0 → tasks_inv s.
Proof.
  unfold reachable_from. induction 1 as [s|s1 s2 s3 Hst _ IH]; [done|].
  intros H1. apply IH. by eapply step_tasks_inv.
Qed.

Lemma reachable_from_isMock s0 s :
  reachable_from Parse s0 s → isMock s = isMock s0.
Proof.
  unfold reachable_from. induction 1 as [s|s1 s2 s3 Hst _ IH]; [done|].
  rewrite IH. by eapply step_isMock.
Qed.

Lemma reachable_tasks_inv s : reachable Parse s → tasks_inv s.
Proof.
  intros [b Hr]. eapply reachable_from_tasks_inv; [exact Hr|].
  apply NewScheduler_tasks_inv.
Qed.

(** X14.  In every state the scheduler can reach, each task is stored
    under its own name, and the kind of the scheduler's clock never
    changes afterwards: on a scheduler made with a mock clock every task
    has a mock clock of its own, so the type assertion of [Trigger]
    holds, and otherwise every task shares the scheduler's clock. *)
Theorem tasks_keep_name_and_clock_kind s :
  reachable Parse s →
  tasks_inv s
  ∧ ∀ s', reachable_from Parse s s' → isMock s' = isMock s ∧ tasks_inv s'.
Proof.
  intros Hr. pose proof (reachable_tasks_inv s Hr) as Hinv.
  split; [done|]. intros s' Hs'. split.
  - by apply reachable_from_isMock.
  - by eapply reachable_from_tasks_inv.
Qed.

(** X15.  [Trigger] returns true exactly when the scheduler runs on a
    mock clock and the name is registered.  Then the clock of that task
    reads the scheduler's time and nothing else has changed; when it
    returns false the scheduler is as it was.  On a closed scheduler it
    returns false for every name. *)
Theorem Trigger_sets_one_clock s now nm :
  reachable Parse s →
  let r := Trigger s now nm in
  (r.2 = true ↔ isMock s = true ∧ is_Some (tasks s !! nm))
  ∧ (r.2 = false → r.1 = s)
  ∧ (r.2 = true →
     ∃ t, tasks s !! nm = Some t
          ∧ tasks r.1 !! nm
            = Some (newTask _ _ nm (OwnMockClock now) (schedule _ _ t)
                      (action _ _ t)))
  ∧ (∀ nm', nm' ≠ nm → tasks r.1 !! nm' = tasks s !! nm')
  ∧ dom (tasks r.1) = dom (tasks s)
  ∧ closed r.1 = closed s ∧ isMock r.1 = isMock s
  ∧ (closed s = true → r.2 = false).
Proof.
  intros Hr r. pose proof (reachable_tasks_inv s Hr) as Hinv.
  pose proof (reachable_closed_inv Parse s Hr) as Hcl.
  subst r. unfold Trigger.
  destruct (isMock s) eqn:Hm; simpl.
  2:{ split; [split; [done|by intros []]|]. by repeat split. }
  destruct (tasks s !! nm) as [t|] eqn:Hnm; simpl.
  - split; [by split|]. split; [done|]. split.
    { intros _. exists t. split; [done|]. rewrite lookup_insert_eq.
      destruct (Hinv nm t Hnm) as [-> _]. done. }
    split; [by intros nm' Hne; rewrite lookup_insert_ne|].
    split.
    { apply dom_insert_lookup_L. by eexists. }
    split; [done|]. split; [done|].
    intros Hc. rewrite (Hcl Hc), lookup_empty in Hnm. done.
  - split; [split; [done|by intros [_ []]]|]. repeat split; try done.
Qed.

(** X16.  [Register] returns no error exactly when the scheduler is
    open, the name is free and the expression parses; the expression is
    parsed only after the two other checks, so a parse error is reported
    for an open scheduler and a free name only.  When it returns an
    error the scheduler is as it was.  The new task reads the scheduler's
    time on a mock clock of its own when the scheduler runs on a mock
    clock, and shares the scheduler's clock otherwise; the other tasks
    are not touched. *)
Theorem Register_succeeds_iff s now nm o e a :
  let r := Register Parse s now nm o e a in
  (r.2 = None
   ↔ closed s = false ∧ tasks s !! nm = None ∧ ∃ sch, Parse o e = inl sch)
  ∧ (r.2 ≠ None → r.1 = s)
  ∧ (∀ err, r.2 = Some (ErrParse err) →
            closed s = false ∧ tasks s !! nm = None ∧ Parse o e = inr err)
  ∧ (∀ sch, Parse o e = inl sch → r.2 = None →
            tasks r.1 !! nm
            = Some (newTask _ _ nm (if isMock s then OwnMockClock now
                                    else SharedClock) sch a)
            ∧ (∀ nm', nm' ≠ nm → tasks r.1 !! nm' = tasks s !! nm')
            ∧ isMock r.1 = isMock s ∧ closed r.1 = false).
Proof.
  intros r. subst r. unfold Register.
  destruct (closed s) eqn:Hc; simpl.
  { split; [split; [done|by intros [? _]]|]. repeat split; done. }
  destruct (tasks s !! nm) as [t|] eqn:Hnm; simpl.
  { split; [split; [done|by intros (_ & ? & _)]|]. repeat split; done. }
  destruct (Parse o e) as [sch|err] eqn:Hp; simpl.
  - split; [split; [by eauto|done]|]. split; [done|]. split; [done|].
    intros sch' [= <-] _. rewrite lookup_insert_eq. split; [done|].
    split; [|done]. by intros nm' Hne; rewrite lookup_insert_ne.
  - split; [split; [done|by intros (_ & _ & ? & ?)]|].
    split; [done|]. split; [|done]. by intros err' [= <-].
Qed.

(** X17.  The entry of a task is deleted when its goroutine ends, and
    the name is free again: on an open scheduler, [Register] of a name
    whose task has exited returns no error for every expression that
    parses, while before the exit it returned the Duplicate error.  The
    exit of a task touches no other entry, and on a closed scheduler,
    whose registry [Close] has emptied, it changes nothing. *)
Theorem name_is_free_after_exit s nm :
  reachable Parse s →
  (∀ now o e a sch,
     closed s = false → Parse o e = inl sch →
     (Register Parse (taskExit s nm) now nm o e a).2 = None
     ∧ (is_Some (tasks s !! nm) →
        (Register Parse s now nm o e a).2 = Some (ErrTaskDuplicated nm)))
  ∧ (∀ nm', nm' ≠ nm → tasks (taskExit s nm) !! nm' = tasks s !! nm')
  ∧ tasks (taskExit s nm) !! nm = None
  ∧ (closed s = true → taskExit s nm = s).
Proof.
  intros Hr. pose proof (reachable_closed_inv Parse s Hr) as Hcl.
  split; [|split; [|split]].
  - intros now o e a sch Hc Hp. split.
    + unfold Register, taskExit. simpl. rewrite Hc, lookup_delete_eq, Hp. done.
    + intros [t Ht]. unfold Register. by rewrite Hc, Ht.
  - intros nm' Hne. simpl. by rewrite lookup_delete_ne.
  - simpl. apply lookup_delete_eq.
  - intros Hc. unfold taskExit. specialize (Hcl Hc).
    destruct s as [ts im cl]. simpl in *. subst ts. by rewrite delete_empty.
Qed.

Lemma Sub_pos t u : u < t → 0 < Sub t u.
Proof. unfold Sub, maxDuration, minDuration. lia. Qed.

(** X18.  [Interval] answers for the registered names and no others,
    and none on a closed scheduler.  Its second result is the next time
    of the task's schedule after the task's clock, its first the
    distance from there to the time after, cut to the range of a
    duration.  So on a scheduler with a mock clock the answer does not
    depend on the scheduler's clock, and after [Trigger] at [now] the
    next time is the one that follows [now].  For a schedule whose next
    time is always later, the interval is positive. *)
Theorem Interval_reads_the_task_clock s shared nm :
  reachable Parse s →
  (is_Some (Interval Next s shared nm) ↔ is_Some (tasks s !! nm))
  ∧ (closed s = true → Interval Next s shared nm = None)
  ∧ (isMock s = true →
     ∀ shared', Interval Next s shared' nm = Interval Next s shared nm)
  ∧ (∀ now t,
       tasks s !! nm = Some t →
       isMock s = true →
       Interval Next (Trigger s now nm).1 shared nm
       = Some (Sub (Next (schedule _ _ t) (Next (schedule _ _ t) now))
                   (Next (schedule _ _ t) now),
               Next (schedule _ _ t) now))
  ∧ (∀ d next t,
       Interval Next s shared nm = Some (d, next) →
       tasks s !! nm = Some t →
       (∀ u, u < Next (schedule _ _ t) u) →
       0 < d ≤ maxDuration ∧ clockNow shared t < next).
Proof.
  intros Hr. pose proof (reachable_tasks_inv s Hr) as Hinv.
  pose proof (reachable_closed_inv Parse s Hr) as Hcl.
  unfold Interval. split; [|split; [|split; [|split]]].
  - destruct (tasks s !! nm); [by split; eauto|]. by split; intros [].
  - intros Hc. by rewrite (Hcl Hc), lookup_empty.
  - intros Hm shared'. destruct (tasks s !! nm) as [t|] eqn:Ht; [|done].
    destruct (Hinv nm t Ht) as (_ & Hmock & _).
    destruct (Hmock Hm) as [now Hclock]. unfold clockNow. by rewrite Hclock.
  - intros now t Ht Hm. unfold Trigger. rewrite Hm, Ht. simpl.
    rewrite lookup_insert_eq. done.
  - intros d next t. destruct (tasks s !! nm) as [t'|]; [|done].
    intros [= <- <-] [= <-] Hnext. split; [split|].
    + apply Sub_pos, Hnext.
    + unfold Sub, maxDuration, minDuration. lia.
    + apply Hnext.
Qed.

Lemma reachable_from_closed_inv s s' :
  reachable_from Parse s s' → closed_inv s → closed_inv s'.
Proof.
  unfold reachable_from. induction 1 as [s|s1 s2 s3 Hst _ IH]; [done|].
  intros H1. apply IH. by eapply step_closed_inv.
Qed.

(** X25.  [Close] closes every task of the registry once, and a second
    [Close] finds nothing to close and changes nothing.  After [Close],
    whatever is called next, the scheduler stays closed and its registry
    stays empty. *)
Theorem Close_is_final s :
  Close (Close s).1 = ((Close s).1, [])
  ∧ NoDup (Close s).2
  ∧ ∀ s', reachable_from Parse (Close s).1 s' →
          Closed s' = true ∧ tasks s' = ∅
          ∧ ∀ now nm, (Trigger s' now nm).2 = false.
Proof.
  pose proof (Close_tasks_empty s) as He.
  split; [|split].
  - unfold Close at 1. rewrite He, map_to_list_empty. simpl.
    by rewrite <- He.
  - simpl. rewrite closeLoop_closes. apply NoDup_fst_map_to_list.
  - intros s' Hs'.
    assert (closed s' = true) as Hc
      by (by apply (reachable_from_closed Parse _ _ Hs')).
    assert (tasks s' = ∅) as Ht.
    { apply (reachable_from_closed_inv _ _ Hs'); [|done]. by intros _. }
    split; [done|]. split; [done|].
    intros now nm. unfold Trigger. destruct (negb _); [done|].
    by rewrite Ht, lookup_empty.
Qed.

End Facts.

Import Examples MoreExamples.

Lemma tasks_keep_name_and_clock_kind_witness :
  tasks_inv sched1
  ∧ isMock (Trigger sched1 9 "gc").1 = isMock sched1.
Proof.
  destruct (tasks_keep_name_and_clock_kind parseAny sched1 sched1_reachable)
    as [Hinv Hnext].
  split; [exact Hinv|].
  apply Hnext. apply rtc_once. apply step_Trigger.
Defined.

Lemma Trigger_sets_one_clock_witness :
  ((Trigger sched1 9 "gc").2 = true
   ↔ isMock sched1 = true ∧ is_Some (tasks sched1 !! "gc"))
  ∧ ((Trigger (Close sched1).1 9 "gc").2 = false).
Proof.
  destruct (Trigger_sets_one_clock parseAny sched1 9 "gc" sched1_reachable)
    as (Hiff & _).
  destruct (Trigger_sets_one_clock parseAny (Close sched1).1 9 "gc")
    as (_ & _ & _ & _ & _ & _ & _ & Hclosed).
  - destruct sched1_reachable as [b Hb]. exists b.
    eapply rtc_r; [exact Hb|]. apply step_Close.
  - split; [exact Hiff|]. apply Hclosed. reflexivity.
Defined.

Lemma Register_succeeds_iff_witness :
  tasks (Register parseAny sched1 6 "merge" () "@every 5s" ()).1 !! "merge"
  = Some (Scheduler.newTask _ _ "merge" (OwnMockClock 6) "@every 5s" ())
  ∧ (Register parseAny sched1 6 "gc" () "@every 5s" ()).1 = sched1.
Proof.
  destruct (Register_succeeds_iff parseAny sched1 6 "merge" () "@every 5s" ())
    as (_ & _ & _ & Hok).
  destruct (Register_succeeds_iff parseAny sched1 6 "gc" () "@every 5s" ())
    as (_ & Hsame & _).
  split.
  - apply (Hok "@every 5s"); [reflexivity|vm_compute; reflexivity].
  - apply Hsame. vm_compute. discriminate.
Defined.

Lemma name_is_free_after_exit_witness :
  (Register parseAny (taskExit sched1 "gc") 6 "gc" () "@every 5s" ()).2 = None
  ∧ (Register parseAny sched1 6 "gc" () "@every 5s" ()).2
    = Some (ErrTaskDuplicated "gc").
Proof.
  destruct (name_is_free_after_exit parseAny sched1 "gc" sched1_reachable)
    as (Hfree & _).
  destruct (Hfree 6 () "@every 5s" () "@every 5s") as [H1 H2];
    [reflexivity|reflexivity|].
  split; [exact H1|]. apply H2. eexists. vm_compute. reflexivity.
Defined.

Lemma Interval_reads_the_task_clock_witness :
  Interval everySecond (Trigger sched1 60 "gc").1 0 "gc"
  = Some (1000000000, 1000000060)
  ∧ Interval everySecond (Close sched1).1 0 "gc" = None.
Proof.
  destruct (Interval_reads_the_task_clock parseAny everySecond sched1 0 "gc"
              sched1_reachable) as (_ & _ & _ & Htrig & _).
  destruct (Interval_reads_the_task_clock parseAny everySecond (Close sched1).1
              0 "gc") as (_ & Hclosed & _).
  - destruct sched1_reachable as [b Hb]. exists b.
    eapply rtc_r; [exact Hb|]. apply step_Close.
  - split.
    + rewrite (Htrig 60 (newTask _ _ "gc" (OwnMockClock 5) "@every 1s" ()));
        [reflexivity|vm_compute; reflexivity|reflexivity].
    + apply Hclosed. reflexivity.
Defined.

Lemma Close_is_final_witness :
  Closed (Register parseAny (Close sched1).1 7 "gc" () "@every 1s" ()).1 = true
  ∧ tasks (Register parseAny (Close sched1).1 7 "gc" () "@every 1s" ()).1 = ∅.
Proof.
  destruct (Close_is_final parseAny sched1) as (_ & _ & Hafter).
  destruct (Hafter (Register parseAny (Close sched1).1 7 "gc" () "@every 1s" ()).1)
    as (Hc & Ht & _).
  - apply rtc_once. apply step_Register.
  - split; assumption.
Defined.

End SchedulerMoreFacts.

(* ===================================================================== *)
(** * The goroutine of a task: facts *)
(* ===================================================================== *)

Module TaskRunFacts.
Import SchedulerMore TaskRun.


Lemma count_cons_end p w ws :
  ends w = true → count p (w :: ws) = if p w then 1 else 0.
Proof.
  intros Hs. unfold count. cbn [seen]. rewrite Hs, filter_cons, filter_nil.
  destruct (decide (p w = true)) as [H|H]; destruct (p w); done.
Qed.

Lemma count_cons_go p w ws :
  ends w = false → count p (w :: ws) = (if p w then 1 else 0) + count p ws.
Proof.
  intros Hs. unfold count. cbn [seen]. rewrite Hs, filter_cons.
  destruct (decide (p w = true)) as [H|H]; destruct (p w); try done.
  cbn [length]. lia.
Qed.


Lemma seen_app ws more :
  existsb ends ws = true → seen (ws ++ more) = seen ws.
Proof.
  induction ws as [|w ws IH]; [done|]. cbn [existsb seen app].
  destruct (ends w); [done|]. cbn [orb]. intros H. by rewrite IH.
Qed.

Lemma head_outcome_ends ws :
  existsb ends ws = bool_decide (is_Some (head (omap outcomeOf ws))).
Proof.
  induction ws as [|w ws IH].
  { symmetry. apply bool_decide_eq_false. by intros []. }
  cbn [existsb]. unfold ends at 1.
  change (omap outcomeOf (w :: ws))
    with (match outcomeOf w with
          | Some o => o :: omap outcomeOf ws
          | None => omap outcomeOf ws
          end).
  destruct (outcomeOf w) as [o|]; [|exact IH].
  symmetry. by apply bool_decide_eq_true.
Qed.

Lemma delivered_cons_go now f elapsed ws :
  ends (TimerFired now f elapsed) = false →
  delivered (TimerFired now f elapsed :: ws) = now :: delivered ws.
Proof. intros He. by destruct f as [[|]| | |[|]]. Qed.

Lemma delivered_cons_end w ws : ends w = true → delivered (w :: ws) = [].
Proof. intros He. by destruct w as [a [[|]| | |[|]] c| |]. Qed.

(** Every kind of wake: what [ends] it, and what it counts for. *)
Local Ltac wake_cases w :=
  destruct w as [n [[|]| | |[|]] z| |].

Section Facts.
Context {Schedule : Type}.
Variable Next : Schedule → Z → Z.
Variable sch : Schedule.



Lemma loop_status now ws m timers :
  (loop Next sch now ws m timers).1.1
  = default Blocked (head (omap outcomeOf ws)).
Proof.
  revert now m timers. induction ws as [|w ws IH]; intros now m timers; [done|].
  wake_cases w; cbn [loop fire negb omap outcomeOf]; cbv zeta; cbn [negb];
    try apply IH; done.
Qed.


Lemma loop_seen now ws m timers :
  loop Next sch now (seen ws) m timers = loop Next sch now ws m timers.
Proof.
  revert now m timers. induction ws as [|w ws IH]; intros now m timers; [done|].
  wake_cases w; cbn [seen ends outcomeOf loop fire negb]; cbv zeta;
    cbn [negb]; try apply IH; done.
Qed.

Lemma loop_timers now ws m timers :
  ∃ blocks,
    (loop Next sch now ws m timers).2 = timers ++ concat blocks
    ∧ Forall2 (turnOf Next sch) (now :: delivered ws) blocks
    ∧ Z.of_nat (length (filter (λ c, c = TimeoutTimer) (concat blocks)))
      = count armsTimeout ws.
Proof.
  revert now m timers. induction ws as [|w ws IH]; intros now m timers.
  { exists [[WaitTimer (Sub (Next sch now) now)]]. split; [done|].
    split; [|done]. repeat constructor. }
  assert (∀ asked : list timerCall,
            asked = [] ∨ asked = [TimeoutTimer] →
            turnOf Next sch now ([WaitTimer (Sub (Next sch now) now)] ++ asked))
    as Hturn.
  { intros asked [-> | ->]; [by left|by right]. }
  assert (∀ now' f elapsed m1 asked,
            w = TimerFired now' f elapsed → ends w = false →
            asked = (if armsTimeout w then [TimeoutTimer] else []) →
            ∃ blocks,
              (loop Next sch now' ws m1
                 ((timers ++ [WaitTimer (Sub (Next sch now) now)]) ++ asked)).2
              = timers ++ concat blocks
              ∧ Forall2 (turnOf Next sch) (now :: delivered (w :: ws)) blocks
              ∧ Z.of_nat (length (filter (λ c, c = TimeoutTimer)
                                    (concat blocks)))
                = count armsTimeout (w :: ws)) as Hgo.
  { intros now' f elapsed m1 asked -> He ->.
    destruct (IH now' m1
                ((timers ++ [WaitTimer (Sub (Next sch now) now)])
                 ++ (if armsTimeout (TimerFired now' f elapsed)
                     then [TimeoutTimer] else [])))
      as (blocks & Heq & HF & Hn).
    exists (([WaitTimer (Sub (Next sch now) now)]
             ++ (if armsTimeout (TimerFired now' f elapsed)
                 then [TimeoutTimer] else [])) :: blocks).
    split; [by rewrite Heq, <- !app_assoc|]. split.
    - rewrite delivered_cons_go by done.
      constructor; [|done]. apply Hturn.
      destruct (armsTimeout _); [by right|by left].
    - rewrite count_cons_go by done. cbn [concat].
      rewrite filter_app, length_app, Nat2Z.inj_add, Hn.
      by destruct (armsTimeout _). }
  assert (∀ asked,
            ends w = true →
            asked = (if armsTimeout w then [TimeoutTimer] else []) →
            ∃ blocks,
              (timers ++ [WaitTimer (Sub (Next sch now) now)]) ++ asked
              = timers ++ concat blocks
              ∧ Forall2 (turnOf Next sch) (now :: delivered (w :: ws)) blocks
              ∧ Z.of_nat (length (filter (λ c, c = TimeoutTimer)
                                    (concat blocks)))
                = count armsTimeout (w :: ws)) as Hend.
  { intros asked He ->.
    exists [[WaitTimer (Sub (Next sch now) now)]
            ++ (if armsTimeout w then [TimeoutTimer] else [])].
    split; [cbn [concat]; by rewrite app_nil_r, <- !app_assoc|]. split.
    - rewrite delivered_cons_end by done.
      constructor; [|constructor]. apply Hturn.
      destruct (armsTimeout w); [by right|by left].
    - rewrite count_cons_end by done. cbn [concat]. rewrite app_nil_r.
      by destruct (armsTimeout w). }
  wake_cases w; cbn [loop fire negb]; cbv zeta; cbn [negb].
  - by eapply Hgo.
  - by apply Hend.
  - by eapply Hgo.
  - by apply Hend.
  - by eapply Hgo.
  - by eapply Hgo.
  - destruct (Hend [] eq_refl eq_refl) as (blocks & Heq & H).
    rewrite app_nil_r in Heq. by exists blocks.
  - destruct (Hend [] eq_refl eq_refl) as (blocks & Heq & H).
    rewrite app_nil_r in Heq. by exists blocks.
Qed.


(** X20.  How a task ends.  A task that was started goes on until the
    first wake that ends it: [run] has returned when that wake is the
    closer or an action that answers [false]; the process has died when
    it is the panic of an action, which no [recover] catches; and with
    no such wake [run] still waits.  What comes after that wake has no
    effect.  An action that answers [true], an action that times out and
    a panic that is recovered do not end the task. *)
Theorem run_ends_once now ws m :
  (run Next sch true now ws m).1.1 = default Blocked (head (omap outcomeOf ws))
  ∧ (∀ more,
       (run Next sch true now ws m).1.1 ≠ Blocked →
       run Next sch true now (ws ++ more) m = run Next sch true now ws m)
  ∧ (Forall (λ w, ∃ now' f elapsed,
                w = TimerFired now' f elapsed
                ∧ f ≠ ActionReturned false ∧ f ≠ ActionPanicked) ws →
     (run Next sch true now ws m).1.1 = Blocked).
Proof.
  assert (∀ ws', (run Next sch true now ws' m).1.1
                 = default Blocked (head (omap outcomeOf ws'))) as Hst.
  { intros ws'. unfold run. cbn [negb].
    pose proof (loop_status now ws' (jobStarted m) []) as H.
    destruct (loop Next sch now ws' (jobStarted m) []) as [[st m1] ts].
    cbn [fst snd] in *. rewrite <- H. by destruct st. }
  split; [done|]. split.
  - intros more. rewrite Hst. intros Hne.
    assert (existsb ends ws = true) as He.
    { rewrite head_outcome_ends. apply bool_decide_eq_true.
      destruct (head (omap outcomeOf ws)); [done|]. by destruct Hne. }
    unfold run.
    rewrite <- (loop_seen now (ws ++ more)), <- (loop_seen now ws).
    by rewrite seen_app.
  - intros Hall. rewrite Hst.
    assert (omap outcomeOf ws = []) as ->; [|done].
    induction Hall as [|w ws' (now' & f & elapsed & -> & Hf & Hp) _ IH];
      [done|].
    destruct f as [[|]| | |[|]]; try done; exact IH.
Qed.

(** X21.  What [run] asks of the clock.  Each turn of the loop asks for
    one timer, for the time from [now] to the next time of the schedule
    after [now], where [now] is at first the reading of the task's clock
    and then the time the last timer delivered, not the time the action
    ended; a turn whose timer fires asks, right after, for the timer of
    five minutes that bounds the action.  So the calls of
    [t.clock.Timer] are, turn by turn, the timer of the turn alone or
    followed by the timer of five minutes, the latter once for each
    firing that came to ask for it; and for a schedule whose next time
    is always later every timer is positive. *)
Theorem timers_turn_by_turn now ws m :
  (∃ blocks,
     (run Next sch true now ws m).2 = concat blocks
     ∧ Forall2 (turnOf Next sch) (now :: delivered ws) blocks)
  ∧ Z.of_nat (length (filter (λ c, c = TimeoutTimer)
                        (run Next sch true now ws m).2))
    = count armsTimeout ws
  ∧ ((∀ u, u < Next sch u) →
     Forall (λ c, 0 < timerDuration c ≤ maxDuration)
            (run Next sch true now ws m).2).
Proof.
  destruct (loop_timers now ws (jobStarted m) []) as (blocks & Heq & HF & Hn).
  assert ((run Next sch true now ws m).2 = concat blocks) as Hrun.
  { unfold run. cbn [negb].
    destruct (loop Next sch now ws (jobStarted m) []) as [[st m1] ts].
    cbn [snd app] in Heq. rewrite <- Heq. by destruct st. }
  rewrite Hrun. split; [by exists blocks|]. split; [done|].
  intros Hnext. apply Forall_concat.
  eapply Forall2_Forall_r; [exact HF|]. apply Forall_true.
  intros n calls [-> | ->]; repeat constructor; simpl;
    try (specialize (Hnext n); unfold Sub, maxDuration, minDuration; lia);
    try (unfold fiveMinutes, maxDuration; lia);
    try (specialize (Hnext n); unfold Sub, maxDuration, minDuration in *; lia).
Qed.

End Facts.

Import Examples MoreExamples.


Lemma run_ends_once_witness :
  run everySecond "@every 1s" true 0 (take 4 wakes5 ++ drop 4 wakes5) zeroMetrics
  = run everySecond "@every 1s" true 0 (take 4 wakes5) zeroMetrics
  ∧ (run everySecond "@every 1s" true 0 (take 3 wakes5) zeroMetrics).1.1
    = Blocked
  ∧ (run everySecond "@every 1s" true 0 wakesPanic zeroMetrics).1.1 = Died.
Proof.
  destruct (run_ends_once everySecond "@every 1s" 0 (take 4 wakes5) zeroMetrics)
    as (_ & Hafter & _).
  destruct (run_ends_once everySecond "@every 1s" 0 (take 3 wakes5) zeroMetrics)
    as (_ & _ & Hgoes).
  destruct (run_ends_once everySecond "@every 1s" 0 wakesPanic zeroMetrics)
    as (Hdied & _).
  split; [|split].
  - apply Hafter. vm_compute. discriminate.
  - apply Hgoes. repeat constructor; eexists _, _, _;
      (split; [reflexivity|split; discriminate]).
  - rewrite Hdied. reflexivity.
Defined.

Lemma timers_turn_by_turn_witness :
  Z.of_nat (length (filter (λ c, c = TimeoutTimer)
                      (run everySecond "@every 1s" true 0 wakes5 zeroMetrics).2))
  = 3
  ∧ Forall (λ c, 0 < timerDuration c ≤ maxDuration)
           (run everySecond "@every 1s" true 0 wakes5 zeroMetrics).2
  ∧ timerDuration <$> (run everySecond "@every 1s" true 0 wakes5 zeroMetrics).2
    = [1000000000; 300000000000; 1000000000; 300000000000;
       1000000000; 300000000000; 1000000000].
Proof.
  destruct (timers_turn_by_turn everySecond "@every 1s" 0 wakes5 zeroMetrics)
    as (_ & Hn & Hpos).
  split; [|split].
  - rewrite Hn. reflexivity.
  - apply Hpos. intros u. unfold everySecond. lia.
  - vm_compute. reflexivity.
Defined.

End TaskRunFacts.
